(** * Moveset search (pokedex/util/movesets.py): embedding and properties

    The Python module plans how a creature can come to know a set of up to
    four moves.  This file embeds, as executable Rocq definitions, the parts
    of [MovesetSearch], [InitialNode] and [PokemonNode] that the properties
    below talk about:

    - Python integers are [Z]; identifiers of moves, creatures, version
      groups, egg groups and evolution chains are the integer ids the
      tables hand out;
    - a [dict] is a [gmap], a [set]/[frozenset] is a [gset]; two dicts
      compare equal with [==] exactly when the two [gmap]s are equal;
    - Python 2 fixes no iteration order for dicts and sets: the order is a
      parameter ([iteration_order]) of every function that iterates;
    - an exception is a value of [exn]; code that can raise returns a
      [result]; a generator is the list of what it yields before it stops,
      together with the exception that stopped it, if any ([gen]). *)

From Stdlib Require Import ZArith Lia.
From stdpp Require Import base gmap sets list strings sorting pretty.

Open Scope Z_scope.

(** ** Exceptions *)

Inductive exn_class :=
  | ValueError
  | KeyError
  | TypeError
  | AttributeError
  | IllegalMoveCombination
  | TooManyMoves
  | NoMoves
  | MovesNotLearnable
  | NoParent
  | TargetExcluded.

#[global] Instance exn_class_eq_dec : EqDecision exn_class.
Proof. solve_decision. Defined.

(** The base class written in each [class] statement (lines 22-27); the
    builtin classes end the chain here. *)
Definition base_class (c : exn_class) : option exn_class :=
  match c with
  | IllegalMoveCombination => Some ValueError
  | TooManyMoves | NoMoves | MovesNotLearnable | NoParent | TargetExcluded =>
      Some IllegalMoveCombination
  | ValueError | KeyError | TypeError | AttributeError => None
  end.

Definition issubclass (c d : exn_class) : bool :=
  bool_decide (c = d) ||
  match base_class c with
  | Some p =>
      bool_decide (p = d) ||
      match base_class p with
      | Some q => bool_decide (q = d)
      | None => false
      end
  | None => false
  end.

Record exn := Raise { exn_type : exn_class; exn_message : string }.

#[global] Instance exn_eq_dec : EqDecision exn.
Proof. solve_decision. Defined.

Definition isinstance (e : exn) (c : exn_class) : bool :=
  issubclass (exn_type e) c.

(** ** Results and generators *)

Definition result : Type → Type := sum exn.
Definition Ok {A} (a : A) : result A := inr a.
Definition Err {A} (e : exn) : result A := inl e.

#[global] Instance result_ret : MRet result := λ A a, inr a.
#[global] Instance result_bind : MBind result := λ A B f x,
  match x with
  | inl e => inl e
  | inr a => f a
  end.

(** What a generator yields until it is exhausted ([None]) or an exception
    escapes from it ([Some e]). *)
Definition gen (A : Type) : Type := (list A * option exn)%type.

Definition gen_done {A} : gen A := ([], None).
Definition gen_yield {A} (a : A) : gen A := ([a], None).
Definition gen_raise {A} (e : exn) : gen A := ([], Some e).

Definition gen_seq {A} (g : gen A) (k : gen A) : gen A :=
  match g with
  | (ys, Some e) => (ys, Some e)
  | (ys, None) => (ys ++ k.1, k.2)
  end.

(** [for x in l: body] inside a generator. *)
Fixpoint gen_for {A B} (l : list A) (body : A → gen B) : gen B :=
  match l with
  | [] => gen_done
  | x :: l' => gen_seq (body x) (gen_for l' body)
  end.

(** A statement that may raise, followed by the rest of the generator. *)
Definition gen_try {A B} (r : result A) (k : A → gen B) : gen B :=
  match r with
  | inl e => gen_raise e
  | inr a => k a
  end.

(** ** Iteration order of sets and dicts *)

Record iteration_order := {
  iter_set : gset Z → list Z;
  iter_set_perm : ∀ X, iter_set X ≡ₚ elements X;
  iter_dict : ∀ {V}, gmap Z V → list (Z * V);
  iter_dict_perm : ∀ V (m : gmap Z V), iter_dict m ≡ₚ map_to_list m;
  iter_sdict : ∀ {V}, gmap string V → list (string * V);
  iter_sdict_perm : ∀ V (m : gmap string V), iter_sdict m ≡ₚ map_to_list m
}.

Definition key_le {V} (a b : Z * V) : Prop := a.1 ≤ b.1.

#[global] Instance key_le_dec {V} (a b : Z * V) : Decision (key_le a b).
Proof. unfold key_le. apply _. Defined.

(** Integer keys in increasing order (what CPython 2 does for a handful of
    small non-negative integers), string keys in the order of the map. *)
Program Definition ascending : iteration_order := {|
  iter_set X := merge_sort Z.le (elements X);
  iter_dict V m := merge_sort key_le (map_to_list m);
  iter_sdict V m := map_to_list m
|}.
Next Obligation. intros X. apply merge_sort_Permutation. Qed.
Next Obligation. intros V m. apply merge_sort_Permutation. Qed.
Next Obligation. reflexivity. Qed.

(** ** Dict access *)

Definition getitem (d : gmap Z Z) (k : Z) : result Z :=
  match d !! k with
  | Some v => Ok v
  | None => Err (Raise KeyError (pretty k))
  end.

Definition cost_of (costs : gmap string Z) (k : string) : result Z :=
  match costs !! k with
  | Some v => Ok v
  | None => Err (Raise KeyError k)
  end.

(** [defaultdict] read: a missing key reads as the default. *)
Definition dd_get {K V} `{Countable K} (dflt : V) (d : gmap K V) (k : K) : V :=
  default dflt (d !! k).

(** ** The search object *)

Abbreviation levels_costs_t := (list (Z * Z)).
Abbreviation methods_t := (gmap string (list (Z * Z))).
Abbreviation moves_t := (gmap Z (gmap string (list (Z * Z)))).

(** The attributes of a fully set-up [MovesetSearch] that the embedded
    methods read or write. *)
Record MovesetSearch := {
  costs : gmap string Z;
  sketch : Z;
  excluded_families : gset Z;
  goal_evolution_chain : option Z;
  goal_moves : gset Z;
  egg_moves : gset Z;
  generation_id_by_version_group : gmap Z Z;
  egg_groups : gmap Z (list Z);
  evolution_chains : gmap Z Z;
  evolution_moves : gmap Z Z;
  pokemon_moves : gmap Z (gmap Z moves_t);
  movepools : gmap Z (gmap Z Z);
  learnpools : gmap Z (gset Z);
  smeargle_families : gset Z;
  breeds_required : gmap Z (gmap (gset Z) Z);
  duplicate_versions : gmap Z (gmap Z (gset Z))
}.

(** [default_costs], lines 518-553. *)
Definition default_costs : gmap string Z :=
  list_to_map [
    ("level-up", 20); ("machine", 40); ("machine-once", 2000);
    ("tutor", 60); ("tutor-once", 2100); ("sketch", 5);
    ("stadium-surfing-pikachu", 100); ("light-ball-egg", 100);
    ("colosseum-purification", 100); ("xd-shadow", 100);
    ("xd-purification", 100); ("form-change", 100);
    ("evolution", 100); ("evolution-delayed", 50); ("breed", 400);
    ("trade", 200); ("transfer", 200); ("forget", 300);
    ("relearn", 150); ("per-level", 1)
  ]%string.

(** *** [MovesetSearch.trade_cost] *)

(** [gen in (1, 2)] *)
Definition in_1_2 (g : Z) : bool := bool_decide (g = 1) || bool_decide (g = 2).

Definition trade_cost (self : MovesetSearch)
    (version_group_from version_group_to : Z)
    (thing_generations : list Z) : result (option Z) :=
  gen_from ← getitem (generation_id_by_version_group self) version_group_from;
  gen_to ← getitem (generation_id_by_version_group self) version_group_to;
  if bool_decide (gen_from = gen_to) then
    t ← cost_of (costs self) "trade"; Ok (Some t)
  else if existsb (λ g, bool_decide (g > gen_to)) thing_generations then
    Ok None
  else if in_1_2 gen_from then
    if in_1_2 gen_to then
      t ← cost_of (costs self) "trade"; Ok (Some t)
    else Ok None
  else if in_1_2 gen_to then Ok None
  else if bool_decide (gen_from > gen_to) then Ok None
  else if bool_decide (gen_from < gen_to - 1) then Ok None
  else
    t ← cost_of (costs self) "trade";
    x ← cost_of (costs self) "transfer";
    Ok (Some (t + x)).

(** *** [MovesetSearch.__init__] and [MovesetSearch.__iter__] *)

Section Construction.
(** The generator object made by [InitialNode(self).find_all_paths()];
    the A* module is not part of this file. *)
Context {Generator : Type}.

(** [generator] and [error] are set first (line 48); [state] holds the
    attributes that lines 57-120 set, and is absent when the constructor
    returned before them. *)
Record search_object := {
  generator : option Generator;
  error : option exn;
  state : option MovesetSearch
}.

(** Lines 57-120: reads the tables, fills the attributes and creates the
    generator (or sets [error] to [TargetExcluded]). *)
Variable setup : list Z → result search_object.

Definition __init__ (moves : list Z) : result search_object :=
  match moves with
  | [] =>
      Ok {| generator := None;
            error := Some (Raise NoMoves "No moves specified.");
            state := None |}
  | _ =>
      if (4 <? length moves)%nat then
        Ok {| generator := None;
              error := Some (Raise NoMoves "Too many moves specified.");
              state := None |}
      else setup moves
  end.

Definition __iter__ (self : search_object) : result Generator :=
  match generator self with
  | Some g => Ok g
  | None =>
      match error self with
      | Some e => Err e
      | None =>
          Err (Raise TypeError "exceptions must be old-style classes or derived from BaseException, not NoneType")
      end
  end.
End Construction.

(** ** Search space transitions *)

Inductive Action :=
  | StartAction (pokemon version_group : Z)
  | LearnAction (move : Z) (method : string)
  | ForgetAction (move : Z).

(** ** Search space nodes *)

Record PokemonNode := {
  search : MovesetSearch;
  pokemon : Z;
  level : Z;
  version_group : Z;
  moves : gset Z;
  new_level : bool
}.

(** What [expand] yields: [cost, action, node]. *)
Definition transition : Type := Z * Action * PokemonNode.

(** [PokemonNode._learn]: [self._replace] with the keywords it is called
    with, [moves] always, [level] and [new_level] when given. *)
Definition _learn (self : PokemonNode) (move : Z) (method : string) (cost : Z)
    (kw_level : option Z) (kw_new_level : option bool) : transition :=
  (cost, LearnAction move method,
   {| search := search self;
      pokemon := pokemon self;
      level := default (level self) kw_level;
      version_group := version_group self;
      moves := moves self ∪ {[move]};
      new_level := default (new_level self) kw_new_level |}).

(** The body of [for level, cost in levels_costs] under
    [method == 'level-up'] (lines 608-616). *)
Definition learn_level_up (self : PokemonNode) (move : Z)
    (record : Z * Z) : gen transition :=
  let '(lvl, cost) := record in
  let level_difference := lvl - level self in
  if bool_decide (level_difference > 0)
     || (bool_decide (level_difference = 0) && new_level self)
  then
    gen_try (cost_of (costs (search self)) "per-level") (λ per_level,
      gen_yield (_learn self move "level-up"
                   (cost + level_difference * per_level)
                   (Some lvl) (Some true)))
  else
    gen_try (cost_of (costs (search self)) "relearn") (λ relearn,
      gen_yield (_learn self move "relearn" relearn None (Some false))).

(** The body of [for method, levels_costs in methods.items()]
    (lines 606-631). *)
Definition learn_by_method (self : PokemonNode) (move : Z)
    (method : string) (levels_costs : list (Z * Z)) : gen transition :=
  if bool_decide (method = "level-up") then
    gen_for levels_costs (learn_level_up self move)
  else if bool_decide (method ∈ ["machine"; "tutor"]) then
    gen_for levels_costs (λ '(_, cost),
      gen_yield (_learn self move method cost None (Some false)))
  else if bool_decide (method = "egg") then
    gen_done
  else if bool_decide (method = "light-ball-egg") then
    if bool_decide (level self = 0) then
      gen_for levels_costs (λ '(_, cost),
        gen_yield (_learn self move method cost None None))
    else gen_done
  else if bool_decide (method = "stadium-surfing-pikachu") then
    gen_for levels_costs (λ '(_, cost),
      gen_yield (_learn self move method cost None (Some false)))
  else
    gen_raise (Raise ValueError ("Unknown move method " +:+ method)).

(** [PokemonNode.expand_learn] over the mapping read at line 601. *)
Definition expand_learn_from (o : iteration_order) (self : PokemonNode)
    (data : moves_t) : gen transition :=
  gen_for (iter_dict o data) (λ '(move, methods),
    if bool_decide (move ∈ moves self) then gen_done
    else
      gen_for (iter_sdict o methods) (λ '(method, levels_costs),
        learn_by_method self move method levels_costs)).

(** [search.pokemon_moves[self.pokemon][self.version_group]]: both levels
    are [defaultdict]s. *)
Definition learnable (s : MovesetSearch) (p vg : Z) : moves_t :=
  dd_get ∅ (dd_get ∅ (pokemon_moves s) p) vg.

Definition expand_learn (o : iteration_order) (self : PokemonNode)
    : gen transition :=
  expand_learn_from o self
    (learnable (search self) (pokemon self) (version_group self)).

Definition expand_forget (o : iteration_order) (self : PokemonNode)
    : gen transition :=
  gen_try (cost_of (costs (search self)) "forget") (λ cost,
    gen_for (iter_set o (moves self)) (λ move,
      gen_yield (cost, ForgetAction move,
                 {| search := search self;
                    pokemon := pokemon self;
                    level := level self;
                    version_group := version_group self;
                    moves := moves self ∖ {[move]};
                    new_level := false |}))).

(** [PokemonNode.expand] *)
Definition expand (o : iteration_order) (self : PokemonNode)
    : gen transition :=
  if bool_decide (moves self = ∅) then expand_learn o self
  else if bool_decide (size (moves self) < 4)%nat then expand_learn o self
  else expand_forget o self.

(** [InitialNode.expand] *)
Definition InitialNode_expand (o : iteration_order) (s : MovesetSearch)
    : gen transition :=
  gen_for (iter_dict o (pokemon_moves s)) (λ '(p, version_groups),
    gen_try (getitem (evolution_chains s) p) (λ chain,
      if existsb
           (λ group, bool_decide (dd_get ∅ (breeds_required s) group ≠ ∅))
           (dd_get [] (egg_groups s) chain)
      then
        gen_for (iter_dict o version_groups).*1 (λ vg,
          gen_yield (0, StartAction p vg,
                     {| search := s; pokemon := p; level := 0;
                        version_group := vg; moves := ∅;
                        new_level := false |}))
      else gen_done)).

(** The states the search can visit: what the initial pseudo-state yields,
    and what [expand] yields from a state already visited. *)
Inductive reachable (o : iteration_order) (s : MovesetSearch)
    : PokemonNode → Prop :=
  | reachable_start c a n :
      (c, a, n) ∈ (InitialNode_expand o s).1 → reachable o s n
  | reachable_step n c a n' :
      reachable o s n → (c, a, n') ∈ (expand o n).1 → reachable o s n'.

Definition is_learn (t : transition) : bool :=
  match t.1.2 with
  | LearnAction _ _ => true
  | _ => false
  end.

Definition is_forget (t : transition) : bool :=
  match t.1.2 with
  | ForgetAction _ => true
  | _ => false
  end.

(** ** Record updates *)

Definition set_movepools (v : gmap Z (gmap Z Z)) (s : MovesetSearch)
    : MovesetSearch :=
  {| costs := costs s; sketch := sketch s;
     excluded_families := excluded_families s;
     goal_evolution_chain := goal_evolution_chain s;
     goal_moves := goal_moves s; egg_moves := egg_moves s;
     generation_id_by_version_group := generation_id_by_version_group s;
     egg_groups := egg_groups s; evolution_chains := evolution_chains s;
     evolution_moves := evolution_moves s; pokemon_moves := pokemon_moves s;
     movepools := v; learnpools := learnpools s;
     smeargle_families := smeargle_families s;
     breeds_required := breeds_required s;
     duplicate_versions := duplicate_versions s |}.

Definition set_learnpools (v : gmap Z (gset Z)) (s : MovesetSearch)
    : MovesetSearch :=
  {| costs := costs s; sketch := sketch s;
     excluded_families := excluded_families s;
     goal_evolution_chain := goal_evolution_chain s;
     goal_moves := goal_moves s; egg_moves := egg_moves s;
     generation_id_by_version_group := generation_id_by_version_group s;
     egg_groups := egg_groups s; evolution_chains := evolution_chains s;
     evolution_moves := evolution_moves s; pokemon_moves := pokemon_moves s;
     movepools := movepools s; learnpools := v;
     smeargle_families := smeargle_families s;
     breeds_required := breeds_required s;
     duplicate_versions := duplicate_versions s |}.

Definition set_smeargle_families (v : gset Z) (s : MovesetSearch)
    : MovesetSearch :=
  {| costs := costs s; sketch := sketch s;
     excluded_families := excluded_families s;
     goal_evolution_chain := goal_evolution_chain s;
     goal_moves := goal_moves s; egg_moves := egg_moves s;
     generation_id_by_version_group := generation_id_by_version_group s;
     egg_groups := egg_groups s; evolution_chains := evolution_chains s;
     evolution_moves := evolution_moves s; pokemon_moves := pokemon_moves s;
     movepools := movepools s; learnpools := learnpools s;
     smeargle_families := v;
     breeds_required := breeds_required s;
     duplicate_versions := duplicate_versions s |}.

Definition set_pokemon_moves (v : gmap Z (gmap Z moves_t)) (s : MovesetSearch)
    : MovesetSearch :=
  {| costs := costs s; sketch := sketch s;
     excluded_families := excluded_families s;
     goal_evolution_chain := goal_evolution_chain s;
     goal_moves := goal_moves s; egg_moves := egg_moves s;
     generation_id_by_version_group := generation_id_by_version_group s;
     egg_groups := egg_groups s; evolution_chains := evolution_chains s;
     evolution_moves := evolution_moves s; pokemon_moves := v;
     movepools := movepools s; learnpools := learnpools s;
     smeargle_families := smeargle_families s;
     breeds_required := breeds_required s;
     duplicate_versions := duplicate_versions s |}.

Definition set_breeds_required (v : gmap Z (gmap (gset Z) Z))
    (s : MovesetSearch) : MovesetSearch :=
  {| costs := costs s; sketch := sketch s;
     excluded_families := excluded_families s;
     goal_evolution_chain := goal_evolution_chain s;
     goal_moves := goal_moves s; egg_moves := egg_moves s;
     generation_id_by_version_group := generation_id_by_version_group s;
     egg_groups := egg_groups s; evolution_chains := evolution_chains s;
     evolution_moves := evolution_moves s; pokemon_moves := pokemon_moves s;
     movepools := movepools s; learnpools := learnpools s;
     smeargle_families := smeargle_families s;
     breeds_required := v;
     duplicate_versions := duplicate_versions s |}.

Definition set_duplicate_versions (v : gmap Z (gmap Z (gset Z)))
    (s : MovesetSearch) : MovesetSearch :=
  {| costs := costs s; sketch := sketch s;
     excluded_families := excluded_families s;
     goal_evolution_chain := goal_evolution_chain s;
     goal_moves := goal_moves s; egg_moves := egg_moves s;
     generation_id_by_version_group := generation_id_by_version_group s;
     egg_groups := egg_groups s; evolution_chains := evolution_chains s;
     evolution_moves := evolution_moves s; pokemon_moves := pokemon_moves s;
     movepools := movepools s; learnpools := learnpools s;
     smeargle_families := smeargle_families s;
     breeds_required := breeds_required s;
     duplicate_versions := v |}.

(** A loop whose body may raise. *)
Fixpoint for_each {A S} (l : list A) (body : S → A → result S) (st : S)
    : result S :=
  match l with
  | [] => Ok st
  | x :: l' =>
      match body st x with
      | inl e => inl e
      | inr st' => for_each l' body st'
      end
  end.

(** *** [MovesetSearch.find_duplicate_versions] *)

(** The sets made by [set([version_group])] are objects in a store;
    [last] and the values of [dupes] refer to them by position, so that
    [last.add] is seen through every [dupes] entry that holds the same
    set. *)
Record dupes_state := {
  store : list (gset Z);
  dupes : gmap Z nat;
  last : option nat;
  last_moves : option moves_t;
  last_gen : option Z
}.

Definition dupes_init : dupes_state :=
  {| store := []; dupes := ∅; last := None;
     last_moves := None; last_gen := None |}.

(** The body of [for version_group, moves in vg_moves.items()]. *)
Definition dupes_step (gens : gmap Z Z) (st : dupes_state)
    (item : Z * moves_t) : result dupes_state :=
  let '(vg, mvs) := item in
  g ← getitem gens vg;
  if bool_decide (Some g = last_gen st)
     && bool_decide (Some mvs = last_moves st)
  then
    match last st with
    | Some a =>
        Ok {| store := alter (λ X, X ∪ {[vg]}) a (store st);
              dupes := <[vg := a]> (dupes st);
              last := last st;
              last_moves := last_moves st;
              last_gen := last_gen st |}
    | None =>
        Err (Raise AttributeError "'NoneType' object has no attribute 'add'")
    end
  else
    let a := length (store st) in
    Ok {| store := store st ++ [{[vg]}];
          dupes := <[vg := a]> (dupes st);
          last := Some a;
          last_moves := Some mvs;
          last_gen := Some g |}.

(** Reading [dupes[version_group]] once the loop is over. *)
Definition dupes_read (st : dupes_state) : gmap Z (gset Z) :=
  (λ a, default ∅ (store st !! a)) <$> dupes st.

Definition find_dupes (o : iteration_order) (gens : gmap Z Z)
    (vg_moves : gmap Z moves_t) : result (gmap Z (gset Z)) :=
  st ← for_each (iter_dict o vg_moves) (dupes_step gens) dupes_init;
  Ok (dupes_read st).

Definition find_duplicate_versions (o : iteration_order)
    (self : MovesetSearch) : result MovesetSearch :=
  dv ← for_each (iter_dict o (pokemon_moves self))
          (λ dv '(p, vg_moves),
             d ← find_dupes o (generation_id_by_version_group self) vg_moves;
             Ok (<[p := d]> dv))
          ∅;
  Ok (set_duplicate_versions dv self).

(** *** [MovesetSearch.load_pokemon_moves] *)

(** One row of [PokemonMove] joined with its [Pokemon] and
    [PokemonMoveMethod], in the order of the columns queried at
    lines 173-180. *)
Record pokemon_move_row := {
  row_pokemon : Z;
  row_move : Z;
  row_version_group : Z;
  row_method : string;
  row_level : Z;
  row_chain : Z
}.

Definition level_le (a b : pokemon_move_row) : Prop :=
  row_level a ≤ row_level b.

#[global] Instance level_le_dec a b : Decision (level_le a b).
Proof. unfold level_le. apply _. Defined.

(** [if evolution_chain:] *)
Definition truthy (x : option Z) : bool :=
  match x with
  | Some z => bool_decide (z ≠ 0)
  | None => false
  end.

(** The query built at lines 173-203, run on the joined table. *)
Definition query_pokemon_moves (self : MovesetSearch)
    (table : list pokemon_move_row)
    (evolution_chain : option Z) (selection : string)
    : list pokemon_move_row :=
  let q := table in
  let q := List.filter (λ r, bool_decide
             (row_version_group r ∈ dom (generation_id_by_version_group self)))
             q in
  let q := List.filter (λ r,
             bool_decide (row_level r > 100)
             || bool_decide (row_move r ∈ goal_moves self)
             || bool_decide (row_move r = sketch self)
             || bool_decide
                  (row_move r ∈ (map_to_list (evolution_moves self)).*2))
             q in
  let q :=
    if bool_decide (excluded_families self ≠ ∅) then
      List.filter (λ r, bool_decide (row_chain r ∉ excluded_families self)) q
    else q in
  let q :=
    if truthy evolution_chain then
      if bool_decide (selection = "family") then
        List.filter (λ r, bool_decide (Some (row_chain r) = evolution_chain)) q
      else if bool_decide (selection = "others") then
        List.filter (λ r, bool_decide (Some (row_chain r) ≠ evolution_chain)) q
      else q
    else q in
  merge_sort level_le q.

(** [self.pokemon_moves[pokemon][vg][move][method].append((level, cost))] *)
Definition append_record (pm : gmap Z (gmap Z moves_t))
    (p vg move : Z) (method : string) (rec : Z * Z)
    : gmap Z (gmap Z moves_t) :=
  let by_vg := dd_get ∅ pm p in
  let by_move := dd_get ∅ by_vg vg in
  let by_method := dd_get ∅ by_move move in
  let records := dd_get [] by_method method in
  <[p := <[vg := <[move := <[method := records ++ [rec]]> by_method]>
                    by_move]> by_vg]> pm.

Record load_state := {
  ls_self : MovesetSearch;
  easy_moves : gset Z;
  non_egg_moves : gset Z
}.

(** The cost chosen at lines 214-225 for a goal move. *)
Definition goal_move_cost (self : MovesetSearch) (vg : Z) (method : string)
    : result Z :=
  if bool_decide (method = "level-up") then cost_of (costs self) "level-up"
  else
    g ← getitem (generation_id_by_version_group self) vg;
    if bool_decide (method = "machine") && bool_decide (g < 5) then
      cost_of (costs self) "machine-once"
    else if bool_decide (method = "tutor") && bool_decide (g = 3) then
      cost_of (costs self) "tutor-once"
    else if bool_decide (method = "egg") then
      cost_of (costs self) "breed"
    else cost_of (costs self) method.

(** The body of the loop at lines 212-244. *)
Definition load_row (breed_cost sketch_cost : Z) (st : load_state)
    (r : pokemon_move_row) : result load_state :=
  let self := ls_self st in
  let p := row_pokemon r in
  let move := row_move r in
  let vg := row_version_group r in
  let method := row_method r in
  let chain := row_chain r in
  let record (self : MovesetSearch) (cost : Z) : MovesetSearch :=
    set_pokemon_moves
      (append_record (pokemon_moves self) p vg move method (row_level r, cost))
      self in
  if bool_decide (move ∈ goal_moves self) then
    cost ← goal_move_cost self vg method;
    let pool := dd_get ∅ (movepools self) chain in
    let self :=
      set_movepools
        (<[chain := <[move := Z.min (default cost (pool !! move)) cost]> pool]>
           (movepools self)) self in
    if bool_decide (method ≠ "egg") then
      let self :=
        set_learnpools
          (<[chain := dd_get ∅ (learnpools self) chain ∪ {[move]}]>
             (learnpools self)) self in
      Ok {| ls_self := record self cost;
            easy_moves :=
              if bool_decide (cost < breed_cost)
              then easy_moves st ∪ {[move]} else easy_moves st;
            non_egg_moves := non_egg_moves st ∪ {[move]} |}
    else
      Ok {| ls_self := record self cost;
            easy_moves := easy_moves st;
            non_egg_moves := non_egg_moves st |}
  else if bool_decide (move = sketch self) then
    family ← getitem (evolution_chains self) p;
    let self :=
      set_smeargle_families (smeargle_families self ∪ {[family]}) self in
    Ok {| ls_self := record self sketch_cost;
          easy_moves := easy_moves st;
          non_egg_moves := non_egg_moves st |}
  else
    evolution_chain ← getitem (evolution_chains self) p;
    if bool_decide (Some move ≠ evolution_moves self !! evolution_chain) then
      Ok st
    else
      Ok {| ls_self := record self 1;
            easy_moves := easy_moves st;
            non_egg_moves := non_egg_moves st |}.

(** Returns the updated object and [(easy_moves, non_egg_moves)]. *)
Definition load_pokemon_moves (self : MovesetSearch)
    (table : list pokemon_move_row)
    (evolution_chain : option Z) (selection : string)
    : result (MovesetSearch * (gset Z * gset Z)) :=
  let query := query_pokemon_moves self table evolution_chain selection in
  let self := set_smeargle_families ∅ self in
  sketch_cost ← cost_of (costs self) "sketch";
  breed_cost ← cost_of (costs self) "breed";
  st ← for_each query (load_row breed_cost sketch_cost)
         {| ls_self := self; easy_moves := ∅; non_egg_moves := ∅ |};
  Ok (ls_self st, (easy_moves st, non_egg_moves st)).

(** *** [MovesetSearch.load_pokemon] *)

(** One row of the first query (lines 295-308): a creature, its evolution
    chain, the creature it evolves from, one of its egg groups, its other
    egg group when that one has the greater id, and the baby-trigger item
    of the chain. *)
Record pokemon_row := {
  pk_pokemon : Z;
  pk_chain : Z;
  pk_parent : option Z;
  pk_g1 : Z;
  pk_g2 : option Z;
  pk_baby_item : option Z
}.

(** One row of the second query (lines 337-343). *)
Record evolution_row := {
  ev_child : Z;
  ev_trigger : string;
  ev_move : option Z;
  ev_level : option Z
}.

(** [(trigger, move, level, child)] *)
Definition evolution : Type := string * option Z * option Z * Z.

(** The attributes [load_pokemon] sets. *)
Record pokemon_tables := {
  unbreedable : gset Z;
  evolution_parents : gmap Z Z;
  pt_egg_groups : gmap Z (list Z);
  pt_evolution_chains : gmap Z Z;
  pokemon_by_evolution_chain : gmap Z (gset Z);
  babies : gmap Z (gset Z);
  evolutions : gmap Z (gset evolution);
  pt_evolution_moves : gmap Z Z
}.

Definition pokemon_tables_init : pokemon_tables :=
  {| unbreedable := ∅; evolution_parents := ∅; pt_egg_groups := ∅;
     pt_evolution_chains := ∅; pokemon_by_evolution_chain := ∅;
     babies := ∅; evolutions := ∅; pt_evolution_moves := ∅ |}.

(** [groups = (g1, g2) if g2 else (g1, )] *)
Definition row_groups (r : pokemon_row) : list Z :=
  match pk_g2 r with
  | Some g2 => if bool_decide (g2 ≠ 0) then [pk_g1 r; g2] else [pk_g1 r]
  | None => [pk_g1 r]
  end.

(** [self.babies[group].add(pokemon)] *)
Definition add_baby (pokemon : Z) (b : gmap Z (gset Z)) (group : Z)
    : gmap Z (gset Z) :=
  <[group := dd_get ∅ b group ∪ {[pokemon]}]> b.

(** The locals of the first loop: the tables, [item_baby_chains], and the
    loop variable [pokemon], which keeps the value of the last turn. *)
Record first_loop := {
  fl_tables : pokemon_tables;
  item_baby_chains : gset Z;
  fl_pokemon : option Z
}.

(** The body of the loop at lines 317-332. *)
Definition load_pokemon_row (no_eggs_group ditto_group : Z)
    (st : first_loop) (r : pokemon_row) : first_loop :=
  let t := fl_tables st in
  let groups := row_groups r in
  let bad := bool_decide (pk_g1 r = no_eggs_group ∨ pk_g1 r = ditto_group) in
  let have_parent := truthy (pk_parent r) in
  {| fl_tables :=
       {| unbreedable :=
            if bad then unbreedable t ∪ {[pk_pokemon r]} else unbreedable t;
          evolution_parents :=
            match pk_parent r with
            | Some parent =>
                if have_parent
                then <[pk_pokemon r := parent]> (evolution_parents t)
                else evolution_parents t
            | None => evolution_parents t
            end;
          pt_egg_groups :=
            if bad then pt_egg_groups t
            else if bool_decide
                      (length (default [] (pt_egg_groups t !! pk_chain r))
                       ≤ length groups)%nat
                 then <[pk_chain r := groups]> (pt_egg_groups t)
                 else pt_egg_groups t;
          pt_evolution_chains :=
            <[pk_pokemon r := pk_chain r]> (pt_evolution_chains t);
          pokemon_by_evolution_chain :=
            <[pk_chain r :=
                dd_get ∅ (pokemon_by_evolution_chain t) (pk_chain r)
                ∪ {[pk_pokemon r]}]> (pokemon_by_evolution_chain t);
          babies :=
            if have_parent then babies t
            else foldl (add_baby (pk_pokemon r)) (babies t) groups;
          evolutions := evolutions t;
          pt_evolution_moves := pt_evolution_moves t |};
     item_baby_chains :=
       if have_parent && truthy (pk_baby_item r)
       then item_baby_chains st ∪ {[pk_chain r]}
       else item_baby_chains st;
     fl_pokemon := Some (pk_pokemon r) |}.

(** The body of the loop at lines 344-348. *)
Definition load_evolution_row (t : pokemon_tables) (r : evolution_row)
    : result pokemon_tables :=
  parent ← getitem (evolution_parents t) (ev_child r);
  let evs :=
    <[parent := dd_get ∅ (evolutions t) parent
                ∪ {[(ev_trigger r, ev_move r, ev_level r, ev_child r)]}]>
      (evolutions t) in
  moves ←
    match ev_move r with
    | Some move =>
        if bool_decide (move ≠ 0) then
          chain ← getitem (pt_evolution_chains t) (ev_child r);
          Ok (<[chain := move]> (pt_evolution_moves t))
        else Ok (pt_evolution_moves t)
    | None => Ok (pt_evolution_moves t)
    end;
  Ok {| unbreedable := unbreedable t;
        evolution_parents := evolution_parents t;
        pt_egg_groups := pt_egg_groups t;
        pt_evolution_chains := pt_evolution_chains t;
        pokemon_by_evolution_chain := pokemon_by_evolution_chain t;
        babies := babies t;
        evolutions := evs;
        pt_evolution_moves := moves |}.

(** Reading [d[k]] of a [defaultdict] leaves the default under a key
    that was missing. *)
Definition dd_touch {V} (dflt : V) (d : gmap Z V) (k : Z) : gmap Z V :=
  match d !! k with
  | Some _ => d
  | None => <[k := dflt]> d
  end.

(** The body of [for regular_baby in self.evolutions[item_baby]]
    (lines 364-365); it does not read [regular_baby].  [pokemon] is the
    variable of the loop of line 317. *)
Definition add_item_baby (pokemon : Z) (chain : Z) (t : pokemon_tables)
    : pokemon_tables :=
  let groups_dict := dd_touch [] (pt_egg_groups t) chain in
  {| unbreedable := unbreedable t;
     evolution_parents := evolution_parents t;
     pt_egg_groups := groups_dict;
     pt_evolution_chains := pt_evolution_chains t;
     pokemon_by_evolution_chain := pokemon_by_evolution_chain t;
     babies := foldl (add_baby pokemon) (babies t) (dd_get [] groups_dict chain);
     evolutions := evolutions t;
     pt_evolution_moves := pt_evolution_moves t |}.

(** The body of [for item_baby in ...] (lines 362-365). *)
Definition item_baby_turn (pokemon : Z) (chain : Z) (t : pokemon_tables)
    (item_baby : Z) : pokemon_tables :=
  if bool_decide (item_baby ∉ dom (evolution_parents t)) then
    let evs := dd_touch ∅ (evolutions t) item_baby in
    let t :=
      {| unbreedable := unbreedable t;
         evolution_parents := evolution_parents t;
         pt_egg_groups := pt_egg_groups t;
         pt_evolution_chains := pt_evolution_chains t;
         pokemon_by_evolution_chain := pokemon_by_evolution_chain t;
         babies := babies t;
         evolutions := evs;
         pt_evolution_moves := pt_evolution_moves t |} in
    foldl (λ t _, add_item_baby pokemon chain t) t
      (elements (dd_get ∅ evs item_baby))
  else t.

(** The body of [for item_baby_chain in item_baby_chains]
    (lines 361-365). *)
Definition item_baby_chain_turn (o : iteration_order) (pokemon : Z)
    (t : pokemon_tables) (chain : Z) : pokemon_tables :=
  let by_chain := dd_touch ∅ (pokemon_by_evolution_chain t) chain in
  let t :=
    {| unbreedable := unbreedable t;
       evolution_parents := evolution_parents t;
       pt_egg_groups := pt_egg_groups t;
       pt_evolution_chains := pt_evolution_chains t;
       pokemon_by_evolution_chain := by_chain;
       babies := babies t;
       evolutions := evolutions t;
       pt_evolution_moves := pt_evolution_moves t |} in
  foldl (item_baby_turn pokemon chain) t
    (iter_set o (dd_get ∅ by_chain chain)).

(** [load_pokemon] on the rows the two queries give.  With no row of the
    first query [item_baby_chains] is empty and the last loop has no
    turn, so that line 365 never reads [pokemon] before it is bound. *)
Definition load_pokemon (o : iteration_order)
    (no_eggs_group ditto_group : Z)
    (rows : list pokemon_row) (evolution_rows : list evolution_row)
    : result pokemon_tables :=
  let st :=
    foldl (load_pokemon_row no_eggs_group ditto_group)
      {| fl_tables := pokemon_tables_init; item_baby_chains := ∅;
         fl_pokemon := None |} rows in
  t ← for_each evolution_rows load_evolution_row (fl_tables st);
  match fl_pokemon st with
  | Some pokemon =>
      Ok (foldl (item_baby_chain_turn o pokemon) t
            (iter_set o (item_baby_chains st)))
  | None => Ok t
  end.

(** ** Generic helpers *)

(** [itertools.combinations(s, r)] *)
Fixpoint combinations {A} (s : list A) (r : nat) : list (list A) :=
  match r, s with
  | O, _ => [[]]
  | S _, [] => []
  | S r', x :: s' => map (cons x) (combinations s' r') ++ combinations s' r
  end.

(** [powerset(iterable)], on the list [s = list(iterable)]. *)
Definition powerset {A} (s : list A) : list (list A) :=
  concat (map (combinations s) (seq 0 (S (length s)))).

(** A loop over a state, whose body may run out of recursion budget. *)
Fixpoint for_each_opt {A S} (l : list A) (body : S → A → option S) (st : S)
    : option S :=
  match l with
  | [] => Some st
  | x :: l' =>
      match body st x with
      | Some st' => for_each_opt l' body st'
      | None => None
      end
  end.

(** *** [MovesetSearch.construct_breed_graph] *)

(** Part I (lines 381-409): what can be passed and learned, per egg group. *)
Record breed_pools := {
  eg1_movepools : gmap Z (gset Z);
  eg2_movepools : gmap (list Z) (gset Z);
  learn_pools : gmap Z (gset Z);
  all_groups : gset Z
}.

Definition breed_pools_init : breed_pools :=
  {| eg1_movepools := ∅; eg2_movepools := ∅; learn_pools := ∅;
     all_groups := ∅ |}.

(** The body of [for group in groups] (lines 404-407). *)
Definition add_group (pool learnpool : gset Z) (bp : breed_pools) (group : Z)
    : breed_pools :=
  {| eg1_movepools :=
       <[group := dd_get ∅ (eg1_movepools bp) group ∪ pool]> (eg1_movepools bp);
     eg2_movepools := eg2_movepools bp;
     learn_pools :=
       <[group := dd_get ∅ (learn_pools bp) group ∪ learnpool]> (learn_pools bp);
     all_groups := all_groups bp ∪ {[group]} |}.

(** The body of [for family, groups in self.egg_groups.iteritems()]. *)
Definition add_family (self : MovesetSearch) (bp : breed_pools)
    (item : Z * list Z) : breed_pools :=
  let '(family, groups) := item in
  if bool_decide (groups = []) then bp
  else if bool_decide (Some family = goal_evolution_chain self) then bp
  else
    let pool :=
      if bool_decide (family ∈ smeargle_families self) then goal_moves self
      else dom (dd_get ∅ (movepools self) family) ∩ goal_moves self in
    let learnpool := dd_get ∅ (learnpools self) family ∩ pool in
    let bp := foldl (add_group pool learnpool) bp groups in
    if bool_decide (2 ≤ length groups)%nat then
      {| eg1_movepools := eg1_movepools bp;
         eg2_movepools :=
           <[groups := dd_get ∅ (eg2_movepools bp) groups ∪ pool]>
             (eg2_movepools bp);
         learn_pools := learn_pools bp;
         all_groups := all_groups bp |}
    else bp.

Definition breed_graph_pools (o : iteration_order) (self : MovesetSearch)
    : breed_pools :=
  foldl (add_family self) breed_pools_init (iter_dict o (egg_groups self)).

(** [self.egg_groups[self.goal_evolution_chain]]; [egg_groups] is a
    [defaultdict(tuple)]. *)
Definition goal_egg_groups (self : MovesetSearch) : list Z :=
  match goal_evolution_chain self with
  | Some chain => dd_get [] (egg_groups self) chain
  | None => []
  end.

(** [breeds_required[group].get(moves, 999)] *)
Definition breeds_get (br : gmap Z (gmap (gset Z) Z)) (group : Z)
    (mvs : gset Z) : Z :=
  default 999 (dd_get ∅ br group !! mvs).

(** [breeds_required[group][moves] = v] *)
Definition breeds_set (br : gmap Z (gmap (gset Z) Z)) (group : Z)
    (mvs : gset Z) (v : Z) : gmap Z (gmap (gset Z) Z) :=
  <[group := <[mvs := v]> (dd_get ∅ br group)]> br.

(** The body of [for moves in powerset(...)] (lines 460-461). *)
Definition seed (egg : gset Z) (group : Z) (br : gmap Z (gmap (gset Z) Z))
    (mvs : list Z) : gmap Z (gmap (gset Z) Z) :=
  if bool_decide (mvs ≠ []) then
    breeds_set br group (list_to_set mvs ∪ egg) 1
  else br.

Section BreedGraph.
Variable o : iteration_order.
Variable bp : breed_pools.

(** Part II: the nested function [handle] (lines 427-456).  It returns
    [success] and the updated [breeds_required].  The recursion follows
    [path], which grows by a group not yet on it at every level; [depth]
    bounds the nesting and [None] means the bound was too small. *)
Fixpoint handle (depth : nat) (group : Z) (mvs : gset Z) (path : list Z)
    (br : gmap Z (gmap (gset Z) Z))
    : option (bool * gmap Z (gmap (gset Z) Z)) :=
  match depth with
  | O => None
  | S depth' =>
      if bool_decide (mvs = ∅) then Some (true, br)
      else if bool_decide (breeds_get br group mvs ≤ Z.of_nat (length path)) then
        Some (true, br)
      else
        let path := path ++ [group] in
        for_each_opt
          (iter_set o (all_groups bp ∖ list_to_set path))
          (λ st new_group,
             if bool_decide
                  (mvs ⊆ dd_get ∅ (eg1_movepools bp) new_group)
             then
               for_each_opt
                 (powerset
                    (iter_set o
                       (mvs ∩ dd_get ∅ (learn_pools bp) new_group)))
                 (λ '(success, br) learned,
                    let new_moves := mvs ∖ list_to_set learned in
                    '(local_success, br) ←
                      handle depth' new_group new_moves path br;
                    if local_success : bool then
                      Some (true,
                            breeds_set br group mvs
                              (Z.min (breeds_get br group mvs)
                                     (Z.of_nat (length path) - 1)))
                    else Some (success, br))
                 st
             else Some st)
          (false, br)
  end.

(** The body of [for group in goal_egg_groups] (lines 458-461). *)
Definition seed_group (goal egg : gset Z) (depth : nat)
    (br : gmap Z (gmap (gset Z) Z)) (group : Z)
    : option (gmap Z (gmap (gset Z) Z)) :=
  '(_, br) ← handle depth group goal [] br;
  Some (foldl (seed egg group) br (powerset (iter_set o (goal ∖ egg)))).
End BreedGraph.

(** Enough nesting for [handle]: one level per group, and one for the
    call on an empty set of groups. *)
Definition breed_depth (bp : breed_pools) : nat := S (size (all_groups bp)).

Definition construct_breed_graph (o : iteration_order) (self : MovesetSearch)
    : option MovesetSearch :=
  let bp := breed_graph_pools o self in
  br ← for_each_opt (goal_egg_groups self)
         (seed_group o bp (goal_moves self) (egg_moves self) (breed_depth bp))
         ∅;
  Some (set_breeds_required br self).

Definition set_egg_moves (v : gset Z) (s : MovesetSearch) : MovesetSearch :=
  {| costs := costs s; sketch := sketch s;
     excluded_families := excluded_families s;
     goal_evolution_chain := goal_evolution_chain s;
     goal_moves := goal_moves s; egg_moves := v;
     generation_id_by_version_group := generation_id_by_version_group s;
     egg_groups := egg_groups s; evolution_chains := evolution_chains s;
     evolution_moves := evolution_moves s; pokemon_moves := pokemon_moves s;
     movepools := movepools s; learnpools := learnpools s;
     smeargle_families := smeargle_families s;
     breeds_required := breeds_required s;
     duplicate_versions := duplicate_versions s |}.

(** Lines 103-112 of the constructor: load the goal family, load the
    others when some goal move is hard, then build the breed graph. *)
Definition load_and_breed (o : iteration_order) (self : MovesetSearch)
    (table : list pokemon_move_row) : result (option MovesetSearch) :=
  '(self, (easy_moves, non_egg_moves)) ←
    load_pokemon_moves self table (goal_evolution_chain self) "family";
  let hard_moves := goal_moves self ∖ easy_moves in
  let self := set_egg_moves (goal_moves self ∖ non_egg_moves) self in
  self ← (if bool_decide (hard_moves ≠ ∅) then
            '(self, _) ←
              load_pokemon_moves self table (goal_evolution_chain self)
                "others";
            Ok self
          else Ok self);
  Ok (construct_breed_graph o self).

(** *** [MovesetSearch.__init__], lines 57-120 *)

(** What the constructor reads of the database: the ids [util.get]
    returns for the move Sketch and the egg groups no-eggs and ditto, and
    the rows of the queries of [load_pokemon] and [load_pokemon_moves]. *)
Record database := {
  db_sketch : Z;
  db_no_eggs_group : Z;
  db_ditto_group : Z;
  db_pokemon : list pokemon_row;
  db_evolutions : list evolution_row;
  db_pokemon_moves : list pokemon_move_row
}.

(** [construct_breed_graph] with the budget it never exceeds (see
    [construct_breed_graph_returns]). *)
Definition breed_graph (o : iteration_order) (self : MovesetSearch)
    : MovesetSearch :=
  default self (construct_breed_graph o self).

Section Setup.
Context {Generator : Type}.

(** [load_version_groups] walks the version groups with [a_star], and
    [find_all_paths] is a method of [Node]; both come from the module
    [pokedex.util.astar]. *)
Variable load_version_groups : gmap string Z → Z → list Z → result (gmap Z Z).
Variable find_all_paths : MovesetSearch → Generator.

Variable o : iteration_order.
Variable db : database.

(** The attributes set up to line 101, for the goal chain decided at
    lines 77-83. *)
Definition initial_search (costs : gmap string Z) (t : pokemon_tables)
    (excluded : gset Z) (goal_chain : option Z) (moves : list Z)
    (gens : gmap Z Z) : MovesetSearch :=
  {| costs := costs; sketch := db_sketch db;
     excluded_families := excluded;
     goal_evolution_chain := goal_chain;
     goal_moves := list_to_set moves; egg_moves := ∅;
     generation_id_by_version_group := gens;
     egg_groups := pt_egg_groups t;
     evolution_chains := pt_evolution_chains t;
     evolution_moves := pt_evolution_moves t;
     pokemon_moves := ∅; movepools := ∅; learnpools := ∅;
     smeargle_families := ∅; breeds_required := ∅;
     duplicate_versions := ∅ |}.

(** Lines 88-120. *)
Definition search_for (costs : gmap string Z) (t : pokemon_tables)
    (excluded : gset Z) (goal_chain : option Z) (version : Z)
    (exclude_versions : list Z) (moves : list Z)
    : result (@search_object Generator) :=
  gens ← load_version_groups costs version exclude_versions;
  let self := initial_search costs t excluded goal_chain moves gens in
  '(self, (easy_moves, non_egg_moves)) ←
    load_pokemon_moves self (db_pokemon_moves db) (goal_evolution_chain self)
      "family";
  let hard_moves := goal_moves self ∖ easy_moves in
  let self := set_egg_moves (goal_moves self ∖ non_egg_moves) self in
  self ← (if bool_decide (hard_moves ≠ ∅) then
            '(self, _) ←
              load_pokemon_moves self (db_pokemon_moves db)
                (goal_evolution_chain self) "others";
            Ok self
          else Ok self);
  let self := breed_graph o self in
  self ← find_duplicate_versions o self;
  Ok {| generator := Some (find_all_paths self); error := None;
        state := Some self |}.

(** Lines 57-120.  [pokemon] is the evolution chain of the target, when
    one is given; [exclude_pokemon] holds the evolution chains of the
    excluded pokemon and [exclude_versions] the version groups of the
    excluded versions; [version] is the version group of the version. *)
Definition setup_search (pokemon : option Z) (version : Z)
    (costs : option (gmap string Z))
    (exclude_versions exclude_pokemon : list Z) (moves : list Z)
    : result (@search_object Generator) :=
  let costs := default default_costs costs in
  t ← load_pokemon o (db_no_eggs_group db) (db_ditto_group db)
        (db_pokemon db) (db_evolutions db);
  let excluded : gset Z := list_to_set exclude_pokemon in
  match pokemon with
  | Some chain =>
      if bool_decide (chain ∈ excluded) then
        Ok {| generator := None;
              error := Some (Raise TargetExcluded
                               "The target pokemon was excluded.");
              state := None |}
      else search_for costs t excluded (Some chain) version exclude_versions
             moves
  | None =>
      search_for costs t excluded None version exclude_versions moves
  end.
End Setup.

(** ** Notions used in the statements *)

(** The methods [expand_learn] has a branch for. *)
Definition recognized (method : string) : bool :=
  bool_decide (method ∈ ["level-up"; "machine"; "tutor"; "egg";
                         "light-ball-egg"; "stadium-surfing-pikachu"]).

(** [breeds_required[group][moves]], when defined. *)
Definition breeds_lookup (br : gmap Z (gmap (gset Z) Z)) (group : Z)
    (mvs : gset Z) : option Z :=
  br !! group ≫= λ d, d !! mvs.

(** Only the goal moves can have an entry below 1 in the table. *)
Definition at_least_one (goal : gset Z) (br : gmap Z (gmap (gset Z) Z))
    : Prop :=
  ∀ g k v, breeds_lookup br g k = Some v → 1 ≤ v ∨ k = goal.

(** The value a call returned, if it did not raise. *)
Definition returned {A} (r : result A) : option A :=
  match r with
  | inr a => Some a
  | inl _ => None
  end.

(** [breeds_required[group][moves]] after lines 103-112, when defined. *)
Definition breeds_after (o : iteration_order) (self : MovesetSearch)
    (table : list pokemon_move_row) (group : Z) (mvs : gset Z) : option Z :=
  returned (load_and_breed o self table) ≫= λ built,
  built ≫= λ self, breeds_lookup (breeds_required self) group mvs.

(** [duplicate_versions[pokemon][version_group]] after
    [find_duplicate_versions], when defined. *)
Definition duplicates_after (o : iteration_order) (self : MovesetSearch)
    (p vg : Z) : option (gset Z) :=
  returned (find_duplicate_versions o self) ≫= λ self',
  duplicate_versions self' !! p ≫= λ d, d !! vg.

(** What [find_duplicate_versions] compares of a version group: its
    generation and its mapping. *)
Definition vg_key (gens : gmap Z Z) (item : Z * moves_t)
    : option Z * moves_t :=
  (gens !! item.1, item.2).

(** Positions [i] to [j] of the iteration hold version groups of one
    generation with one mapping. *)
Definition same_run (gens : gmap Z Z) (items : list (Z * moves_t))
    (i j : nat) : Prop :=
  ∀ t, (i ≤ t ≤ j)%nat →
       vg_key gens <$> items !! t = vg_key gens <$> items !! i.

(** The state of the loop of [find_duplicate_versions] once the items
    [pre] are processed. *)
Record dupes_inv (gens : gmap Z Z) (pre : list (Z * moves_t))
    (st : dupes_state) : Prop := {
  inv_dom : ∀ v, is_Some (dupes st !! v) ↔ v ∈ pre.*1;
  inv_bound : ∀ v a, dupes st !! v = Some a → (a < length (store st))%nat;
  inv_store : ∀ a X, store st !! a = Some X →
                     ∀ v, v ∈ X ↔ dupes st !! v = Some a;
  inv_runs : ∀ i j vi mi vj mj,
      (i ≤ j)%nat → pre !! i = Some (vi, mi) → pre !! j = Some (vj, mj) →
      (dupes st !! vi = dupes st !! vj ↔ same_run gens pre i j);
  inv_last :
    (pre = [] ∧ last st = None ∧ last_gen st = None ∧ last_moves st = None) ∨
    (∃ pre0 v m g a,
        pre = pre0 ++ [(v, m)] ∧ gens !! v = Some g ∧
        last_gen st = Some g ∧ last_moves st = Some m ∧
        last st = Some a ∧ dupes st !! v = Some a)
}.




(** What a learn transition can name as its method. *)
Definition learn_methods : list string :=
  ["level-up"; "relearn"; "machine"; "tutor"; "light-ball-egg";
   "stadium-surfing-pikachu"].

(** The state left by forgetting [move]. *)
Definition forgotten (n : PokemonNode) (move : Z) : PokemonNode :=
  {| search := search n; pokemon := pokemon n; level := level n;
     version_group := version_group n; moves := moves n ∖ {[move]};
     new_level := false |}.

(** The start state of creature [p] in version group [vg]. *)
Definition start_node (s : MovesetSearch) (p vg : Z) : PokemonNode :=
  {| search := s; pokemon := p; level := 0; version_group := vg;
     moves := ∅; new_level := false |}.

(** [any(search.breeds_required[group] for group in egg_groups)] for the
    family of a creature. *)
Definition worth_breeding (s : MovesetSearch) (chain : Z) : Prop :=
  ∃ group, group ∈ dd_get [] (egg_groups s) chain ∧
           dd_get ∅ (breeds_required s) group ≠ ∅.

(** [pokemon_moves[pokemon][vg][move][method]], the list of
    [(level, cost)]; every level is a [defaultdict]. *)
Definition records_of (pm : gmap Z (gmap Z moves_t)) (p vg move : Z)
    (method : string) : list (Z * Z) :=
  dd_get [] (dd_get ∅ (dd_get ∅ (dd_get ∅ pm p) vg) move) method.

(** What a call leaves as it was: the request and the tables read. *)
Definition same_request (s s' : MovesetSearch) : Prop :=
  costs s' = costs s ∧ sketch s' = sketch s ∧
  excluded_families s' = excluded_families s ∧
  goal_evolution_chain s' = goal_evolution_chain s ∧
  goal_moves s' = goal_moves s ∧ egg_moves s' = egg_moves s ∧
  generation_id_by_version_group s' = generation_id_by_version_group s ∧
  egg_groups s' = egg_groups s ∧
  evolution_chains s' = evolution_chains s ∧
  evolution_moves s' = evolution_moves s ∧
  breeds_required s' = breeds_required s ∧
  duplicate_versions s' = duplicate_versions s.

(** The cost recorded for a row of the query (lines 213-243); [None] when
    the row is skipped by [continue] or the lookup of the cost raises. *)
Definition row_cost (self : MovesetSearch) (sketch_cost : Z)
    (r : pokemon_move_row) : option Z :=
  if bool_decide (row_move r ∈ goal_moves self) then
    returned (goal_move_cost self (row_version_group r) (row_method r))
  else if bool_decide (row_move r = sketch self) then Some sketch_cost
  else
    chain ← evolution_chains self !! row_pokemon r;
    if bool_decide (evolution_moves self !! chain = Some (row_move r))
    then Some 1 else None.

(** The record a row adds under the key [(p, vg, move, method)]. *)
Definition row_record (self : MovesetSearch) (sketch_cost : Z)
    (p vg move : Z) (method : string) (r : pokemon_move_row)
    : option (Z * Z) :=
  if bool_decide (row_pokemon r = p ∧ row_version_group r = vg ∧
                  row_move r = move ∧ row_method r = method)
  then (λ c, (row_level r, c)) <$> row_cost self sketch_cost r
  else None.

(** The state of the loop of [load_pokemon_moves] once the rows [pre] are
    processed, for the object [self0] the loop started from, the cost
    [bc] of breeding and the cost [sc] of Sketch. *)
Record load_inv (self0 : MovesetSearch) (bc sc : Z)
    (pre : list pokemon_move_row) (st : load_state) : Prop := {
  li_request : same_request self0 (ls_self st);
  li_records : ∀ p vg move method,
    records_of (pokemon_moves (ls_self st)) p vg move method
    = records_of (pokemon_moves self0) p vg move method
      ++ omap (row_record self0 sc p vg move method) pre;
  li_non_egg : ∀ m, m ∈ non_egg_moves st ↔
    ∃ r, r ∈ pre ∧ row_move r = m ∧ m ∈ goal_moves self0 ∧
         row_method r ≠ "egg";
  li_easy : ∀ m, m ∈ easy_moves st ↔
    ∃ r, r ∈ pre ∧ row_move r = m ∧ m ∈ goal_moves self0 ∧
         row_method r ≠ "egg" ∧
         ∃ cost, goal_move_cost self0 (row_version_group r) (row_method r)
                 = Ok cost ∧ cost < bc;
  li_smeargle : ∀ f, f ∈ smeargle_families (ls_self st) ↔
    f ∈ smeargle_families self0 ∨
    ∃ r, r ∈ pre ∧ (row_move r ∉ goal_moves self0) ∧
         row_move r = sketch self0 ∧
         evolution_chains self0 !! row_pokemon r = Some f;
  li_learnpools : ∀ chain m,
    m ∈ dd_get ∅ (learnpools (ls_self st)) chain ↔
    m ∈ dd_get ∅ (learnpools self0) chain ∨
    ∃ r, r ∈ pre ∧ row_chain r = chain ∧ row_move r = m ∧
         m ∈ goal_moves self0 ∧ row_method r ≠ "egg";
  li_pool_lower : ∀ chain m c0,
    dd_get ∅ (movepools self0) chain !! m = Some c0 →
    ∃ c, dd_get ∅ (movepools (ls_self st)) chain !! m = Some c ∧ c ≤ c0;
  li_pool_rows : ∀ r, r ∈ pre → row_move r ∈ goal_moves self0 →
    ∃ c cost,
      goal_move_cost self0 (row_version_group r) (row_method r) = Ok cost ∧
      dd_get ∅ (movepools (ls_self st)) (row_chain r) !! row_move r = Some c ∧
      c ≤ cost;
  li_pool_attained : ∀ chain m c,
    dd_get ∅ (movepools (ls_self st)) chain !! m = Some c →
    dd_get ∅ (movepools self0) chain !! m = Some c ∨
    ∃ r, r ∈ pre ∧ row_chain r = chain ∧ row_move r = m ∧
         m ∈ goal_moves self0 ∧
         goal_move_cost self0 (row_version_group r) (row_method r) = Ok c;
  li_creatures : ∀ p, is_Some (pokemon_moves (ls_self st) !! p) →
    is_Some (pokemon_moves self0 !! p) ∨ ∃ r, r ∈ pre ∧ row_pokemon r = p
}.

(** [movepools[chain][move]], when defined. *)
Definition pool_cost (s : MovesetSearch) (chain move : Z) : option Z :=
  dd_get ∅ (movepools s) chain !! move.





(** An entry of the table stays, and does not grow. *)
Definition entries_lowered (br br' : gmap Z (gmap (gset Z) Z)) : Prop :=
  ∀ g k v, breeds_lookup br g k = Some v →
           ∃ v', breeds_lookup br' g k = Some v' ∧ v' ≤ v.

(** The calls of [handle] made for a goal group [root ∈ roots]: the path
    and the group are distinct groups, all but the first from
    [all_groups], and the moves are goal moves. *)
Definition breed_call (bp : breed_pools) (roots : list Z) (goal : gset Z)
    (group : Z) (mvs : gset Z) (path : list Z) : Prop :=
  mvs ⊆ goal ∧ NoDup (path ++ [group]) ∧
  ∃ root rest, path ++ [group] = root :: rest ∧ root ∈ roots ∧
               ∀ x, x ∈ rest → x ∈ all_groups bp.

(** What every entry of the table satisfies. *)
Definition entries_bounded (bp : breed_pools) (roots : list Z)
    (goal : gset Z) (br : gmap Z (gmap (gset Z) Z)) : Prop :=
  ∀ g k v, breeds_lookup br g k = Some v →
    k ≠ ∅ ∧ k ⊆ goal ∧
    0 ≤ v ≤ Z.max 1 (Z.of_nat (size (all_groups bp))) ∧
    (g ∈ roots ∨ g ∈ all_groups bp).

(** [g1 in bad_groups] *)
Definition in_bad_group (no_eggs_group ditto_group : Z) (r : pokemon_row)
    : Prop :=
  pk_g1 r = no_eggs_group ∨ pk_g1 r = ditto_group.

(** The locals of the first loop of [load_pokemon] once the rows [pre]
    are processed. *)
Record first_loop_inv (no_eggs ditto : Z) (pre : list pokemon_row)
    (st : first_loop) : Prop := {
  fi_chains_dom : ∀ r, r ∈ pre →
    is_Some (pt_evolution_chains (fl_tables st) !! pk_pokemon r);
  fi_chains : ∀ p c, pt_evolution_chains (fl_tables st) !! p = Some c →
    ∃ r, r ∈ pre ∧ pk_pokemon r = p ∧ pk_chain r = c;
  fi_by_chain : ∀ c p,
    p ∈ dd_get ∅ (pokemon_by_evolution_chain (fl_tables st)) c ↔
    ∃ r, r ∈ pre ∧ pk_pokemon r = p ∧ pk_chain r = c;
  fi_parents : ∀ p, is_Some (evolution_parents (fl_tables st) !! p) ↔
    ∃ r, r ∈ pre ∧ pk_pokemon r = p ∧ truthy (pk_parent r) = true;
  fi_unbreedable : ∀ p, p ∈ unbreedable (fl_tables st) ↔
    ∃ r, r ∈ pre ∧ pk_pokemon r = p ∧ in_bad_group no_eggs ditto r;
  fi_groups_some : ∀ c gs, pt_egg_groups (fl_tables st) !! c = Some gs →
    ∃ r, r ∈ pre ∧ pk_chain r = c ∧ ¬ in_bad_group no_eggs ditto r ∧
         row_groups r = gs;
  fi_groups_max : ∀ r, r ∈ pre → ¬ in_bad_group no_eggs ditto r →
    ∃ gs, pt_egg_groups (fl_tables st) !! pk_chain r = Some gs ∧
          (length (row_groups r) ≤ length gs)%nat;
  fi_babies : ∀ g p, p ∈ dd_get ∅ (babies (fl_tables st)) g ↔
    ∃ r, r ∈ pre ∧ pk_pokemon r = p ∧ truthy (pk_parent r) = false ∧
         g ∈ row_groups r;
  fi_item : ∀ c, c ∈ item_baby_chains st ↔
    ∃ r, r ∈ pre ∧ pk_chain r = c ∧ truthy (pk_parent r) = true ∧
         truthy (pk_baby_item r) = true;
  fi_pokemon : fl_pokemon st = pk_pokemon <$> list.last pre
}.

(** The tables after the loop of lines 344-348. *)
Record evolutions_loaded (t t' : pokemon_tables) : Prop := {
  el_unbreedable : unbreedable t' = unbreedable t;
  el_parents : evolution_parents t' = evolution_parents t;
  el_groups : pt_egg_groups t' = pt_egg_groups t;
  el_chains : pt_evolution_chains t' = pt_evolution_chains t;
  el_by_chain : pokemon_by_evolution_chain t' = pokemon_by_evolution_chain t;
  el_babies : babies t' = babies t
}.

(** What the loop for item babies (lines 360-365) may change: it leaves
    defaults under missing keys and adds [pokemon] to [babies]. *)
Record item_babies_added (pokemon : Z) (t t' : pokemon_tables) : Prop := {
  ib_unbreedable : unbreedable t' = unbreedable t;
  ib_parents : evolution_parents t' = evolution_parents t;
  ib_chains : pt_evolution_chains t' = pt_evolution_chains t;
  ib_moves : pt_evolution_moves t' = pt_evolution_moves t;
  ib_groups : ∀ c, dd_get [] (pt_egg_groups t') c = dd_get [] (pt_egg_groups t) c;
  ib_by_chain : ∀ c, dd_get ∅ (pokemon_by_evolution_chain t') c
                     = dd_get ∅ (pokemon_by_evolution_chain t) c;
  ib_evolutions : ∀ k, dd_get ∅ (evolutions t') k = dd_get ∅ (evolutions t) k;
  ib_babies : ∀ g, dd_get ∅ (babies t) g ⊆ dd_get ∅ (babies t') g ∧
                   dd_get ∅ (babies t') g ⊆ dd_get ∅ (babies t) g ∪ {[pokemon]}
}.

(** The creature has a row with a parent in the first query. *)
Definition has_parent (rows : list pokemon_row) (p : Z) : Prop :=
  ∃ r, r ∈ rows ∧ pk_pokemon r = p ∧ truthy (pk_parent r) = true.

#[local] Instance has_parent_dec rows p : Decision (has_parent rows p).
Proof.
  destruct (decide (Exists (λ r, pk_pokemon r = p ∧ truthy (pk_parent r) = true)
                      rows)) as [H | H].
  - left. apply Exists_exists in H as (r & ? & ? & ?). by exists r.
  - right. intros (r & ? & ? & ?). apply H, Exists_exists. by exists r.
Defined.

(** ** Sample data *)

(** Creature 25 of family 10 and egg group 5; in version group 1 it learns
    move 85 by level-up at levels 1 and 26 and move 86 from a machine. *)
Definition sample_moves : moves_t :=
  list_to_map [
    (85, list_to_map [("level-up", [(1, 20); (26, 20)])]);
    (86, list_to_map [("machine", [(0, 2000)])])
  ].

Definition sample_search : MovesetSearch :=
  {| costs := default_costs; sketch := 166; excluded_families := ∅;
     goal_evolution_chain := Some 10; goal_moves := {[85; 86]};
     egg_moves := ∅;
     generation_id_by_version_group := list_to_map [(1, 3); (2, 3); (8, 4)];
     egg_groups := {[10 := [5]]};
     evolution_chains := {[25 := 10]}; evolution_moves := ∅;
     pokemon_moves := {[25 := {[1 := sample_moves]}]};
     movepools := {[10 := list_to_map [(85, 20); (86, 2000)]]};
     learnpools := {[10 := {[85; 86]}]}; smeargle_families := ∅;
     breeds_required := {[5 := {[({[85; 86]} : gset Z) := 1]}]};
     duplicate_versions := ∅ |}.

Definition sample_node (lvl : Z) (known : gset Z) (fresh : bool)
    : PokemonNode :=
  {| search := sample_search; pokemon := 25; level := lvl;
     version_group := 1; moves := known; new_level := fresh |}.

(** A creature of another family (chain 20) that learns goal move 85 by
    level-up. *)
Definition others_table : list pokemon_move_row :=
  [ {| row_pokemon := 35; row_move := 85; row_version_group := 1;
       row_method := "level-up"; row_level := 5; row_chain := 20 |} ].

(** Goal family 100 (egg group 1) gets moves 10 and 20 as egg moves only.
    Family 101 (egg group 2) has both as egg moves; family 102 (egg group
    3) has 10 as an egg move and learns 20 by level-up; family 103 (egg
    group 4) learns both by level-up. *)
Definition breed_table : list pokemon_move_row :=
  [ {| row_pokemon := 1000; row_move := 10; row_version_group := 1;
       row_method := "egg"; row_level := 0; row_chain := 100 |};
    {| row_pokemon := 1000; row_move := 20; row_version_group := 1;
       row_method := "egg"; row_level := 0; row_chain := 100 |};
    {| row_pokemon := 1010; row_move := 10; row_version_group := 1;
       row_method := "egg"; row_level := 0; row_chain := 101 |};
    {| row_pokemon := 1010; row_move := 20; row_version_group := 1;
       row_method := "egg"; row_level := 0; row_chain := 101 |};
    {| row_pokemon := 1020; row_move := 10; row_version_group := 1;
       row_method := "egg"; row_level := 0; row_chain := 102 |};
    {| row_pokemon := 1020; row_move := 20; row_version_group := 1;
       row_method := "level-up"; row_level := 7; row_chain := 102 |};
    {| row_pokemon := 1030; row_move := 10; row_version_group := 1;
       row_method := "level-up"; row_level := 5; row_chain := 103 |};
    {| row_pokemon := 1030; row_move := 20; row_version_group := 1;
       row_method := "level-up"; row_level := 9; row_chain := 103 |} ].

Definition breed_request : MovesetSearch :=
  {| costs := default_costs; sketch := 166; excluded_families := ∅;
     goal_evolution_chain := Some 100; goal_moves := {[10; 20]};
     egg_moves := ∅;
     generation_id_by_version_group := {[1 := 5]};
     egg_groups :=
       list_to_map [(100, [1]); (101, [2]); (102, [3]); (103, [4])];
     evolution_chains :=
       list_to_map [(1000, 100); (1010, 101); (1020, 102); (1030, 103)];
     evolution_moves := ∅; pokemon_moves := ∅; movepools := ∅;
     learnpools := ∅; smeargle_families := ∅; breeds_required := ∅;
     duplicate_versions := ∅ |}.

Definition unknown_method_search : MovesetSearch :=
  set_pokemon_moves
    {[25 := {[1 := {[85 := {["form-change" := [(0, 100)]]}]}]}]}
    sample_search.

Definition unknown_method_node (known : gset Z) : PokemonNode :=
  {| search := unknown_method_search; pokemon := 25; level := 0;
     version_group := 1; moves := known; new_level := false |}.

(** Goal family 10 (egg group 5) and family 11 (egg group 6) both learn the
    goal moves 85 and 86 without breeding. *)
Definition overwrite_search : MovesetSearch :=
  {| costs := default_costs; sketch := 166; excluded_families := ∅;
     goal_evolution_chain := Some 10; goal_moves := {[85; 86]};
     egg_moves := ∅;
     generation_id_by_version_group := {[1 := 5]};
     egg_groups := list_to_map [(10, [5]); (11, [6])];
     evolution_chains := list_to_map [(25, 10); (35, 11)];
     evolution_moves := ∅; pokemon_moves := ∅;
     movepools :=
       list_to_map [(10, list_to_map [(85, 20); (86, 40)]);
                    (11, list_to_map [(85, 20); (86, 40)])];
     learnpools := list_to_map [(10, {[85; 86]}); (11, {[85; 86]})];
     smeargle_families := ∅; breeds_required := ∅;
     duplicate_versions := ∅ |}.

(** Creature 25 learns the same moves in version groups 1 and 3 and
    others in version group 2; the three are of generation 3. *)
Definition dupes_vg_moves : gmap Z moves_t :=
  <[1 := sample_moves]>
    (<[2 := {[85 := {["machine" := [(0, 2000)]]}]}]>
       (<[3 := sample_moves]> ∅)).

Definition dupes_search : MovesetSearch :=
  {| costs := default_costs; sketch := 166; excluded_families := ∅;
     goal_evolution_chain := Some 10; goal_moves := {[85; 86]};
     egg_moves := ∅;
     generation_id_by_version_group := list_to_map [(1, 3); (2, 3); (3, 3)];
     egg_groups := {[10 := [5]]};
     evolution_chains := {[25 := 10]}; evolution_moves := ∅;
     pokemon_moves := {[25 := dupes_vg_moves]};
     movepools := {[10 := list_to_map [(85, 20); (86, 2000)]]};
     learnpools := {[10 := {[85; 86]}]}; smeargle_families := ∅;
     breeds_required := ∅; duplicate_versions := ∅ |}.

(** Creature 99 has loaded moves and no evolution chain. *)
Definition orphan_search : MovesetSearch :=
  set_pokemon_moves {[99 := {[1 := sample_moves]}]} sample_search.

(** Creature 25 has moves in version group 7, which has no generation. *)
Definition unknown_generation_search : MovesetSearch :=
  set_pokemon_moves {[25 := {[7 := sample_moves]}]} sample_search.

(** A request without a target pokemon. *)
Definition no_target_search : MovesetSearch :=
  {| costs := default_costs; sketch := 166; excluded_families := ∅;
     goal_evolution_chain := None; goal_moves := {[85; 86]};
     egg_moves := ∅;
     generation_id_by_version_group := {[1 := 5]};
     egg_groups := list_to_map [(10, [5]); (11, [6])];
     evolution_chains := list_to_map [(25, 10); (35, 11)];
     evolution_moves := ∅;
     pokemon_moves := {[25 := {[1 := sample_moves]}]};
     movepools :=
       list_to_map [(10, list_to_map [(85, 20); (86, 40)]);
                    (11, list_to_map [(85, 20); (86, 40)])];
     learnpools := list_to_map [(10, {[85; 86]}); (11, {[85; 86]})];
     smeargle_families := ∅; breeds_required := ∅;
     duplicate_versions := ∅ |}.

(** Creature 25 of the goal family (chain 10) learns goal move 85 by
    level-up and goal move 86 from a machine; creature 35 of chain 11
    learns 85 by level-up. *)
Definition family_table : list pokemon_move_row :=
  [ {| row_pokemon := 25; row_move := 86; row_version_group := 1;
       row_method := "machine"; row_level := 0; row_chain := 10 |};
    {| row_pokemon := 25; row_move := 85; row_version_group := 1;
       row_method := "level-up"; row_level := 26; row_chain := 10 |};
    {| row_pokemon := 25; row_move := 85; row_version_group := 1;
       row_method := "level-up"; row_level := 1; row_chain := 10 |};
    {| row_pokemon := 35; row_move := 85; row_version_group := 1;
       row_method := "level-up"; row_level := 5; row_chain := 11 |} ].

(** A request like [overwrite_search], with nothing loaded yet. *)
Definition family_request : MovesetSearch :=
  {| costs := default_costs; sketch := 166; excluded_families := ∅;
     goal_evolution_chain := Some 10; goal_moves := {[85; 86]};
     egg_moves := ∅;
     generation_id_by_version_group := {[1 := 5]};
     egg_groups := list_to_map [(10, [5]); (11, [6])];
     evolution_chains := list_to_map [(25, 10); (35, 11)];
     evolution_moves := ∅; pokemon_moves := ∅; movepools := ∅;
     learnpools := ∅; smeargle_families := ∅; breeds_required := ∅;
     duplicate_versions := ∅ |}.

(** The pools of [overwrite_search] and a table that already asks three
    breeds of egg group 5 for the goal moves. *)
Definition overwrite_pools : breed_pools :=
  breed_graph_pools ascending overwrite_search.

Definition three_breeds : gmap Z (gmap (gset Z) Z) :=
  breeds_set ∅ 5 {[85; 86]} 3.

(** Pichu (172) is in the no-eggs group 15 and evolves into Pikachu (25),
    which is in the egg groups 5 and 6, as is Raichu (26), which Pikachu
    evolves into; the chain has no baby-trigger item.  A creature with two
    egg groups has two rows. *)
Definition sample_pokemon_rows : list pokemon_row :=
  [ {| pk_pokemon := 172; pk_chain := 10; pk_parent := None; pk_g1 := 15;
       pk_g2 := None; pk_baby_item := None |};
    {| pk_pokemon := 25; pk_chain := 10; pk_parent := Some 172; pk_g1 := 5;
       pk_g2 := Some 6; pk_baby_item := None |};
    {| pk_pokemon := 25; pk_chain := 10; pk_parent := Some 172; pk_g1 := 6;
       pk_g2 := None; pk_baby_item := None |};
    {| pk_pokemon := 26; pk_chain := 10; pk_parent := Some 25; pk_g1 := 5;
       pk_g2 := Some 6; pk_baby_item := None |};
    {| pk_pokemon := 26; pk_chain := 10; pk_parent := Some 25; pk_g1 := 6;
       pk_g2 := None; pk_baby_item := None |} ].

Definition sample_evolution_rows : list evolution_row :=
  [ {| ev_child := 25; ev_trigger := "level-up"; ev_move := None;
       ev_level := None |};
    {| ev_child := 26; ev_trigger := "use-item"; ev_move := None;
       ev_level := None |} ].

Definition sample_db : database :=
  {| db_sketch := 166; db_no_eggs_group := 15; db_ditto_group := 13;
     db_pokemon := sample_pokemon_rows;
     db_evolutions := sample_evolution_rows;
     db_pokemon_moves := family_table |}.

(** * Properties *)

(** ** Generators *)

Lemma gen_for_elem {A B} (l : list A) (body : A → gen B) (y : B) :
  y ∈ (gen_for l body).1 → ∃ x, x ∈ l ∧ y ∈ (body x).1.
Proof.
  induction l as [|x l IH]; simpl.
  - intros Hy. by apply elem_of_nil in Hy.
  - unfold gen_seq. destruct (body x) as [ys [e|]] eqn:Hx; simpl.
    + intros Hy. exists x. rewrite Hx. split; [left | done].
    + rewrite elem_of_app. intros [Hy | Hy].
      * exists x. rewrite Hx. split; [left | done].
      * destruct (IH Hy) as (x' & Hin & Hy'). exists x'. split; [by right | done].
Qed.

Lemma gen_for_Forall {A B} (P : B → Prop) (l : list A) (body : A → gen B) :
  (∀ x, x ∈ l → Forall P (body x).1) → Forall P (gen_for l body).1.
Proof.
  intros H. apply Forall_forall. intros y Hy.
  destruct (gen_for_elem _ _ _ Hy) as (x & Hin & Hy').
  specialize (H x Hin). rewrite Forall_forall in H. by apply H.
Qed.

(** A loop that ends without an exception ran every body to its end. *)
Lemma gen_for_complete {A B} (l : list A) (body : A → gen B) (x : A) :
  (gen_for l body).2 = None → x ∈ l →
  (body x).2 = None ∧ ∀ y, y ∈ (body x).1 → y ∈ (gen_for l body).1.
Proof.
  induction l as [|x0 l IH]; simpl; intros Hnone Hin.
  - by apply elem_of_nil in Hin.
  - unfold gen_seq in *. destruct (body x0) as [ys [e|]] eqn:Hx0; simpl in *.
    + discriminate.
    + apply elem_of_cons in Hin as [-> | Hin].
      * rewrite Hx0. split; [done |]. simpl. intros y Hy.
        apply elem_of_app. by left.
      * destruct (IH Hnone Hin) as [Hb Hys]. split; [done |].
        intros y Hy. apply elem_of_app. right. by apply Hys.
Qed.

(** An exception that escapes a loop escaped one of its bodies. *)
Lemma gen_for_raised {A B} (l : list A) (body : A → gen B) (e : exn) :
  (gen_for l body).2 = Some e → ∃ x, x ∈ l ∧ (body x).2 = Some e.
Proof.
  induction l as [|x0 l IH]; simpl; intros He.
  - discriminate.
  - unfold gen_seq in *. destruct (body x0) as [ys [e0|]] eqn:Hx0; simpl in *.
    + exists x0. rewrite Hx0. split; [left | done].
    + destruct (IH He) as (x & Hin & Hx). exists x. split; [by right | done].
Qed.

(** A body that raises makes the loop raise, there or earlier. *)
Lemma gen_for_raises {A B} (l : list A) (body : A → gen B) (x : A) :
  x ∈ l → is_Some (body x).2 → is_Some (gen_for l body).2.
Proof.
  induction l as [|x0 l IH]; simpl; intros Hin Hx.
  - by apply elem_of_nil in Hin.
  - unfold gen_seq. destruct (body x0) as [ys [e0|]] eqn:Hx0; simpl.
    + by eexists.
    + apply elem_of_cons in Hin as [-> | Hin].
      * rewrite Hx0 in Hx. simpl in Hx. by destruct Hx.
      * by apply IH.
Qed.

Lemma iter_dict_elem {V} (o : iteration_order) (m : gmap Z V) k v :
  (k, v) ∈ iter_dict o m ↔ m !! k = Some v.
Proof. rewrite (iter_dict_perm o). apply elem_of_map_to_list. Qed.

Lemma iter_sdict_elem {V} (o : iteration_order) (m : gmap string V) k v :
  (k, v) ∈ iter_sdict o m ↔ m !! k = Some v.
Proof. rewrite (iter_sdict_perm o). apply elem_of_map_to_list. Qed.

Lemma iter_set_elem (o : iteration_order) (X : gset Z) x :
  x ∈ iter_set o X ↔ x ∈ X.
Proof. rewrite (iter_set_perm o). apply elem_of_elements. Qed.

(** ** Shape of the transitions *)

Lemma learn_level_up_shape self move r t :
  t ∈ (learn_level_up self move r).1 →
  ∃ method cost lv nl, t = _learn self move method cost lv nl.
Proof.
  destruct r as [lvl cost]. unfold learn_level_up, gen_try, cost_of.
  destruct (_ || _).
  - destruct (costs (search self) !! "per-level"); simpl; intros Ht.
    + apply list_elem_of_singleton in Ht. eauto.
    + by apply elem_of_nil in Ht.
  - destruct (costs (search self) !! "relearn"); simpl; intros Ht.
    + apply list_elem_of_singleton in Ht. eauto.
    + by apply elem_of_nil in Ht.
Qed.

Lemma learn_by_method_shape self move method lc t :
  t ∈ (learn_by_method self move method lc).1 →
  ∃ method' cost lv nl, t = _learn self move method' cost lv nl.
Proof.
  assert (∀ kl kn,
            t ∈ (gen_for lc (λ '(_, cost),
                   gen_yield (_learn self move method cost kl kn))).1 →
            ∃ method' cost lv nl, t = _learn self move method' cost lv nl)
    as Hfixed.
  { intros kl kn Ht. apply gen_for_elem in Ht as ([lv c] & _ & Ht).
    apply list_elem_of_singleton in Ht. eauto. }
  unfold learn_by_method. intros Ht.
  repeat case_bool_decide; eauto.
  - apply gen_for_elem in Ht as (r & _ & Ht).
    by eapply learn_level_up_shape.
  - by apply elem_of_nil in Ht.
  - by apply elem_of_nil in Ht.
  - by apply elem_of_nil in Ht.
Qed.

Lemma expand_learn_from_shape o self data t :
  t ∈ (expand_learn_from o self data).1 →
  ∃ move method cost lv nl,
    (move ∉ moves self) ∧ is_Some (data !! move) ∧
    t = _learn self move method cost lv nl.
Proof.
  unfold expand_learn_from. intros Ht.
  apply gen_for_elem in Ht as ([move methods] & Hin & Ht).
  apply iter_dict_elem in Hin.
  case_bool_decide as Hknown; simpl in Ht.
  - by apply elem_of_nil in Ht.
  - apply gen_for_elem in Ht as ([method lc] & _ & Ht).
    apply learn_by_method_shape in Ht as (method' & cost & lv & nl & ->).
    exists move, method', cost, lv, nl. eauto.
Qed.

Lemma expand_forget_shape o self t :
  t ∈ (expand_forget o self).1 →
  ∃ move cost,
    move ∈ moves self ∧
    t = (cost, ForgetAction move,
         {| search := search self; pokemon := pokemon self;
            level := level self; version_group := version_group self;
            moves := moves self ∖ {[move]}; new_level := false |}).
Proof.
  unfold expand_forget, gen_try, cost_of.
  destruct (costs (search self) !! "forget") as [cost|]; simpl; intros Ht.
  - apply gen_for_elem in Ht as (move & Hin & Ht).
    apply iter_set_elem in Hin. simpl in Ht.
    apply list_elem_of_singleton in Ht. eauto.
  - by apply elem_of_nil in Ht.
Qed.

Lemma expand_learn_all_learn o self :
  Forall (λ t, is_learn t = true) (expand_learn o self).1.
Proof.
  apply Forall_forall. intros t Ht.
  apply expand_learn_from_shape in Ht as (? & ? & ? & ? & ? & _ & _ & ->).
  done.
Qed.

Lemma expand_forget_all_forget o self :
  Forall (λ t, is_forget t = true) (expand_forget o self).1.
Proof.
  apply Forall_forall. intros t Ht.
  apply expand_forget_shape in Ht as (? & ? & _ & ->). done.
Qed.

Lemma learn_not_forget t : is_learn t = true → is_forget t = true → False.
Proof. destruct t as [[c a] n]. by destruct a. Qed.

(** ** Expansion policy *)

(** C1.  Expansion is gated by the number of known moves alone: with fewer
    than four known moves (none included) [expand] is [expand_learn] and
    yields only Learn transitions, with exactly four it is [expand_forget]
    and yields only Forget transitions; no state yields both kinds. *)
Theorem expand_gated_by_move_count (o : iteration_order) (n : PokemonNode) :
  ((size (moves n) < 4)%nat →
     expand o n = expand_learn o n ∧
     Forall (λ t, is_learn t = true) (expand o n).1) ∧
  (size (moves n) = 4%nat →
     expand o n = expand_forget o n ∧
     Forall (λ t, is_forget t = true) (expand o n).1) ∧
  ¬ (∃ t1 t2, t1 ∈ (expand o n).1 ∧ t2 ∈ (expand o n).1 ∧
              is_learn t1 = true ∧ is_forget t2 = true).
Proof.
  split; [| split].
  - intros Hlt. assert (expand o n = expand_learn o n) as ->.
    { unfold expand. case_bool_decide; [done |]. by rewrite bool_decide_true. }
    split; [done | apply expand_learn_all_learn].
  - intros H4. assert (expand o n = expand_forget o n) as ->.
    { unfold expand. rewrite bool_decide_false.
      - rewrite bool_decide_false; [done | lia].
      - intros Hempty. rewrite Hempty, size_empty in H4. lia. }
    split; [done | apply expand_forget_all_forget].
  - intros (t1 & t2 & H1 & H2 & Hl & Hf). unfold expand in H1, H2.
    pose proof (expand_learn_all_learn o n) as HL.
    pose proof (expand_forget_all_forget o n) as HF.
    rewrite Forall_forall in HL, HF.
    repeat case_bool_decide;
      first [ apply (learn_not_forget t2); by auto
            | apply (learn_not_forget t1); by auto ].
Qed.

Lemma expand_gated_by_move_count_witness :
  ((size (moves (sample_node 0 ∅ false)) < 4)%nat ∧
   Forall (λ t, is_learn t = true)
     (expand ascending (sample_node 0 ∅ false)).1) ∧
  (size (moves (sample_node 30 {[1; 2; 85; 86]} false)) = 4%nat ∧
   Forall (λ t, is_forget t = true)
     (expand ascending (sample_node 30 {[1; 2; 85; 86]} false)).1).
Proof.
  split.
  - assert (size (moves (sample_node 0 ∅ false)) < 4)%nat as H
      by (vm_compute; lia).
    split; [exact H |].
    exact (proj2 (proj1 (expand_gated_by_move_count ascending _) H)).
  - assert (size (moves (sample_node 30 {[1; 2; 85; 86]} false)) = 4%nat)
      as H by (vm_compute; reflexivity).
    split; [exact H |].
    exact (proj2
             (proj1 (proj2 (expand_gated_by_move_count ascending _)) H)).
Defined.

Lemma expand_gated_by_learn o n :
  (size (moves n) < 4)%nat → expand o n = expand_learn o n.
Proof.
  intros Hlt. unfold expand. case_bool_decide; [done |].
  by rewrite bool_decide_true.
Qed.

(** ** Known moves along the search *)

Lemma expand_cases o n :
  (expand o n = expand_learn o n ∧ (size (moves n) < 4)%nat) ∨
  expand o n = expand_forget o n.
Proof.
  unfold expand. case_bool_decide as Hempty.
  - left. rewrite Hempty, size_empty. split; [done | lia].
  - case_bool_decide; [by left | by right].
Qed.

(** Every transition adds one unknown move or removes one known move. *)
Lemma expand_changes_one_move o n c a n' :
  (c, a, n') ∈ (expand o n).1 →
  (∃ move method, a = LearnAction move method ∧ (move ∉ moves n) ∧
                  moves n' = moves n ∪ {[move]}) ∨
  (∃ move, a = ForgetAction move ∧ move ∈ moves n ∧
           moves n' = moves n ∖ {[move]}).
Proof.
  intros Ht. destruct (expand_cases o n) as [[Heq _] | Heq]; rewrite Heq in Ht.
  - left.
    apply expand_learn_from_shape in Ht
      as (move & method & cost & lv & nl & Hnew & _ & Ht).
    injection Ht as -> -> ->. by exists move, method.
  - right. apply expand_forget_shape in Ht as (move & cost & Hin & Ht).
    injection Ht as -> -> ->. by exists move.
Qed.

Lemma InitialNode_expand_no_moves o s c a n :
  (c, a, n) ∈ (InitialNode_expand o s).1 → moves n = ∅.
Proof.
  unfold InitialNode_expand. intros Ht.
  apply gen_for_elem in Ht as ([p vgs] & _ & Ht).
  unfold gen_try in Ht. destruct (getitem _ _) as [e | chain]; simpl in Ht.
  - by apply elem_of_nil in Ht.
  - destruct (existsb _ _).
    + apply gen_for_elem in Ht as (vg & _ & Ht). simpl in Ht.
      apply list_elem_of_singleton in Ht. by injection Ht as _ _ ->.
    + by apply elem_of_nil in Ht.
Qed.

Lemma reachable_at_most_four o s n :
  reachable o s n → (size (moves n) ≤ 4)%nat.
Proof.
  induction 1 as [c a n Hstart | n c a n' Hreach IH Hstep].
  - apply InitialNode_expand_no_moves in Hstart.
    rewrite Hstart, size_empty. lia.
  - destruct (expand_cases o n) as [[Heq Hlt] | Heq].
    + rewrite Heq in Hstep.
      apply expand_learn_from_shape in Hstep
        as (move & method & cost & lv & nl & Hnew & _ & Ht).
      injection Ht as _ _ ->. simpl.
      rewrite size_union by (by apply disjoint_singleton_r).
      rewrite size_singleton. lia.
    + rewrite Heq in Hstep.
      apply expand_forget_shape in Hstep as (move & cost & Hin & Ht).
      injection Ht as _ _ ->. simpl.
      etrans; [| exact IH]. apply subseteq_size, subseteq_difference_l.
      done.
Qed.

(** C2.  Every state reachable from the initial pseudo-state knows at most
    four moves, and each transition out of it changes the known moves by
    exactly one: a Learn transition adds the learned move, which was not
    known, and a Forget transition removes the forgotten move, which was
    known. *)
Theorem reachable_known_moves (o : iteration_order) (s : MovesetSearch)
    (n : PokemonNode) :
  reachable o s n →
  (size (moves n) ≤ 4)%nat ∧
  ∀ c a n', (c, a, n') ∈ (expand o n).1 →
    (∃ move method, a = LearnAction move method ∧ (move ∉ moves n) ∧
                    moves n' = moves n ∪ {[move]} ∧
                    size (moves n') = S (size (moves n))) ∨
    (∃ move, a = ForgetAction move ∧ move ∈ moves n ∧
             moves n' = moves n ∖ {[move]} ∧
             S (size (moves n')) = size (moves n)).
Proof.
  intros Hreach. split; [by eapply reachable_at_most_four |].
  intros c a n' Ht.
  destruct (expand_changes_one_move _ _ _ _ _ Ht)
    as [(move & method & -> & Hnew & Heq) | (move & -> & Hin & Heq)].
  - left. exists move, method. repeat split; try done.
    rewrite Heq, size_union by (by apply disjoint_singleton_r).
    rewrite size_singleton. lia.
  - right. exists move. repeat split; try done.
    rewrite Heq. rewrite size_difference by (by apply singleton_subseteq_l).
    rewrite size_singleton.
    assert (size (moves n) ≠ 0)%nat; [| lia].
    intros H0. apply size_empty_inv in H0.
    apply (not_elem_of_empty (C:=gset Z) move). by rewrite <- H0.
Qed.

Lemma sample_start :
  (InitialNode_expand ascending sample_search).1
  = [(0, StartAction 25 1, sample_node 0 ∅ false)].
Proof. vm_compute. reflexivity. Qed.

Lemma reachable_known_moves_witness :
  reachable ascending sample_search (sample_node 0 ∅ false) ∧
  (size (moves (sample_node 0 ∅ false)) ≤ 4)%nat.
Proof.
  assert (reachable ascending sample_search (sample_node 0 ∅ false)) as H.
  { apply (reachable_start _ _ 0 (StartAction 25 1)).
    rewrite sample_start. apply list_elem_of_singleton. reflexivity. }
  split; [exact H |].
  exact (proj1 (reachable_known_moves ascending sample_search _ H)).
Defined.

(** ** Learning by level-up *)

(** With [expand_learn] running to its end, every level-up record of a
    move not yet known is offered. *)
Lemma expand_learn_offers_level_up o self move methods lc r t :
  (expand_learn o self).2 = None →
  learnable (search self) (pokemon self) (version_group self) !! move
    = Some methods →
  move ∉ moves self →
  methods !! "level-up" = Some lc →
  r ∈ lc →
  t ∈ (learn_level_up self move r).1 →
  t ∈ (expand_learn o self).1.
Proof.
  unfold expand_learn, expand_learn_from.
  intros Hnone Hmove Hnew Hmethod Hr Ht.
  apply iter_dict_elem with (o := o) in Hmove.
  destruct (gen_for_complete _ _ _ Hnone Hmove) as [Hnone1 Hsub1].
  apply Hsub1. clear Hsub1. simpl in *.
  rewrite bool_decide_false in * by done.
  apply iter_sdict_elem with (o := o) in Hmethod.
  destruct (gen_for_complete _ _ _ Hnone1 Hmethod) as [Hnone2 Hsub2].
  apply Hsub2. clear Hsub2. simpl in *.
  unfold learn_by_method in *. simpl in *.
  destruct (gen_for_complete _ _ _ Hnone2 Hr) as [_ Hsub3].
  by apply Hsub3.
Qed.

(** C5.  A level-up record [(lvl, cost)] for [move], offered from [self]:
    when [lvl] exceeds the current level, or equals it with the
    just-leveled flag set, the transition costs [cost] plus the level
    difference times the per-level cost and leads to the state at level
    [lvl] with the flag set; otherwise the move is offered as a relearn at
    the relearn cost, the level is kept and the flag is cleared.  In both
    cases the move joins the known moves, and the transition is among those
    [expand_learn] yields whenever the record belongs to a move not yet
    known and the expansion runs to its end. *)
Theorem level_up_transition (o : iteration_order) (self : PokemonNode)
    (move lvl cost per_level relearn : Z) :
  costs (search self) !! "per-level" = Some per_level →
  costs (search self) !! "relearn" = Some relearn →
  let leveled :=
    {| search := search self; pokemon := pokemon self; level := lvl;
       version_group := version_group self;
       moves := moves self ∪ {[move]}; new_level := true |} in
  let relearned :=
    {| search := search self; pokemon := pokemon self; level := level self;
       version_group := version_group self;
       moves := moves self ∪ {[move]}; new_level := false |} in
  let offered :=
    if bool_decide (lvl > level self ∨ (lvl = level self ∧ new_level self = true))
    then (cost + (lvl - level self) * per_level,
          LearnAction move "level-up", leveled)
    else (relearn, LearnAction move "relearn", relearned) in
  learn_level_up self move (lvl, cost) = gen_yield offered ∧
  ∀ methods lc,
    (expand_learn o self).2 = None →
    learnable (search self) (pokemon self) (version_group self) !! move
      = Some methods →
    move ∉ moves self →
    methods !! "level-up" = Some lc →
    (lvl, cost) ∈ lc →
    offered ∈ (expand_learn o self).1.
Proof.
  intros Hper Hre leveled relearned offered.
  assert (learn_level_up self move (lvl, cost) = gen_yield offered) as Heq.
  { unfold learn_level_up, offered, gen_try, cost_of. rewrite Hper, Hre.
    destruct (new_level self) eqn:Hflag; simpl;
      repeat case_bool_decide; simpl; try reflexivity; exfalso;
      try lia; naive_solver lia. }
  split; [exact Heq |].
  intros methods lc Hnone Hmove Hnew Hmethod Hr.
  eapply expand_learn_offers_level_up; eauto.
  rewrite Heq. simpl. apply list_elem_of_singleton. reflexivity.
Qed.

Lemma level_up_transition_witness :
  learn_level_up (sample_node 10 ∅ false) 85 (26, 20)
  = gen_yield (36, LearnAction 85 "level-up", sample_node 26 {[85]} true) ∧
  learn_level_up (sample_node 10 ∅ false) 85 (1, 20)
  = gen_yield (150, LearnAction 85 "relearn", sample_node 10 {[85]} false).
Proof.
  assert (costs (search (sample_node 10 ∅ false)) !! "per-level" = Some 1)
    as Hper by (vm_compute; reflexivity).
  assert (costs (search (sample_node 10 ∅ false)) !! "relearn" = Some 150)
    as Hre by (vm_compute; reflexivity).
  split.
  - etrans;
      [exact (proj1 (level_up_transition ascending _ 85 26 20 1 150 Hper Hre))
      |].
    vm_compute. reflexivity.
  - etrans;
      [exact (proj1 (level_up_transition ascending _ 85 1 20 1 150 Hper Hre))
      |].
    vm_compute. reflexivity.
Defined.

(** ** Unrecognized learn methods *)

Lemma learn_level_up_raised self move r e :
  (learn_level_up self move r).2 = Some e →
  exn_type e = KeyError ∧
  (costs (search self) !! "per-level" = None ∨
   costs (search self) !! "relearn" = None).
Proof.
  destruct r as [lvl cost]. unfold learn_level_up, gen_try, cost_of.
  destruct (_ || _).
  - destruct (costs (search self) !! "per-level") eqn:Hc; simpl; intros He.
    + discriminate.
    + injection He as <-. auto.
  - destruct (costs (search self) !! "relearn") eqn:Hc; simpl; intros He.
    + discriminate.
    + injection He as <-. auto.
Qed.

Lemma gen_for_yield_only {A B} (l : list A) (f : A → B) :
  (gen_for l (λ x, gen_yield (f x))).2 = None.
Proof. induction l as [|x l IH]; simpl; [done | exact IH]. Qed.

Lemma learn_by_method_raised self move method lc e :
  (learn_by_method self move method lc).2 = Some e →
  (recognized method = false ∧
   e = Raise ValueError ("Unknown move method " +:+ method)) ∨
  (exn_type e = KeyError ∧
   (costs (search self) !! "per-level" = None ∨
    costs (search self) !! "relearn" = None)).
Proof.
  assert (∀ kl kn,
            (gen_for lc (λ '(_, cost),
               gen_yield (_learn self move method cost kl kn))).2 = None)
    as Hfixed.
  { intros kl kn. induction lc as [|[lv c] lc IH]; simpl; [done | exact IH]. }
  unfold learn_by_method. intros He.
  case_bool_decide as H1.
  { right. apply gen_for_raised in He as (r & _ & He).
    by eapply learn_level_up_raised. }
  case_bool_decide as H2; [by rewrite Hfixed in He |].
  case_bool_decide as H3; [discriminate |].
  case_bool_decide as H4; [case_bool_decide; by rewrite ?Hfixed in He |].
  case_bool_decide as H5; [by rewrite Hfixed in He |].
  left. injection He as <-. split; [| done].
  unfold recognized. apply bool_decide_eq_false.
  rewrite !elem_of_cons, elem_of_nil in *. tauto.
Qed.

Lemma learn_by_method_unrecognized self move method lc :
  recognized method = false →
  learn_by_method self move method lc
  = gen_raise (Raise ValueError ("Unknown move method " +:+ method)).
Proof.
  unfold recognized. intros Hrec. apply bool_decide_eq_false in Hrec.
  rewrite !elem_of_cons, elem_of_nil in Hrec.
  unfold learn_by_method.
  repeat (case_bool_decide as Hm;
          [ exfalso;
            first [ apply Hrec; rewrite Hm; tauto
                  | rewrite !elem_of_cons, elem_of_nil in Hm; tauto ]
          | clear Hm ]).
  reflexivity.
Qed.

(** C8, as the code has it.  When a state knows fewer than four moves and
    the mapping it learns from holds, for a move it does not know yet, a
    record whose method is none of the recognized ones, [expand] stops
    with an exception.  The exception is the [ValueError] raised at line
    631 for an unrecognized method ([KeyError] when a cost entry that a
    level-up record needs is missing from the table), and never an
    instance of [MovesNotLearnable]. *)
Theorem unknown_method_raises (o : iteration_order) (self : PokemonNode)
    (move : Z) (methods : methods_t) (method : string) (lc : list (Z * Z)) :
  (size (moves self) < 4)%nat →
  learnable (search self) (pokemon self) (version_group self) !! move
    = Some methods →
  move ∉ moves self →
  methods !! method = Some lc →
  recognized method = false →
  ∃ ts e,
    expand o self = (ts, Some e) ∧
    isinstance e MovesNotLearnable = false ∧
    ((∃ method', recognized method' = false ∧
        e = Raise ValueError ("Unknown move method " +:+ method')) ∨
     (exn_type e = KeyError ∧
      (costs (search self) !! "per-level" = None ∨
       costs (search self) !! "relearn" = None))).
Proof.
  intros Hlt Hmove Hnew Hmethod Hrec.
  pose proof (expand_gated_by_learn o self Hlt) as Heq.
  rewrite Heq. unfold expand_learn, expand_learn_from.
  set (body := λ '(move, methods), _).
  set (g := gen_for _ body).
  assert (is_Some g.2) as [e He].
  { apply iter_dict_elem with (o := o) in Hmove.
    eapply gen_for_raises; [exact Hmove |]. simpl.
    rewrite bool_decide_false by done.
    apply iter_sdict_elem with (o := o) in Hmethod.
    eapply gen_for_raises; [exact Hmethod |]. simpl.
    rewrite learn_by_method_unrecognized by done. by eexists. }
  exists g.1, e. split; [by rewrite <- He; destruct g |].
  apply gen_for_raised in He as ([move' methods'] & _ & He). simpl in He.
  case_bool_decide; [discriminate |].
  apply gen_for_raised in He as ([method' lc'] & _ & He). simpl in He.
  apply learn_by_method_raised in He as [[Hrec' ->] | [Hkey Hmissing]].
  - split; [done |]. left. by exists method'.
  - split; [| by right].
    destruct e as [cls msg]. simpl in Hkey. by subst cls.
Qed.

Lemma unknown_method_data :
  (size (moves (unknown_method_node ∅)) < 4)%nat ∧
  learnable (search (unknown_method_node ∅)) (pokemon (unknown_method_node ∅))
    (version_group (unknown_method_node ∅)) !! 85
  = Some {["form-change" := [(0, 100)]]} ∧
  (85 ∉ moves (unknown_method_node ∅)) ∧
  ({["form-change" := [(0, 100)]]} : methods_t) !! "form-change"
  = Some [(0, 100)] ∧
  recognized "form-change" = false.
Proof.
  split; [vm_compute; lia |].
  split; [vm_compute; reflexivity |].
  split; [apply not_elem_of_empty |].
  split; vm_compute; reflexivity.
Defined.

Lemma unknown_method_raises_witness :
  ∃ ts e,
    expand ascending (unknown_method_node ∅) = (ts, Some e) ∧
    isinstance e MovesNotLearnable = false.
Proof.
  destruct unknown_method_data as (H1 & H2 & H3 & H4 & H5).
  destruct (unknown_method_raises ascending _ _ _ _ _ H1 H2 H3 H4 H5)
    as (ts & e & Heq & Hcls & _).
  exists ts, e. split; [exact Heq | exact Hcls].
Defined.

Lemma unknown_method_record :
  learnable (search (unknown_method_node ∅)) (pokemon (unknown_method_node ∅))
    (version_group (unknown_method_node ∅)) !! 85
  = Some {["form-change" := [(0, 100)]]}.
Proof. vm_compute. reflexivity. Qed.

Lemma unknown_method_run :
  expand ascending (unknown_method_node ∅)
  = ([], Some (Raise ValueError "Unknown move method form-change")).
Proof. vm_compute. reflexivity. Qed.

(** The claim C8 as the specification words it (a failure of the
    [MovesNotLearnable] class for every state whose data holds a record
    with an unrecognized method) fails on the state with no known move
    whose only record has the method [form-change]: line 631 raises a
    plain [ValueError]. *)
Lemma unknown_method_counterexample :
  ¬ (∀ (o : iteration_order) (self : PokemonNode) move methods method
       (lc : list (Z * Z)),
       learnable (search self) (pokemon self) (version_group self) !! move
         = Some methods →
       methods !! method = Some lc →
       recognized method = false →
       ∃ ts e, expand o self = (ts, Some e) ∧
               isinstance e MovesNotLearnable = true).
Proof.
  intros H.
  destruct (H ascending (unknown_method_node ∅) 85
              {["form-change" := [(0, 100)]]} "form-change" [(0, 100)]
              unknown_method_record eq_refl eq_refl)
    as (ts & e & Heq & Hcls).
  rewrite unknown_method_run in Heq. injection Heq as _ <-.
  discriminate Hcls.
Qed.

(** The record is not looked at when four moves are known, nor when its
    move is known already. *)
Example unknown_method_not_scanned :
  (expand ascending (unknown_method_node {[1; 2; 3; 4]})).2 = None ∧
  expand ascending (unknown_method_node {[85]}) = ([], None).
Proof. split; vm_compute; reflexivity. Qed.

(** ** Trade costs *)

Lemma thing_too_new (gen_to : Z) (things : list Z) :
  existsb (λ g, bool_decide (g > gen_to)) things = true ↔
  ∃ g, g ∈ things ∧ g > gen_to.
Proof.
  rewrite existsb_exists. split.
  - intros (g & Hin & Hg). apply bool_decide_eq_true in Hg.
    exists g. by rewrite list_elem_of_In.
  - intros (g & Hin & Hg). exists g. rewrite <- list_elem_of_In.
    split; [done | by apply bool_decide_eq_true].
Qed.

Lemma in_1_2_spec (g : Z) : in_1_2 g = true ↔ g = 1 ∨ g = 2.
Proof.
  unfold in_1_2. rewrite orb_true_iff, !bool_decide_eq_true. tauto.
Qed.

(** The cascade of [trade_cost] once its four dict reads succeed. *)
Lemma trade_cost_unfold self vf vt things gf gt t x :
  generation_id_by_version_group self !! vf = Some gf →
  generation_id_by_version_group self !! vt = Some gt →
  costs self !! "trade" = Some t →
  costs self !! "transfer" = Some x →
  trade_cost self vf vt things =
  Ok (if bool_decide (gf = gt) then Some t
      else if existsb (λ g, bool_decide (g > gt)) things then None
      else if in_1_2 gf then (if in_1_2 gt then Some t else None)
      else if in_1_2 gt then None
      else if bool_decide (gf > gt) then None
      else if bool_decide (gf < gt - 1) then None
      else Some (t + x)).
Proof.
  intros Hf Ht Htrade Htransfer.
  unfold trade_cost, getitem, cost_of. rewrite Hf, Ht. simpl.
  rewrite Htrade, Htransfer. simpl.
  repeat (destruct (bool_decide _) || destruct (existsb _ _)
          || destruct (in_1_2 _)); reflexivity.
Qed.

(** C3.  For version groups of known generations [gf] (from) and [gt]
    (to), read as the cascade the clauses describe: equal generations
    cost [trade]; otherwise a thing of a generation above [gt] makes the
    trade impossible; otherwise, from generation 1 or 2 the trade costs
    [trade] towards generation 1 or 2 and is impossible towards any
    other; otherwise it is impossible towards generation 1 or 2, backwards
    ([gf > gt]) and across more than one generation ([gt - gf > 1]); and
    from generation 3 on it costs [trade + transfer] exactly when
    [gt = gf + 1]. *)
Theorem trade_cost_rules (self : MovesetSearch) (vf vt : Z) (things : list Z)
    (gf gt t x : Z) :
  generation_id_by_version_group self !! vf = Some gf →
  generation_id_by_version_group self !! vt = Some gt →
  costs self !! "trade" = Some t →
  costs self !! "transfer" = Some x →
  let r := trade_cost self vf vt things in
  (gf = gt → r = Ok (Some t)) ∧
  (gf ≠ gt → (∃ g, g ∈ things ∧ g > gt) → r = Ok None) ∧
  (gf ≠ gt → (∀ g, g ∈ things → g ≤ gt) →
     (gf = 1 ∨ gf = 2 →
        (gt = 1 ∨ gt = 2 → r = Ok (Some t)) ∧
        (¬ (gt = 1 ∨ gt = 2) → r = Ok None)) ∧
     (¬ (gf = 1 ∨ gf = 2) →
        (gt = 1 ∨ gt = 2 → r = Ok None) ∧
        (gf > gt → r = Ok None) ∧
        (gt - gf > 1 → r = Ok None)) ∧
     (3 ≤ gf → (r = Ok (Some (t + x)) ↔ gt = gf + 1))).
Proof.
  intros Hf Ht Htrade Htransfer r. subst r.
  rewrite (trade_cost_unfold _ _ _ _ _ _ _ _ Hf Ht Htrade Htransfer).
  split; [| split].
  - intros ->. by rewrite bool_decide_true.
  - intros Hne Hthing. rewrite bool_decide_false by done.
    apply thing_too_new in Hthing. by rewrite Hthing.
  - intros Hne Hthings. rewrite bool_decide_false by done.
    assert (existsb (λ g, bool_decide (g > gt)) things = false) as ->.
    { apply not_true_is_false. rewrite thing_too_new.
      intros (g & Hin & Hg). specialize (Hthings g Hin). lia. }
    pose proof (in_1_2_spec gf) as Hgf. pose proof (in_1_2_spec gt) as Hgt.
    destruct (in_1_2 gf), (in_1_2 gt);
      repeat case_bool_decide;
      repeat split; try (intros; reflexivity);
      try (intros; exfalso; intuition lia);
      try (intros; exfalso; intuition congruence);
      try (intros; lia).
    all: intros Heq; try (injection Heq; intros; lia);
      try discriminate.
Qed.

Lemma trade_cost_rules_witness :
  trade_cost sample_search 1 2 [3] = Ok (Some 200) ∧
  trade_cost sample_search 1 8 [3] = Ok (Some 400) ∧
  trade_cost sample_search 8 1 [3] = Ok None.
Proof.
  assert (generation_id_by_version_group sample_search !! 1 = Some 3) as H1
    by (vm_compute; reflexivity).
  assert (generation_id_by_version_group sample_search !! 2 = Some 3) as H2
    by (vm_compute; reflexivity).
  assert (generation_id_by_version_group sample_search !! 8 = Some 4) as H8
    by (vm_compute; reflexivity).
  assert (costs sample_search !! "trade" = Some 200) as Ht
    by (vm_compute; reflexivity).
  assert (costs sample_search !! "transfer" = Some 200) as Hx
    by (vm_compute; reflexivity).
  assert (∀ gt : Z, 3 ≤ gt → ∀ g : Z, g ∈ [3] → g ≤ gt) as Hthings.
  { intros gt Hgt g Hg. apply list_elem_of_singleton in Hg. lia. }
  split; [| split].
  - exact (proj1 (trade_cost_rules sample_search 1 2 [3] 3 3 200 200
                    H1 H2 Ht Hx) eq_refl).
  - assert (3 ≠ 4) as Hne by lia.
    destruct (proj2 (proj2 (trade_cost_rules sample_search 1 8 [3] 3 4
                              200 200 H1 H8 Ht Hx)) Hne (Hthings 4 ltac:(lia)))
      as (_ & _ & Hnext).
    apply Hnext; lia.
  - assert (4 ≠ 3) as Hne by lia.
    destruct (proj2 (proj2 (trade_cost_rules sample_search 8 1 [3] 4 3
                              200 200 H8 H1 Ht Hx)) Hne (Hthings 3 ltac:(lia)))
      as (_ & Hlate & _).
    destruct (Hlate ltac:(lia)) as (_ & Hback & _).
    apply Hback. lia.
Defined.

(** ** Rejected requests *)

Lemma init_no_moves {Generator : Type}
    (setup : list Z → result (@search_object Generator)) :
  ∃ self,
    __init__ setup [] = Ok self ∧
    generator self = None ∧ state self = None ∧
    __iter__ self = Err (Raise NoMoves "No moves specified.").
Proof. eexists. repeat split. Qed.

(** C4, on a request for five moves.  The constructor returns before any
    search state is built and iterating raises the stored exception, but
    the exception stored at line 54 is a [NoMoves] (with the text
    [Too many moves specified.]), which is not an instance of
    [TooManyMoves]. *)
Theorem init_too_many_moves {Generator : Type}
    (setup : list Z → result (@search_object Generator)) :
  ∃ self,
    __init__ setup [1; 2; 3; 4; 5] = Ok self ∧
    generator self = None ∧ state self = None ∧
    __iter__ self = Err (Raise NoMoves "Too many moves specified.") ∧
    isinstance (Raise NoMoves "Too many moves specified.") TooManyMoves
    = false.
Proof. eexists. repeat split. Qed.

(** More than four moves are rejected the same way whatever they are. *)
Lemma init_more_than_four {Generator : Type}
    (setup : list Z → result (@search_object Generator)) (mvs : list Z) :
  (length mvs > 4)%nat →
  __init__ setup mvs
  = Ok {| generator := None;
          error := Some (Raise NoMoves "Too many moves specified.");
          state := None |}.
Proof.
  intros Hlen. unfold __init__. destruct mvs as [|m mvs]; [simpl in Hlen; lia |].
  destruct (4 <? length (m :: mvs))%nat eqn:Hlt; [done |].
  apply Nat.ltb_ge in Hlt. lia.
Qed.

(** ** Loading the moves of the other families *)

(** C9, on a table in which a creature of another family learns goal move
    85 by level-up: loaded with the selection [others], the pair returned
    is [({85}, {85})], not a pair of empty sets as the docstring of
    [load_pokemon_moves] promises. *)
Theorem load_others_returns_moves :
  snd <$> returned
            (load_pokemon_moves sample_search others_table (Some 10) "others")
  = Some ({[85]}, {[85]}).
Proof. vm_compute. reflexivity. Qed.

(** ** Breeding requirements *)

(** C6, on [breed_table]: once the constructor has loaded the moves and
    built the breed graph, egg group 2 needs 2 breeds for the moves [{10}]
    and 1 breed for the larger set [{10, 20}]. *)
Theorem breeds_required_not_monotone :
  breeds_after ascending breed_request breed_table 2 {[10]} = Some 2 ∧
  breeds_after ascending breed_request breed_table 2 {[10; 20]} = Some 1 ∧
  ({[10]} : gset Z) ⊆ {[10; 20]}.
Proof.
  split; [vm_compute; reflexivity |].
  split; [vm_compute; reflexivity |].
  apply union_subseteq_l.
Qed.

(** ** [powerset] *)

Lemma combinations_filter {A} (P : A → Prop) `{∀ x, Decision (P x)}
    (l : list A) :
  filter P l ∈ combinations l (length (filter P l)).
Proof.
  induction l as [|x l IH].
  - simpl. left.
  - rewrite filter_cons. destruct (decide (P x)) as [Hx | Hx].
    + simpl. apply elem_of_app. left.
      apply list_elem_of_In, in_map, list_elem_of_In, IH.
    + destruct (filter P l) as [|y t] eqn:Hf.
      * simpl. left.
      * simpl in *. apply elem_of_app. right. exact IH.
Qed.

Lemma powerset_filter {A} (P : A → Prop) `{∀ x, Decision (P x)}
    (l : list A) :
  filter P l ∈ powerset l.
Proof.
  unfold powerset. apply list_elem_of_In, in_concat.
  exists (combinations l (length (filter P l))). split.
  - apply in_map, list_elem_of_In, elem_of_seq.
    pose proof (length_filter P l). lia.
  - apply list_elem_of_In, combinations_filter.
Qed.

(** Every set of elements of [s] is the set of some tuple of
    [powerset(s)]. *)
Lemma powerset_covers (s : list Z) (X : gset Z) :
  X ⊆ list_to_set s →
  ∃ t, t ∈ powerset s ∧ list_to_set t = X ∧ (X ≠ ∅ → t ≠ []).
Proof.
  intros Hsub. exists (filter (λ x, x ∈ X) s).
  split; [apply powerset_filter |].
  assert (list_to_set (filter (λ x, x ∈ X) s) = X) as Heq.
  { apply set_eq. intros x.
    rewrite elem_of_list_to_set, list_elem_of_filter. split.
    - by intros [? _].
    - intros Hx. split; [done |].
      apply Hsub in Hx. by apply elem_of_list_to_set in Hx. }
  split; [exact Heq |].
  intros Hne Hnil. rewrite Hnil in Heq. simpl in Heq. by symmetry in Heq.
Qed.

(** ** Loops with a recursion budget *)

Lemma for_each_opt_total {A S} (l : list A) (body : S → A → option S)
    (st : S) :
  (∀ st x, x ∈ l → is_Some (body st x)) →
  is_Some (for_each_opt l body st).
Proof.
  revert st. induction l as [|x l IH]; intros st Hbody; simpl.
  - by eexists.
  - destruct (Hbody st x) as [st' ->]; [left |].
    apply IH. intros st0 x0 Hin. apply Hbody. by right.
Qed.

Lemma for_each_opt_inv {A S} (I : S → Prop) (l : list A)
    (body : S → A → option S) (st st' : S) :
  (∀ st x st', x ∈ l → I st → body st x = Some st' → I st') →
  I st → for_each_opt l body st = Some st' → I st'.
Proof.
  revert st. induction l as [|x l IH]; intros st Hbody Hst; simpl.
  - by intros [= <-].
  - destruct (body st x) as [st1|] eqn:Hx; [| done].
    apply IH.
    + intros st0 x0 st0' Hin. apply Hbody. by right.
    + eapply Hbody; [left | exact Hst | exact Hx].
Qed.

(** ** The table of breeding requirements *)

Lemma breeds_lookup_set br group mvs v :
  breeds_lookup (breeds_set br group mvs v) group mvs = Some v.
Proof.
  unfold breeds_lookup, breeds_set. rewrite lookup_insert_eq. simpl.
  apply lookup_insert_eq.
Qed.

Lemma breeds_lookup_set_other br group mvs v group' mvs' :
  (group', mvs') ≠ (group, mvs) →
  breeds_lookup (breeds_set br group mvs v) group' mvs'
  = breeds_lookup br group' mvs'.
Proof.
  intros Hne. unfold breeds_lookup, breeds_set.
  destruct (decide (group = group')) as [<- | Hg].
  - rewrite lookup_insert_eq. simpl.
    rewrite lookup_insert_ne by congruence.
    unfold dd_get. by destruct (br !! group).
  - by rewrite lookup_insert_ne.
Qed.

Lemma breeds_get_lookup br group mvs v :
  breeds_lookup br group mvs = Some v → breeds_get br group mvs = v.
Proof.
  unfold breeds_lookup, breeds_get, dd_get.
  destruct (br !! group) as [d|]; simpl; [| done]. by intros ->.
Qed.

Section BreedGraphFacts.
Variable o : iteration_order.
Variable bp : breed_pools.

(** [handle] returns when its budget exceeds the number of groups that
    are not yet on the path. *)
Lemma handle_total depth group mvs path br :
  (size (all_groups bp ∖ list_to_set (path ++ [group])) < depth)%nat →
  is_Some (handle o bp depth group mvs path br).
Proof.
  revert group mvs path br.
  induction depth as [|depth IH]; intros group mvs path br Hsize; [lia |].
  simpl. case_bool_decide; [by eexists |].
  case_bool_decide; [by eexists |].
  apply for_each_opt_total. intros st new_group Hin.
  apply iter_set_elem in Hin.
  case_bool_decide; [| by eexists].
  apply for_each_opt_total. intros [success br0] learned _.
  destruct (IH new_group (mvs ∖ list_to_set learned) (path ++ [group]) br0)
    as [[b br1] ->].
  - assert (all_groups bp ∖ list_to_set ((path ++ [group]) ++ [new_group])
            ⊂ all_groups bp ∖ list_to_set (path ++ [group])) as Hsub.
    { apply elem_of_difference in Hin as [Hin Hout]. split.
      - intros x. rewrite !elem_of_difference, !elem_of_list_to_set.
        intros [Hx Hn]. split; [done |].
        intros Hp. apply Hn, elem_of_app. by left.
      - intros Hsub. specialize (Hsub new_group).
        rewrite !elem_of_difference, !elem_of_list_to_set in Hsub.
        rewrite elem_of_list_to_set in Hout.
        destruct (Hsub (conj Hin Hout)) as [_ Hn].
        apply Hn, elem_of_app. right. left. }
    apply subset_size in Hsub. lia.
  - simpl. destruct b; by eexists.
Qed.

(** A requirement of one breed for [(g, k)] survives a call of [handle],
    unless the call is the outermost one for group [g]. *)
Lemma handle_keeps_one depth group mvs path br b br' g k :
  handle o bp depth group mvs path br = Some (b, br') →
  g ≠ group ∨ path ≠ [] →
  breeds_lookup br g k = Some 1 →
  breeds_lookup br' g k = Some 1.
Proof.
  revert group mvs path br b br'.
  induction depth as [|depth IH]; intros group mvs path br b br'; [done |].
  simpl. intros Hrun Hnotroot Hone.
  case_bool_decide; [by injection Hrun as _ <- |].
  case_bool_decide; [by injection Hrun as _ <- |].
  revert Hrun.
  apply (for_each_opt_inv (λ st, breeds_lookup st.2 g k = Some 1));
    [| exact Hone].
  intros [s0 br0] new_group [s1 br1] _ Hst. simpl in Hst.
  case_bool_decide; [| by intros [= _ <-]].
  apply (for_each_opt_inv (λ st, breeds_lookup st.2 g k = Some 1));
    [| exact Hst].
  clear Hst. intros [s2 br2] learned [s3 br3] _ Hst. simpl in Hst. simpl.
  destruct (handle o bp depth new_group (mvs ∖ list_to_set learned)
              (path ++ [group]) br2) as [[ls br4]|] eqn:Hrec; [| done].
  simpl.
  assert (breeds_lookup br4 g k = Some 1) as H4.
  { eapply IH; [exact Hrec | | exact Hst]. right.
    intros Hnil. by apply app_eq_nil in Hnil as [_ ?]. }
  destruct ls; intros [= _ <-]; [| exact H4].
  destruct (decide ((g, k) = (group, mvs))) as [[= -> ->] | Hne].
  - rewrite breeds_lookup_set. f_equal.
    rewrite (breeds_get_lookup _ _ _ _ H4).
    destruct Hnotroot as [? | Hpath]; [done |].
    rewrite length_app. simpl.
    destruct path; [done |]. simpl. lia.
  - by rewrite breeds_lookup_set_other.
Qed.
End BreedGraphFacts.

Section SeedingFacts.
Variable o : iteration_order.
Variable bp : breed_pools.
Variables goal egg : gset Z.

Lemma seed_keeps_one group tuples br g k :
  breeds_lookup br g k = Some 1 →
  breeds_lookup (foldl (seed egg group) br tuples) g k = Some 1.
Proof.
  revert br. induction tuples as [|t tuples IH]; intros br Hone; [done |].
  simpl. apply IH. unfold seed. case_bool_decide; [| done].
  destruct (decide ((g, k) = (group, list_to_set t ∪ egg)))
    as [[= -> ->] | Hne].
  - apply breeds_lookup_set.
  - by rewrite breeds_lookup_set_other.
Qed.

Lemma seed_sets_one group tuples br t :
  t ∈ tuples → t ≠ [] →
  breeds_lookup (foldl (seed egg group) br tuples) group (list_to_set t ∪ egg)
  = Some 1.
Proof.
  revert br. induction tuples as [|t0 tuples IH]; intros br Hin Hne.
  - by apply elem_of_nil in Hin.
  - simpl. apply elem_of_cons in Hin as [-> | Hin]; [| by apply IH].
    apply seed_keeps_one. unfold seed. rewrite bool_decide_true by done.
    apply breeds_lookup_set.
Qed.

Lemma seed_group_spec depth br group :
  (size (all_groups bp) < depth)%nat →
  ∃ br',
    seed_group o bp goal egg depth br group = Some br' ∧
    (∀ S, S ≠ ∅ → S ⊆ goal ∖ egg →
          breeds_lookup br' group (S ∪ egg) = Some 1) ∧
    (∀ g k, g ≠ group → breeds_lookup br g k = Some 1 →
            breeds_lookup br' g k = Some 1).
Proof.
  intros Hdepth. unfold seed_group.
  destruct (handle_total o bp depth group goal [] br) as [[b br1] Hrun].
  { eapply Nat.le_lt_trans; [| exact Hdepth].
    apply subseteq_size, subseteq_difference_l. done. }
  rewrite Hrun. simpl. eexists. split; [reflexivity |]. split.
  - intros S Hne Hsub.
    destruct (powerset_covers (iter_set o (goal ∖ egg)) S)
      as (t & Hin & <- & Hnil).
    { intros x Hx. apply elem_of_list_to_set, iter_set_elem. by apply Hsub. }
    apply (seed_sets_one group); [exact Hin | by apply Hnil].
  - intros g k Hg Hone. apply (seed_keeps_one group).
    eapply handle_keeps_one; [exact Hrun | by left | exact Hone].
Qed.

Lemma seed_groups_spec depth groups br :
  (size (all_groups bp) < depth)%nat →
  ∃ br',
    for_each_opt groups (seed_group o bp goal egg depth) br = Some br' ∧
    ∀ g S, S ≠ ∅ → S ⊆ goal ∖ egg →
      g ∈ groups ∨ breeds_lookup br g (S ∪ egg) = Some 1 →
      breeds_lookup br' g (S ∪ egg) = Some 1.
Proof.
  intros Hdepth. revert br.
  induction groups as [|g0 groups IH]; intros br; simpl.
  - exists br. split; [done |]. intros g S _ _ [Hin | Hone]; [| done].
    by apply elem_of_nil in Hin.
  - destruct (seed_group_spec depth br g0 Hdepth)
      as (br1 & -> & Hseeded & Hkept).
    destruct (IH br1) as (br' & -> & Hrest).
    exists br'. split; [done |]. intros g S Hne Hsub Hcase.
    apply Hrest; [done | done |].
    destruct (decide (g ∈ groups)) as [Hin | Hnotin]; [by left | right].
    destruct (decide (g = g0)) as [-> | Hg]; [by apply Hseeded |].
    apply Hkept; [done |].
    destruct Hcase as [Hin | Hone]; [| done].
    apply elem_of_cons in Hin as [? | ?]; done.
Qed.
End SeedingFacts.

(** C10.  [construct_breed_graph] returns, and afterwards, for every egg
    group of the goal family and every non-empty set [S] of goal moves
    that are not egg moves, [breeds_required[group][S | egg_moves]] is
    defined and equal to 1. *)
Theorem seeded_breeds_are_one (o : iteration_order) (self : MovesetSearch) :
  ∃ self',
    construct_breed_graph o self = Some self' ∧
    ∀ group S,
      group ∈ goal_egg_groups self →
      S ≠ ∅ →
      S ⊆ goal_moves self ∖ egg_moves self →
      breeds_lookup (breeds_required self') group (S ∪ egg_moves self)
      = Some 1.
Proof.
  unfold construct_breed_graph.
  destruct (seed_groups_spec o (breed_graph_pools o self) (goal_moves self)
              (egg_moves self) (breed_depth (breed_graph_pools o self))
              (goal_egg_groups self) ∅)
    as (br' & -> & Hone).
  { unfold breed_depth. lia. }
  simpl. eexists. split; [reflexivity |].
  intros group S Hin Hne Hsub. simpl. apply Hone; auto.
Qed.

Lemma seeded_breeds_are_one_witness :
  ∃ self',
    construct_breed_graph ascending overwrite_search = Some self' ∧
    breeds_lookup (breeds_required self') 5 ({[85; 86]} ∪ ∅) = Some 1.
Proof.
  destruct (seeded_breeds_are_one ascending overwrite_search)
    as (self' & Hrun & Hone).
  exists self'. split; [exact Hrun |].
  apply (Hone 5 {[85; 86]}).
  - assert (goal_egg_groups overwrite_search = [5]) as ->
      by (vm_compute; reflexivity).
    left.
  - apply (non_empty_inhabited_L 85), elem_of_union_l, elem_of_singleton.
    reflexivity.
  - assert (goal_moves overwrite_search ∖ egg_moves overwrite_search
            = {[85; 86]}) as -> by (vm_compute; reflexivity).
    reflexivity.
Defined.

(** On [overwrite_search] the search from the goal group records 0 for the
    goal moves, and the loop of lines 459-461 then replaces it by 1. *)
Example seeding_overwrites :
  (handle ascending (breed_graph_pools ascending overwrite_search)
     (breed_depth (breed_graph_pools ascending overwrite_search))
     5 {[85; 86]} [] ∅
   ≫= λ r, breeds_lookup r.2 5 {[85; 86]}) = Some 0 ∧
  (construct_breed_graph ascending overwrite_search
   ≫= λ self, breeds_lookup (breeds_required self) 5 {[85; 86]}) = Some 1.
Proof. split; vm_compute; reflexivity. Qed.

(** *** Lower bound of the recorded requirements *)

Section BreedBounds.
Variable o : iteration_order.
Variable bp : breed_pools.
Variable goal : gset Z.

Lemma handle_at_least_one depth group mvs path br b br' :
  handle o bp depth group mvs path br = Some (b, br') →
  path ≠ [] ∨ mvs = goal →
  at_least_one goal br → at_least_one goal br'.
Proof.
  revert group mvs path br b br'.
  induction depth as [|depth IH]; intros group mvs path br b br'; [done |].
  simpl. intros Hrun Hroot Hlow.
  case_bool_decide; [by injection Hrun as _ <- |].
  case_bool_decide; [by injection Hrun as _ <- |].
  revert Hrun.
  apply (for_each_opt_inv (λ st, at_least_one goal st.2)); [| exact Hlow].
  intros [s0 br0] new_group [s1 br1] _ Hst. simpl in Hst.
  case_bool_decide; [| by intros [= _ <-]].
  apply (for_each_opt_inv (λ st, at_least_one goal st.2)); [| exact Hst].
  clear Hst. intros [s2 br2] learned [s3 br3] _ Hst. simpl in Hst. simpl.
  destruct (handle o bp depth new_group (mvs ∖ list_to_set learned)
              (path ++ [group]) br2) as [[ls br4]|] eqn:Hrec; [| done].
  simpl.
  assert (at_least_one goal br4) as H4.
  { eapply IH; [exact Hrec | | exact Hst]. left.
    intros Hnil. by apply app_eq_nil in Hnil as [_ ?]. }
  destruct ls; intros [= _ <-]; [| exact H4].
  intros g k v.
  destruct (decide ((g, k) = (group, mvs))) as [[= -> ->] | Hne].
  - rewrite breeds_lookup_set. intros [= <-].
    destruct Hroot as [Hpath | ->]; [| by right].
    destruct (breeds_lookup br4 group mvs) as [v0|] eqn:Hv0.
    + rewrite (breeds_get_lookup _ _ _ _ Hv0).
      destruct (H4 group mvs v0 Hv0) as [Hv | ->]; [| by right].
      left. rewrite length_app. simpl. destruct path; [done |]. simpl. lia.
    + left. assert (breeds_get br4 group mvs = 999) as ->.
      { unfold breeds_get, breeds_lookup, dd_get in *.
        destruct (br4 !! group) as [d|]; simpl in *; [by rewrite Hv0 | done]. }
      rewrite length_app. simpl. destruct path; [done |]. simpl. lia.
  - rewrite breeds_lookup_set_other by done. apply H4.
Qed.

Lemma seed_at_least_one egg group tuples br :
  at_least_one goal br → at_least_one goal (foldl (seed egg group) br tuples).
Proof.
  revert br. induction tuples as [|t tuples IH]; intros br Hlow; [done |].
  simpl. apply IH. unfold seed. case_bool_decide; [| done].
  intros g k v.
  destruct (decide ((g, k) = (group, list_to_set t ∪ egg)))
    as [[= -> ->] | Hne].
  - rewrite breeds_lookup_set. intros [= <-]. left. lia.
  - rewrite breeds_lookup_set_other by done. apply Hlow.
Qed.

Lemma seed_group_at_least_one egg depth br group br' :
  seed_group o bp goal egg depth br group = Some br' →
  at_least_one goal br → at_least_one goal br'.
Proof.
  unfold seed_group. intros Hrun Hlow.
  destruct (handle o bp depth group goal [] br) as [[b br1]|] eqn:Hh;
    [| done].
  simpl in Hrun. injection Hrun as <-.
  apply seed_at_least_one.
  eapply handle_at_least_one; [exact Hh | by right | exact Hlow].
Qed.

Lemma seed_groups_at_least_one egg depth groups br br' :
  for_each_opt groups (seed_group o bp goal egg depth) br = Some br' →
  at_least_one goal br → at_least_one goal br'.
Proof.
  intros Hrun Hlow. revert Hrun.
  apply (for_each_opt_inv (at_least_one goal)); [| exact Hlow].
  intros st g st' _ Hst Hstep. by eapply seed_group_at_least_one.
Qed.
End BreedBounds.

(** What [construct_breed_graph] leaves in [breeds_required]: it returns,
    the keys written by the loop of lines 459-461 hold 1, and no entry
    other than one for the goal moves is below 1. *)
Lemma construct_breed_graph_entries (o : iteration_order)
    (self : MovesetSearch) :
  ∃ self',
    construct_breed_graph o self = Some self' ∧
    (∀ group S,
       group ∈ goal_egg_groups self → S ≠ ∅ →
       S ⊆ goal_moves self ∖ egg_moves self →
       breeds_lookup (breeds_required self') group (S ∪ egg_moves self)
       = Some 1) ∧
    at_least_one (goal_moves self) (breeds_required self').
Proof.
  unfold construct_breed_graph.
  destruct (seed_groups_spec o (breed_graph_pools o self) (goal_moves self)
              (egg_moves self) (breed_depth (breed_graph_pools o self))
              (goal_egg_groups self) ∅)
    as (br' & Hrun & Hone).
  { unfold breed_depth. lia. }
  rewrite Hrun. simpl. eexists. split; [reflexivity |]. simpl. split.
  - intros group S Hin Hne Hsub. apply Hone; auto.
  - eapply seed_groups_at_least_one; [exact Hrun |].
    intros g k v. unfold breeds_lookup. by rewrite lookup_empty.
Qed.

(** C6, as the code has it.  For an egg group of the goal family, a
    subset [A] of the goal moves made of the egg moves and at least one
    goal move that is not an egg move, and any [B] with [A ⊆ B]: when
    [breeds_required[group][B]] is defined after [construct_breed_graph],
    so is [breeds_required[group][A]], and it is not greater. *)
Theorem seeded_breeds_are_least (o : iteration_order)
    (self : MovesetSearch) :
  ∃ self',
    construct_breed_graph o self = Some self' ∧
    ∀ group S B vb,
      group ∈ goal_egg_groups self →
      S ≠ ∅ →
      S ⊆ goal_moves self ∖ egg_moves self →
      S ∪ egg_moves self ⊆ B →
      B ⊆ goal_moves self →
      breeds_lookup (breeds_required self') group B = Some vb →
      ∃ va,
        breeds_lookup (breeds_required self') group (S ∪ egg_moves self)
        = Some va ∧ va ≤ vb.
Proof.
  destruct (construct_breed_graph_entries o self)
    as (self' & Hrun & Hone & Hlow).
  exists self'. split; [exact Hrun |].
  intros group S B vb Hin Hne Hsub HAB HB Hvb.
  exists 1. split; [by apply Hone |].
  destruct (Hlow group B vb Hvb) as [Hv | ->]; [exact Hv |].
  assert (goal_moves self
          = (goal_moves self ∖ egg_moves self) ∪ egg_moves self) as Hgoal.
  { apply set_eq. intros x. rewrite elem_of_union, elem_of_difference.
    split.
    - intros Hx. destruct (decide (x ∈ egg_moves self)); [by right | by left].
    - intros [[Hx _] | Hx]; [done |]. apply HAB. apply elem_of_union. by right. }
  rewrite Hgoal in Hvb. rewrite Hone in Hvb.
  - injection Hvb as <-. lia.
  - exact Hin.
  - intros Hempty. apply Hne. apply set_eq. intros x. split.
    + intros Hx. rewrite <- Hempty. by apply Hsub.
    + intros Hx. by apply not_elem_of_empty in Hx.
  - done.
Qed.

Lemma seeded_breeds_are_least_witness :
  ∃ self' va,
    construct_breed_graph ascending overwrite_search = Some self' ∧
    breeds_lookup (breeds_required self') 5 ({[85]} ∪ ∅) = Some va ∧
    va ≤ 1.
Proof.
  destruct (seeded_breeds_are_least ascending overwrite_search)
    as (self' & Hrun & Hleast).
  destruct (Hleast 5 {[85]} {[85; 86]} 1) as (va & Hva & Hle).
  - assert (goal_egg_groups overwrite_search = [5]) as ->
      by (vm_compute; reflexivity).
    left.
  - apply (non_empty_inhabited_L 85), elem_of_singleton. reflexivity.
  - assert (goal_moves overwrite_search ∖ egg_moves overwrite_search
            = {[85; 86]}) as -> by (vm_compute; reflexivity).
    apply union_subseteq_l.
  - assert (({[85]} : gset Z) ∪ egg_moves overwrite_search = {[85]}) as ->
      by (vm_compute; reflexivity).
    apply union_subseteq_l.
  - reflexivity.
  - destruct seeding_overwrites as [_ Hafter].
    rewrite Hrun in Hafter. exact Hafter.
  - exists self', va. split; [exact Hrun |]. split; [exact Hva | exact Hle].
Defined.

(** ** Duplicate version groups *)

Lemma for_each_app {A S} (l1 l2 : list A) (body : S → A → result S) st :
  for_each (l1 ++ l2) body st
  = match for_each l1 body st with
    | inl e => inl e
    | inr st' => for_each l2 body st'
    end.
Proof.
  revert st. induction l1 as [|x l1 IH]; intros st; simpl; [done |].
  destruct (body st x); [done | apply IH].
Qed.

Lemma same_run_prefix gens pre x i j :
  (j < length pre)%nat →
  same_run gens (pre ++ [x]) i j ↔ same_run gens pre i j.
Proof.
  intros Hj. unfold same_run. split; intros H t Ht.
  - specialize (H t Ht).
    rewrite !lookup_app_l in H by lia. exact H.
  - rewrite !lookup_app_l by lia. by apply H.
Qed.

Lemma same_run_refl gens items i : same_run gens items i i.
Proof. intros t Ht. by replace t with i by lia. Qed.

(** Extending a run by the next position. *)
Lemma same_run_snoc gens pre x i :
  (i < length pre)%nat →
  same_run gens (pre ++ [x]) i (length pre) ↔
  same_run gens pre i (length pre - 1) ∧
  Some (vg_key gens x) = vg_key gens <$> pre !! (length pre - 1)%nat.
Proof.
  intros Hi. unfold same_run. split.
  - intros H. split.
    + intros t Ht. specialize (H t ltac:(lia)).
      rewrite !lookup_app_l in H by lia. exact H.
    + pose proof (H (length pre) ltac:(lia)) as Hn.
      pose proof (H (length pre - 1)%nat ltac:(lia)) as Hp.
      rewrite lookup_app_r in Hn by lia.
      replace (length pre - length pre)%nat with 0%nat in Hn by lia.
      rewrite (lookup_app_l pre [x] i) in Hn, Hp by lia.
      rewrite lookup_app_l in Hp by lia.
      etrans; [exact Hn | symmetry; exact Hp].
  - intros [H Hx] t Ht.
    destruct (decide (t = length pre)) as [-> | Hne].
    + rewrite lookup_app_r by lia.
      replace (length pre - length pre)%nat with 0%nat by lia.
      rewrite (lookup_app_l pre [x] i) by lia.
      etrans; [exact Hx | apply H; lia].
    + rewrite !lookup_app_l by lia. apply H. lia.
Qed.

Lemma snoc_lookup_cases {A} (pre : list A) (x y : A) (j : nat) :
  (pre ++ [x]) !! j = Some y →
  ((j < length pre)%nat ∧ pre !! j = Some y) ∨ (j = length pre ∧ y = x).
Proof.
  intros Hj. destruct (decide (j < length pre)%nat) as [Hlt | Hge].
  - left. split; [done |]. by rewrite lookup_app_l in Hj.
  - right. rewrite lookup_app_r in Hj by lia.
    destruct (j - length pre)%nat as [|k] eqn:Hk; simpl in Hj; [| done].
    split; [lia | congruence].
Qed.

Lemma lookup_fst_elem (pre : list (Z * moves_t)) i v m :
  pre !! i = Some (v, m) → v ∈ pre.*1.
Proof.
  intros Hi. apply list_elem_of_fmap. exists (v, m). split; [done |].
  by eapply list_elem_of_lookup_2.
Qed.

Section DupesLoop.
Variable gens : gmap Z Z.

Lemma dupes_inv_init : dupes_inv gens [] dupes_init.
Proof.
  split; simpl.
  - intros v. rewrite lookup_empty. split.
    + by intros [? ?].
    + intros H. by apply elem_of_nil in H.
  - intros v a. by rewrite lookup_empty.
  - intros a X. by rewrite lookup_nil.
  - intros i j vi mi vj mj _. by rewrite lookup_nil.
  - left. done.
Qed.

(** The version group opens a new set. *)
Lemma dupes_inv_new_run pre st v m g :
  dupes_inv gens pre st →
  v ∉ pre.*1 →
  gens !! v = Some g →
  (pre ≠ [] →
   Some (vg_key gens (v, m))
   ≠ vg_key gens <$> pre !! (length pre - 1)%nat) →
  dupes_inv gens (pre ++ [(v, m)])
    {| store := store st ++ [{[v]}];
       dupes := <[v := length (store st)]> (dupes st);
       last := Some (length (store st));
       last_moves := Some m;
       last_gen := Some g |}.
Proof.
  intros [Hdom Hbound Hstore Hruns Hlast] Hfresh Hg Hsep.
  assert (dupes st !! v = None) as Hnone.
  { apply eq_None_not_Some. by rewrite Hdom. }
  split; simpl.
  - intros v'. rewrite fmap_app, elem_of_app, <- Hdom. simpl.
    rewrite list_elem_of_singleton, lookup_insert_is_Some.
    split.
    + intros [-> | [_ Hv']]; [by right | by left].
    + intros [Hv' | ->]; [| by left].
      destruct (decide (v = v')); [by left | by right].
  - intros v' a. rewrite length_app. simpl.
    rewrite lookup_insert_Some. intros [[_ <-] | [_ Ha]]; [lia |].
    apply Hbound in Ha. lia.
  - intros a X Ha v'. apply snoc_lookup_cases in Ha as [[Hlt Ha] | [-> ->]].
    + rewrite (Hstore a X Ha v'). rewrite lookup_insert_Some. split.
      * intros Hv'. right. split; [congruence | done].
      * intros [[_ Heq] | [_ Hv']]; [lia | done].
    + rewrite elem_of_singleton, lookup_insert_Some. split.
      * intros ->. by left.
      * intros [[<- _] | [_ Hv']]; [done |]. apply Hbound in Hv'. lia.
  - intros i j vi mi vj mj Hij Hi Hj.
    apply snoc_lookup_cases in Hj as [[Hjlt Hj] | [-> [= -> ->]]].
    + rewrite lookup_app_l in Hi by lia.
      rewrite same_run_prefix by done.
      rewrite !lookup_insert_ne
        by (intros ->; apply Hfresh; by eapply lookup_fst_elem).
      by eapply Hruns.
    + apply snoc_lookup_cases in Hi as [[Hilt Hi] | [-> [= -> ->]]].
      * rewrite lookup_insert_eq.
        rewrite lookup_insert_ne
          by (intros ->; apply Hfresh; by eapply lookup_fst_elem).
        split.
        -- intros Heq. apply Hbound in Heq. lia.
        -- intros Hrun. apply same_run_snoc in Hrun as [_ Hkey]; [| done].
           exfalso. apply Hsep; [| done]. intros ->. simpl in Hilt. lia.
      * split; [intros _; apply same_run_refl | done].
  - right. exists pre, v, m, g, (length (store st)).
    by rewrite lookup_insert_eq.
Qed.

(** The version group joins the set of the one before it. *)
Lemma dupes_inv_extend_run pre0 vl st v m g a :
  let pre := pre0 ++ [(vl, m)] in
  dupes_inv gens pre st →
  v ∉ pre.*1 →
  gens !! v = Some g →
  gens !! vl = Some g →
  dupes st !! vl = Some a →
  dupes_inv gens (pre ++ [(v, m)])
    {| store := alter (λ X, X ∪ {[v]}) a (store st);
       dupes := <[v := a]> (dupes st);
       last := Some a;
       last_moves := Some m;
       last_gen := Some g |}.
Proof.
  intros pre [Hdom Hbound Hstore Hruns _] Hfresh Hg Hgl Ha.
  assert (dupes st !! v = None) as Hnone.
  { apply eq_None_not_Some. by rewrite Hdom. }
  assert (length pre = S (length pre0)) as Hlen.
  { unfold pre. rewrite length_app. simpl. lia. }
  assert (pre !! (length pre - 1)%nat = Some (vl, m)) as Hlastpos.
  { unfold pre. rewrite lookup_app_r by (rewrite length_app; simpl; lia).
    rewrite length_app. simpl.
    by replace (length pre0 + 1 - 1 - length pre0)%nat with 0%nat by lia. }
  split; simpl.
  - intros v'. rewrite fmap_app, elem_of_app, <- Hdom. simpl.
    rewrite list_elem_of_singleton, lookup_insert_is_Some.
    split.
    + intros [-> | [_ Hv']]; [by right | by left].
    + intros [Hv' | ->]; [| by left].
      destruct (decide (v = v')); [by left | by right].
  - intros v' a'. rewrite length_alter.
    rewrite lookup_insert_Some. intros [[_ <-] | [_ Hv']].
    + by eapply Hbound.
    + by eapply Hbound.
  - intros a' X Ha' v'. rewrite lookup_insert_Some.
    destruct (decide (a = a')) as [<- | Hne].
    + rewrite list_lookup_alter_eq in Ha'.
      destruct (store st !! a) as [X0|] eqn:HX0; simpl in Ha'; [| done].
      injection Ha' as <-. rewrite elem_of_union, elem_of_singleton.
      rewrite (Hstore a X0 HX0 v'). split.
      * intros [Hv' | ->]; [| by left].
        right. split; [congruence | done].
      * intros [[-> _] | [_ Hv']]; [by right | by left].
    + rewrite list_lookup_alter_ne in Ha' by done.
      rewrite (Hstore a' X Ha' v'). split.
      * intros Hv'. right. split; [congruence | done].
      * intros [[_ Heq] | [_ Hv']]; [congruence | done].
  - intros i j vi mi vj mj Hij Hi Hj.
    apply snoc_lookup_cases in Hj as [[Hjlt Hj] | [-> [= -> ->]]].
    + rewrite lookup_app_l in Hi by lia.
      rewrite same_run_prefix by done.
      rewrite !lookup_insert_ne
        by (intros ->; apply Hfresh; by eapply lookup_fst_elem).
      by eapply Hruns.
    + apply snoc_lookup_cases in Hi as [[Hilt Hi] | [-> [= -> ->]]].
      * rewrite lookup_insert_eq.
        rewrite lookup_insert_ne
          by (intros ->; apply Hfresh; by eapply lookup_fst_elem).
        rewrite same_run_snoc by done. rewrite Hlastpos.
        rewrite <- Ha.
        rewrite (Hruns i (length pre - 1)%nat vi mi vl m
                   ltac:(lia) Hi Hlastpos).
        split; [| by intros [? _]].
        intros Hrun. split; [done |].
        unfold vg_key. simpl. by rewrite Hg, Hgl.
      * split; [intros _; apply same_run_refl | done].
  - right. exists pre, v, m, g, a. by rewrite lookup_insert_eq.
Qed.

(** One iteration of the loop keeps the invariant. *)
Lemma dupes_step_inv pre st v m g :
  dupes_inv gens pre st →
  v ∉ pre.*1 →
  gens !! v = Some g →
  ∃ st', dupes_step gens st (v, m) = Ok st' ∧
         dupes_inv gens (pre ++ [(v, m)]) st'.
Proof.
  intros Hinv Hfresh Hg. unfold dupes_step, getitem. rewrite Hg. simpl.
  destruct (inv_last _ _ _ Hinv)
    as [(-> & Hl & Hlg & Hlm)
       | (pre0 & vl & ml & gl & a & -> & Hgl & Hlg & Hlm & Hl & Ha)].
  - rewrite Hlg. rewrite bool_decide_false by done. simpl.
    eexists. split; [reflexivity |].
    apply (dupes_inv_new_run [] st v m g); done.
  - rewrite Hlg, Hlm.
    destruct (decide (g = gl ∧ m = ml)) as [[-> ->] | Hdiff].
    + rewrite !bool_decide_true by done. simpl. rewrite Hl.
      eexists. split; [reflexivity |].
      by apply dupes_inv_extend_run.
    + assert (bool_decide (Some g = Some gl)
              && bool_decide (Some m = Some ml) = false) as ->.
      { apply andb_false_iff.
        destruct (decide (g = gl)) as [-> | Hne].
        - right. apply bool_decide_false. intros [= ->]. by apply Hdiff.
        - left. apply bool_decide_false. by intros [= ->]. }
      eexists. split; [reflexivity |].
      apply dupes_inv_new_run; try done.
      intros _. rewrite length_app. simpl.
      rewrite lookup_app_r by lia.
      replace (length pre0 + 1 - 1 - length pre0)%nat with 0%nat by lia.
      simpl. unfold vg_key. simpl. rewrite Hg, Hgl.
      intros [= -> ->]. by apply Hdiff.
Qed.

(** The whole loop, from the invariant on what was processed before. *)
Lemma dupes_loop_inv rest pre st :
  dupes_inv gens pre st →
  NoDup (pre ++ rest).*1 →
  (∀ v m, (v, m) ∈ rest → is_Some (gens !! v)) →
  ∃ st', for_each rest (dupes_step gens) st = Ok st' ∧
         dupes_inv gens (pre ++ rest) st'.
Proof.
  revert pre st. induction rest as [|[v m] rest IH];
    intros pre st Hinv Hnodup Hknown.
  - exists st. rewrite app_nil_r. done.
  - destruct (Hknown v m) as [g Hg]; [left |].
    destruct (dupes_step_inv pre st v m g Hinv) as (st1 & Hstep & Hinv1);
      [| done |].
    { rewrite fmap_app in Hnodup. apply NoDup_app in Hnodup as (_ & Hd & _).
      intros Hin. apply (Hd v Hin). simpl. left. }
    cbn [for_each]. rewrite Hstep.
    destruct (IH (pre ++ [(v, m)]) st1 Hinv1) as (st' & Hrun & Hinv').
    + by rewrite <- app_assoc.
    + intros v' m' Hin. apply (Hknown v' m'). by right.
    + exists st'. split; [done |]. by rewrite <- app_assoc in Hinv'.
Qed.
End DupesLoop.

Lemma iter_dict_NoDup {V} (o : iteration_order) (m : gmap Z V) :
  NoDup (iter_dict o m).*1.
Proof. rewrite (iter_dict_perm o). apply NoDup_fst_map_to_list. Qed.


(** *** Learn edges of version groups with one mapping *)






Lemma fst_elem_lookup (items : list (Z * moves_t)) v :
  v ∈ items.*1 → ∃ i m, items !! i = Some (v, m).
Proof.
  intros Hin. apply list_elem_of_fmap in Hin as ([v' m] & -> & Hin).
  apply list_elem_of_lookup_1 in Hin as [i Hi]. by exists i, m.
Qed.

(** The classes [find_dupes] returns. *)
Lemma find_dupes_classes o gens (vgm : gmap Z moves_t) :
  (∀ v m, vgm !! v = Some m → is_Some (gens !! v)) →
  ∃ d,
    find_dupes o gens vgm = Ok d ∧
    (∀ v, is_Some (vgm !! v) → ∃ C, d !! v = Some C ∧ v ∈ C) ∧
    (∀ vi vj Ci, d !! vi = Some Ci → vj ∈ Ci → d !! vj = Some Ci) ∧
    (∀ i j vi mi vj mj Ci,
       (i ≤ j)%nat →
       iter_dict o vgm !! i = Some (vi, mi) →
       iter_dict o vgm !! j = Some (vj, mj) →
       d !! vi = Some Ci →
       (vj ∈ Ci ↔ same_run gens (iter_dict o vgm) i j)) ∧
    (∀ vi vj Ci, d !! vi = Some Ci → vj ∈ Ci →
                 gens !! vi = gens !! vj ∧ vgm !! vi = vgm !! vj).
Proof.
  intros Hknown. unfold find_dupes.
  destruct (dupes_loop_inv gens (iter_dict o vgm) [] dupes_init)
    as (st & -> & Hinv).
  { apply dupes_inv_init. }
  { apply iter_dict_NoDup. }
  { intros v m Hin. apply (Hknown v m). by apply iter_dict_elem in Hin. }
  simpl in Hinv. destruct Hinv as [Hdom Hbound Hstore Hruns _].
  set (items := iter_dict o vgm) in *.
  assert (∀ v C, dupes_read st !! v = Some C ↔
                 ∃ a, dupes st !! v = Some a ∧ store st !! a = Some C)
    as Hread.
  { intros v C. unfold dupes_read. rewrite lookup_fmap.
    destruct (dupes st !! v) as [a|] eqn:Ha; simpl.
    - destruct (lookup_lt_is_Some_2 (store st) a) as [X HX];
        [by eapply Hbound |].
      rewrite HX. simpl. split.
      + intros [= <-]. by exists a.
      + intros (a' & [= <-] & HC). congruence.
    - split; [done |]. by intros (a' & ? & _). }
  assert (∀ i j vi mi vj mj,
            items !! i = Some (vi, mi) → items !! j = Some (vj, mj) →
            (i ≤ j)%nat →
            dupes st !! vi = dupes st !! vj →
            gens !! vi = gens !! vj ∧ mi = mj) as Hkeys.
  { intros i j vi mi vj mj Hi Hj Hij Heq.
    apply (Hruns i j vi mi vj mj Hij Hi Hj) in Heq.
    specialize (Heq j ltac:(lia)). rewrite Hi, Hj in Heq.
    unfold vg_key in Heq. simpl in Heq. by injection Heq as -> ->. }
  eexists. split; [reflexivity |]. split; [| split; [| split]].
  - intros v [m Hv]. apply (iter_dict_elem o) in Hv.
    assert (v ∈ items.*1) as Hin.
    { apply list_elem_of_fmap. by exists (v, m). }
    apply Hdom in Hin as [a Ha].
    destruct (lookup_lt_is_Some_2 (store st) a) as [C HC];
      [by eapply Hbound |].
    exists C. split; [apply Hread; by exists a |].
    by apply (Hstore a C HC v).
  - intros vi vj Ci Hd Hin. apply Hread in Hd as (a & Ha & HC).
    apply Hread. exists a. split; [| done]. by apply (Hstore a Ci HC vj).
  - intros i j vi mi vj mj Ci Hij Hi Hj Hd.
    apply Hread in Hd as (a & Ha & HC).
    rewrite (Hstore a Ci HC vj), <- Ha.
    rewrite <- (Hruns i j vi mi vj mj Hij Hi Hj). split; by intros ->.
  - intros vi vj Ci Hd Hin. apply Hread in Hd as (a & Ha & HC).
    apply (Hstore a Ci HC vj) in Hin.
    destruct (fst_elem_lookup items vi) as (i & mi & Hi).
    { apply Hdom. by eexists. }
    destruct (fst_elem_lookup items vj) as (j & mj & Hj).
    { apply Hdom. by eexists. }
    assert (vgm !! vi = Some mi) as Hvi.
    { apply (iter_dict_elem o). by eapply list_elem_of_lookup_2. }
    assert (vgm !! vj = Some mj) as Hvj.
    { apply (iter_dict_elem o). by eapply list_elem_of_lookup_2. }
    rewrite Hvi, Hvj.
    destruct (decide (i ≤ j)%nat) as [Hij | Hji].
    + destruct (Hkeys i j vi mi vj mj Hi Hj Hij) as [Hg ->];
        [congruence | done].
    + destruct (Hkeys j i vj mj vi mi Hj Hi ltac:(lia)) as [Hg ->];
        [congruence | done].
Qed.




Lemma dupes_search_classes :
  duplicates_after ascending dupes_search 25 1 = Some {[1]} ∧
  duplicates_after ascending dupes_search 25 2 = Some {[2]} ∧
  duplicates_after ascending dupes_search 25 3 = Some {[3]}.
Proof. repeat split; vm_compute; reflexivity. Qed.

(** C7, on [dupes_search].  Version groups 1 and 3 of creature 25 belong
    to the same generation and have identical mappings, yet
    [find_duplicate_versions] puts them in different classes, [{1}] and
    [{3}]: version group 2, with another mapping, is iterated between
    them, and the loop compares a version group with the previous one
    only. *)
Theorem duplicate_versions_split_classes :
  generation_id_by_version_group dupes_search !! 1
  = generation_id_by_version_group dupes_search !! 3 ∧
  dupes_vg_moves !! 1 = dupes_vg_moves !! 3 ∧
  is_Some (dupes_vg_moves !! 1) ∧
  duplicates_after ascending dupes_search 25 1 = Some {[1]} ∧
  duplicates_after ascending dupes_search 25 3 = Some {[3]} ∧
  3 ∉ ({[1]} : gset Z).
Proof.
  destruct dupes_search_classes as (H1 & _ & H3).
  split; [reflexivity |]. split; [reflexivity |].
  split; [by eexists |]. split; [exact H1 |]. split; [exact H3 |].
  intros Hin. apply elem_of_singleton in Hin. discriminate.
Qed.

(** Hence no class of [find_duplicate_versions] is, in general, the set of
    the version groups with one generation and one mapping. *)
Lemma duplicate_versions_not_equivalence :
  ¬ (∀ (o : iteration_order) (self self' : MovesetSearch) p vgm d vi vj Ci,
       find_duplicate_versions o self = Ok self' →
       pokemon_moves self !! p = Some vgm →
       duplicate_versions self' !! p = Some d →
       is_Some (vgm !! vi) → is_Some (vgm !! vj) →
       d !! vi = Some Ci →
       (vj ∈ Ci ↔
        generation_id_by_version_group self !! vi
        = generation_id_by_version_group self !! vj ∧
        vgm !! vi = vgm !! vj)).
Proof.
  intros H. destruct dupes_search_classes as (Hc & _).
  unfold duplicates_after in Hc.
  destruct (find_duplicate_versions ascending dupes_search)
    as [e | self'] eqn:Hrun; [discriminate |].
  simpl in Hc.
  destruct (duplicate_versions self' !! 25) as [d|] eqn:Hd; [| discriminate].
  simpl in Hc.
  assert (3 ∈ ({[1]} : gset Z)) as Hin.
  { apply (H ascending dupes_search self' 25 dupes_vg_moves d 1 3 {[1]}
             Hrun eq_refl Hd).
    - by eexists.
    - by eexists.
    - exact Hc.
    - split; reflexivity. }
  apply elem_of_singleton in Hin. discriminate.
Qed.

(** ** What a transition changes *)

Lemma learn_level_up_effect self move r c a n' :
  (c, a, n') ∈ (learn_level_up self move r).1 →
  search n' = search self ∧ pokemon n' = pokemon self ∧
  version_group n' = version_group self ∧
  moves n' = moves self ∪ {[move]} ∧
  ((a = LearnAction move "level-up" ∧ level n' = r.1 ∧
    level self ≤ level n' ∧ new_level n' = true ∧
    ∃ per_level, costs (search self) !! "per-level" = Some per_level ∧
                 c = r.2 + (r.1 - level self) * per_level) ∨
   (a = LearnAction move "relearn" ∧ level n' = level self ∧
    r.1 ≤ level self ∧ new_level n' = false ∧
    costs (search self) !! "relearn" = Some c)).
Proof.
  destruct r as [lvl cost]. unfold learn_level_up, gen_try, cost_of.
  destruct (_ || _) eqn:Hup.
  - destruct (costs (search self) !! "per-level") as [pl|]; simpl; intros Ht.
    + apply list_elem_of_singleton in Ht. injection Ht as -> -> ->. simpl.
      repeat split. left. repeat split; [| by eauto].
      apply orb_true_iff in Hup as [Hup | Hup].
      * apply bool_decide_eq_true in Hup. lia.
      * apply andb_true_iff in Hup as [Hup _].
        apply bool_decide_eq_true in Hup. lia.
    + by apply elem_of_nil in Ht.
  - destruct (costs (search self) !! "relearn") as [rl|]; simpl; intros Ht.
    + apply list_elem_of_singleton in Ht. injection Ht as -> -> ->. simpl.
      repeat split. right. repeat split.
      apply orb_false_iff in Hup as [Hup _].
      apply bool_decide_eq_false in Hup. lia.
    + by apply elem_of_nil in Ht.
Qed.

Lemma learn_by_method_effect self move method lc c a n' :
  (c, a, n') ∈ (learn_by_method self move method lc).1 →
  search n' = search self ∧ pokemon n' = pokemon self ∧
  version_group n' = version_group self ∧
  moves n' = moves self ∪ {[move]} ∧
  ∃ method', a = LearnAction move method' ∧
    ((method' = "level-up" ∧ method = "level-up" ∧
      level self ≤ level n' ∧ new_level n' = true ∧
      ∃ r per_level, r ∈ lc ∧ level n' = r.1 ∧
        costs (search self) !! "per-level" = Some per_level ∧
        c = r.2 + (r.1 - level self) * per_level) ∨
     (method' = "relearn" ∧ method = "level-up" ∧
      level n' = level self ∧ new_level n' = false ∧
      costs (search self) !! "relearn" = Some c) ∨
     (method' = method ∧
      method ∈ ["machine"; "tutor"; "stadium-surfing-pikachu"] ∧
      level n' = level self ∧ new_level n' = false ∧ c ∈ lc.*2) ∨
     (method' = method ∧ method = "light-ball-egg" ∧ level self = 0 ∧
      level n' = level self ∧ new_level n' = new_level self ∧ c ∈ lc.*2)).
Proof.
  assert (∀ kn,
    (c, a, n') ∈ (gen_for lc (λ '(_, cost),
                    gen_yield (_learn self move method cost None kn))).1 →
    a = LearnAction move method ∧ search n' = search self ∧
    pokemon n' = pokemon self ∧ version_group n' = version_group self ∧
    moves n' = moves self ∪ {[move]} ∧ level n' = level self ∧
    new_level n' = default (new_level self) kn ∧ c ∈ lc.*2) as Hfixed.
  { intros kn Ht. apply gen_for_elem in Ht as ([lv c'] & Hin & Ht).
    apply list_elem_of_singleton in Ht. injection Ht as -> -> ->. simpl.
    repeat split. apply list_elem_of_fmap. by exists (lv, c'). }
  unfold learn_by_method. intros Ht.
  case_bool_decide as Hlu.
  { apply gen_for_elem in Ht as (r & Hin & Ht).
    apply learn_level_up_effect in Ht
      as (? & ? & ? & ? & [(-> & ? & ? & ? & pl & ? & ->) | (-> & ? & ? & ? & ?)]).
    - repeat split; try done. eexists. split; [done |]. left.
      repeat split; try done. by exists r, pl.
    - repeat split; try done. eexists. split; [done |]. right. left.
      by repeat split. }
  case_bool_decide as Hmt.
  { apply Hfixed in Ht as (-> & ? & ? & ? & ? & ? & ? & ?).
    repeat split; try done. eexists. split; [done |]. right. right. left.
    repeat split; try done.
    apply elem_of_cons in Hmt as [-> | Hmt]; [left |].
    apply list_elem_of_singleton in Hmt as ->. right. left. }
  case_bool_decide as Hegg; [by apply elem_of_nil in Ht |].
  case_bool_decide as Hlb.
  { case_bool_decide as H0; [| by apply elem_of_nil in Ht].
    apply Hfixed in Ht as (-> & ? & ? & ? & ? & ? & ? & ?).
    repeat split; try done. eexists. split; [done |]. right. right. right.
    by repeat split. }
  case_bool_decide as Hst; [| by apply elem_of_nil in Ht].
  apply Hfixed in Ht as (-> & ? & ? & ? & ? & ? & ? & ?).
  repeat split; try done. eexists. split; [done |]. right. right. left.
  repeat split; try done. rewrite Hst.
  apply list_elem_of_further, list_elem_of_further, list_elem_of_here.
Qed.

Lemma expand_learn_effect o self c a n' :
  (c, a, n') ∈ (expand_learn o self).1 →
  ∃ move methods method lc,
    learnable (search self) (pokemon self) (version_group self) !! move
      = Some methods ∧
    methods !! method = Some lc ∧ (move ∉ moves self) ∧
    (c, a, n') ∈ (learn_by_method self move method lc).1.
Proof.
  unfold expand_learn, expand_learn_from. intros Ht.
  apply gen_for_elem in Ht as ([move methods] & Hin & Ht).
  apply iter_dict_elem in Hin.
  case_bool_decide as Hknown; simpl in Ht; [by apply elem_of_nil in Ht |].
  apply gen_for_elem in Ht as ([method lc] & Hin' & Ht).
  apply iter_sdict_elem in Hin'. by exists move, methods, method, lc.
Qed.

Lemma expand_forget_effect o n c a n' :
  (c, a, n') ∈ (expand_forget o n).1 →
  search n' = search n ∧ pokemon n' = pokemon n ∧
  version_group n' = version_group n ∧ level n' = level n ∧
  new_level n' = false ∧ costs (search n) !! "forget" = Some c ∧
  ∃ move, a = ForgetAction move ∧ move ∈ moves n ∧
          moves n' = moves n ∖ {[move]}.
Proof.
  unfold expand_forget, gen_try, cost_of.
  destruct (costs (search n) !! "forget") as [cost|]; simpl; intros Ht.
  - apply gen_for_elem in Ht as (move & Hin & Ht).
    apply iter_set_elem in Hin. simpl in Ht.
    apply list_elem_of_singleton in Ht. injection Ht as -> -> ->. simpl.
    repeat split. by exists move.
  - by apply elem_of_nil in Ht.
Qed.

Lemma expand_frame o n c a n' :
  (c, a, n') ∈ (expand o n).1 →
  search n' = search n ∧ pokemon n' = pokemon n ∧
  version_group n' = version_group n ∧ level n ≤ level n'.
Proof.
  intros Ht. destruct (expand_cases o n) as [[Heq _] | Heq]; rewrite Heq in Ht.
  - apply expand_learn_effect in Ht as (move & methods & method & lc & _ & _ & _ & Ht).
    apply learn_by_method_effect in Ht
      as (? & ? & ? & _ & method' & _ & Hcase).
    repeat split; try done.
    destruct Hcase as [Hc | [Hc | [Hc | Hc]]].
    + by destruct Hc as (_ & _ & ? & _).
    + destruct Hc as (_ & _ & -> & _). lia.
    + destruct Hc as (_ & _ & -> & _). lia.
    + destruct Hc as (_ & _ & _ & -> & _). lia.
  - apply expand_forget_effect in Ht as (? & ? & ? & -> & _).
    repeat split; try done.
Qed.

(** X1.  A transition never changes the creature, its version group or the
    search object, and never lowers the level. *)
Theorem expand_keeps_creature (o : iteration_order) (n : PokemonNode)
    (c : Z) (a : Action) (n' : PokemonNode) :
  (c, a, n') ∈ (expand o n).1 →
  search n' = search n ∧ pokemon n' = pokemon n ∧
  version_group n' = version_group n ∧ level n ≤ level n'.
Proof. apply expand_frame. Qed.

Lemma sample_learn_step :
  (36, LearnAction 85 "level-up", sample_node 26 {[85]} true)
  ∈ (expand ascending (sample_node 10 ∅ false)).1.
Proof. vm_compute. apply list_elem_of_further, list_elem_of_here. Qed.

Lemma expand_keeps_creature_witness :
  pokemon (sample_node 26 {[85]} true) = pokemon (sample_node 10 ∅ false) ∧
  level (sample_node 10 ∅ false) ≤ level (sample_node 26 {[85]} true).
Proof.
  destruct (expand_keeps_creature ascending _ _ _ _ sample_learn_step)
    as (_ & Hp & _ & Hl).
  split; [exact Hp | exact Hl].
Defined.

Lemma InitialNode_expand_elem o s t :
  t ∈ (InitialNode_expand o s).1 →
  ∃ p vgs vg chain group,
    pokemon_moves s !! p = Some vgs ∧ is_Some (vgs !! vg) ∧
    evolution_chains s !! p = Some chain ∧
    group ∈ dd_get [] (egg_groups s) chain ∧
    dd_get ∅ (breeds_required s) group ≠ ∅ ∧
    t = (0, StartAction p vg,
         {| search := s; pokemon := p; level := 0; version_group := vg;
            moves := ∅; new_level := false |}).
Proof.
  unfold InitialNode_expand. intros Ht.
  apply gen_for_elem in Ht as ([p vgs] & Hin & Ht).
  apply iter_dict_elem in Hin.
  unfold gen_try, getitem in Ht.
  destruct (evolution_chains s !! p) as [chain|] eqn:Hchain; simpl in Ht;
    [| by apply elem_of_nil in Ht].
  destruct (existsb _ _) eqn:Hex; [| by apply elem_of_nil in Ht].
  apply existsb_exists in Hex as (group & Hg & Hne).
  apply bool_decide_eq_true in Hne.
  apply gen_for_elem in Ht as (vg & Hvg & Ht). simpl in Ht.
  apply list_elem_of_singleton in Ht.
  apply list_elem_of_fmap in Hvg as ([vg' m] & -> & Hvg).
  apply iter_dict_elem in Hvg. simpl in *.
  exists p, vgs, vg', chain, group.
  split; [done |]. split; [by eexists |]. split; [done |].
  split; [by apply list_elem_of_In |]. split; [done |]. done.
Qed.

(** X2.  Every visited state belongs to the search it started from, is of a
    creature and version group with loaded moves whose family has an egg
    group with a breeding entry, and has a level of at least 0. *)
Theorem reachable_from_start (o : iteration_order) (s : MovesetSearch)
    (n : PokemonNode) :
  reachable o s n →
  search n = s ∧ 0 ≤ level n ∧
  ∃ vgs chain group,
    pokemon_moves s !! pokemon n = Some vgs ∧
    is_Some (vgs !! version_group n) ∧
    evolution_chains s !! pokemon n = Some chain ∧
    group ∈ dd_get [] (egg_groups s) chain ∧
    dd_get ∅ (breeds_required s) group ≠ ∅.
Proof.
  induction 1 as [c a n Hstart | n c a n' Hreach IH Hstep].
  - apply InitialNode_expand_elem in Hstart
      as (p & vgs & vg & chain & group & ? & ? & ? & ? & ? & Ht).
    injection Ht as _ _ ->. simpl. repeat split; try done.
    by exists vgs, chain, group.
  - apply expand_frame in Hstep as (Hs & Hp & Hv & Hl).
    rewrite Hs, Hp, Hv. destruct IH as (? & ? & ?).
    repeat split; try done. lia.
Qed.

Lemma reachable_from_start_witness :
  search (sample_node 0 ∅ false) = sample_search ∧
  0 ≤ level (sample_node 0 ∅ false).
Proof.
  assert (reachable ascending sample_search (sample_node 0 ∅ false)) as H.
  { apply (reachable_start _ _ 0 (StartAction 25 1)).
    rewrite sample_start. apply list_elem_of_singleton. reflexivity. }
  destruct (reachable_from_start ascending sample_search _ H) as (Hs & Hl & _).
  split; [exact Hs | exact Hl].
Defined.

(** X3.  What each learn method does to the level. *)
Theorem learn_transition_effect (o : iteration_order) (n : PokemonNode)
    (c : Z) (move : Z) (method : string) (n' : PokemonNode) :
  (c, LearnAction move method, n') ∈ (expand o n).1 →
  method ∈ learn_methods ∧ method ≠ "egg" ∧
  (method = "level-up" → level n ≤ level n' ∧ new_level n' = true) ∧
  (method ∈ ["relearn"; "machine"; "tutor"; "stadium-surfing-pikachu"] →
     level n' = level n ∧ new_level n' = false) ∧
  (method = "light-ball-egg" →
     level n = 0 ∧ level n' = 0 ∧ new_level n' = new_level n).
Proof.
  intros Ht. destruct (expand_cases o n) as [[Heq _] | Heq]; rewrite Heq in Ht.
  - apply expand_learn_effect in Ht as (mv & methods & m0 & lc & _ & _ & _ & Ht).
    apply learn_by_method_effect in Ht
      as (_ & _ & _ & _ & method' & Ha & Hcase).
    injection Ha as -> ->. unfold learn_methods.
    destruct Hcase as [Hc | [Hc | [Hc | Hc]]].
    + destruct Hc as (-> & _ & ? & ? & _).
      split; [set_solver |]. split; [done |]. split; [done |].
      split; [| done]. intros Hin.
      repeat (apply elem_of_cons in Hin as [Hin | Hin]; [discriminate |]).
      by apply elem_of_nil in Hin.
    + destruct Hc as (-> & _ & ? & ? & _).
      split; [set_solver |]. split; [done |]. split; [done |].
      split; [done | done].
    + destruct Hc as (-> & Hin & ? & ? & _).
      repeat (apply elem_of_cons in Hin as [-> | Hin]);
        [| | | by apply elem_of_nil in Hin];
        (split; [set_solver |]; split; [done |]; split; [done |];
         split; [done | done]).
    + destruct Hc as (-> & -> & H0 & Hl & ? & _).
      split; [set_solver |]. split; [done |]. split; [done |].
      split.
      * intros Hin.
        repeat (apply elem_of_cons in Hin as [Hin | Hin]; [discriminate |]).
        by apply elem_of_nil in Hin.
      * intros _. rewrite Hl. done.
  - apply expand_forget_effect in Ht as (_ & _ & _ & _ & _ & _ & mv & Ha & _).
    discriminate.
Qed.

Lemma learn_transition_effect_witness :
  ("level-up" : string) ∈ learn_methods ∧
  level (sample_node 10 ∅ false) ≤ level (sample_node 26 {[85]} true) ∧
  new_level (sample_node 26 {[85]} true) = true.
Proof.
  destruct (learn_transition_effect ascending _ _ _ _ _ sample_learn_step)
    as (Hm & _ & Hl & _).
  split; [exact Hm | exact (Hl eq_refl)].
Defined.

(** With non-negative costs in the table and in the records, no
    transition has a negative cost. *)
Lemma expand_costs_nonneg (o : iteration_order) (n : PokemonNode) :
  (∀ k v, costs (search n) !! k = Some v → 0 ≤ v) →
  (∀ move methods method lc r,
     learnable (search n) (pokemon n) (version_group n) !! move
       = Some methods →
     methods !! method = Some lc → r ∈ lc → 0 ≤ r.2) →
  ∀ c a n', (c, a, n') ∈ (expand o n).1 → 0 ≤ c.
Proof.
  intros Hcosts Hrec c a n' Ht.
  destruct (expand_cases o n) as [[Heq _] | Heq]; rewrite Heq in Ht.
  - apply expand_learn_effect in Ht
      as (move & methods & method & lc & Hmove & Hmeth & _ & Ht).
    assert (∀ r, r ∈ lc → 0 ≤ r.2) as Hlc by (intros r; by eapply Hrec).
    apply learn_by_method_effect in Ht
      as (_ & _ & _ & _ & method' & _ & Hcase).
    destruct Hcase as [Hc | [Hc | [Hc | Hc]]].
    + destruct Hc as (_ & _ & Hle & _ & r & pl & Hr & Hlv & Hpl & ->).
      apply Hcosts in Hpl. apply Hlc in Hr. rewrite Hlv in Hle. nia.
    + destruct Hc as (_ & _ & _ & _ & Hrl). by apply Hcosts in Hrl.
    + destruct Hc as (_ & _ & _ & _ & Hin).
      apply list_elem_of_fmap in Hin as (r & -> & Hr). by apply Hlc.
    + destruct Hc as (_ & _ & _ & _ & _ & Hin).
      apply list_elem_of_fmap in Hin as (r & -> & Hr). by apply Hlc.
  - apply expand_forget_effect in Ht as (_ & _ & _ & _ & _ & Hf & _).
    by apply Hcosts in Hf.
Qed.

Lemma gen_for_yields {A B} (l : list A) (f : A → B) :
  gen_for l (λ x, gen_yield (f x)) = (f <$> l, None).
Proof.
  induction l as [|x l IH]; [done |].
  simpl. rewrite IH. done.
Qed.

Lemma expand_full_moveset o n :
  (4 ≤ size (moves n))%nat →
  match costs (search n) !! "forget" with
  | Some fc =>
      (expand o n).2 = None ∧
      (expand o n).1
      ≡ₚ (λ move, (fc, ForgetAction move, forgotten n move))
           <$> elements (moves n)
  | None => expand o n = ([], Some (Raise KeyError "forget"))
  end.
Proof.
  intros H4. assert (expand o n = expand_forget o n) as ->.
  { unfold expand. rewrite bool_decide_false.
    - rewrite bool_decide_false; [done | lia].
    - intros Hempty. rewrite Hempty, size_empty in H4. lia. }
  unfold expand_forget, gen_try, cost_of.
  destruct (costs (search n) !! "forget") as [fc|]; [| done].
  simpl. rewrite (gen_for_yields _
    (λ move, (fc, ForgetAction move, forgotten n move))).
  simpl. split; [done |]. by rewrite (iter_set_perm o).
Qed.

(** X4.  A state with four moves (or more) is expanded by forgetting: one
    transition per known move, each at the cost of forgetting; without a
    'forget' cost the expansion raises KeyError and yields nothing. *)
Theorem expand_forgets_each_move (o : iteration_order) (n : PokemonNode) :
  (4 ≤ size (moves n))%nat →
  match costs (search n) !! "forget" with
  | Some fc =>
      (expand o n).2 = None ∧
      (expand o n).1
      ≡ₚ (λ move, (fc, ForgetAction move, forgotten n move))
           <$> elements (moves n)
  | None => expand o n = ([], Some (Raise KeyError "forget"))
  end.
Proof. apply expand_full_moveset. Qed.

Lemma expand_forgets_each_move_witness :
  (expand ascending (sample_node 30 {[1; 2; 85; 86]} false)).2 = None ∧
  (expand ascending (sample_node 30 {[1; 2; 85; 86]} false)).1
  ≡ₚ (λ move, (300, ForgetAction move,
               forgotten (sample_node 30 {[1; 2; 85; 86]} false) move))
       <$> elements ({[1; 2; 85; 86]} : gset Z).
Proof.
  assert (4 ≤ size (moves (sample_node 30%Z {[1; 2; 85; 86]}%Z false)))%nat
    as H
    by (vm_compute; lia).
  exact (expand_forgets_each_move ascending _ H).
Defined.

(** X5.  A move learned as the fourth can be forgotten again, which gives
    back the three moves known before. *)
Theorem learn_then_forget (o : iteration_order) (n : PokemonNode)
    (c : Z) (move : Z) (method : string) (n' : PokemonNode) (fc : Z) :
  size (moves n) = 3%nat →
  (c, LearnAction move method, n') ∈ (expand o n).1 →
  costs (search n) !! "forget" = Some fc →
  ∃ n'',
    (fc, ForgetAction move, n'') ∈ (expand o n').1 ∧
    moves n'' = moves n ∧ pokemon n'' = pokemon n ∧
    version_group n'' = version_group n ∧
    level n'' = level n' ∧ new_level n'' = false.
Proof.
  intros H3 Ht Hfc.
  destruct (expand_frame _ _ _ _ _ Ht) as (Hs & Hp & Hv & _).
  destruct (expand_changes_one_move _ _ _ _ _ Ht)
    as [(mv & md & Ha & Hnew & Hmoves) | (mv & Ha & _)]; [| discriminate].
  injection Ha as <- <-.
  assert (size (moves n') = 4%nat) as H4.
  { rewrite Hmoves, size_union by (by apply disjoint_singleton_r).
    rewrite size_singleton. lia. }
  pose proof (expand_full_moveset o n') as Hf.
  rewrite Hs, Hfc in Hf. destruct Hf as [_ Hperm]; [lia |].
  exists (forgotten n' move). split.
  - rewrite Hperm. apply list_elem_of_fmap. exists move. split; [done |].
    apply elem_of_elements. rewrite Hmoves.
    apply elem_of_union. right. by apply elem_of_singleton.
  - simpl. rewrite Hmoves. repeat split; try done.
    apply set_eq. intros x.
    rewrite elem_of_difference, elem_of_union, elem_of_singleton. split.
    + intros [[? | ?] ?]; done.
    + intros Hx. split; [by left |]. by intros ->.
Qed.

Lemma sample_fourth_move :
  (150, LearnAction 85 "relearn", sample_node 10 {[1; 2; 3; 85]} false)
  ∈ (expand ascending (sample_node 10 {[1; 2; 3]} false)).1.
Proof. vm_compute. apply list_elem_of_here. Qed.

Lemma learn_then_forget_witness :
  ∃ n'',
    (300, ForgetAction 85, n'')
    ∈ (expand ascending (sample_node 10 {[1; 2; 3; 85]} false)).1 ∧
    moves n'' = moves (sample_node 10 {[1; 2; 3]} false).
Proof.
  assert (size (moves (sample_node 10%Z {[1; 2; 3]}%Z false)) = 3%nat) as H3
    by (vm_compute; reflexivity).
  assert (costs (search (sample_node 10 {[1; 2; 3]} false)) !! "forget"
          = Some 300) as Hf by (vm_compute; reflexivity).
  destruct (learn_then_forget ascending _ _ _ _ _ _ H3 sample_fourth_move Hf)
    as (n'' & Hin & Hm & _).
  exists n''. split; [exact Hin | exact Hm].
Defined.

(** ** Start states *)

Lemma gen_for_elem_of {A B} (l : list A) (body : A → gen B) (x : A) (y : B) :
  (∀ x', x' ∈ l → (body x').2 = None) →
  x ∈ l → y ∈ (body x).1 → y ∈ (gen_for l body).1.
Proof.
  induction l as [|x0 l IH]; simpl; intros Hnone Hin Hy.
  - by apply elem_of_nil in Hin.
  - unfold gen_seq. destruct (body x0) as [ys [e|]] eqn:Hx0; simpl.
    + specialize (Hnone x0 (list_elem_of_here _ _)). rewrite Hx0 in Hnone.
      discriminate.
    + apply elem_of_app. apply elem_of_cons in Hin as [-> | Hin].
      * left. by rewrite Hx0 in Hy.
      * right. apply IH; [| done | done].
        intros x' Hx'. apply Hnone. by right.
Qed.

Lemma gen_for_no_raise {A B} (l : list A) (body : A → gen B) :
  (∀ x, x ∈ l → (body x).2 = None) → (gen_for l body).2 = None.
Proof.
  induction l as [|x0 l IH]; simpl; intros Hnone; [done |].
  unfold gen_seq. destruct (body x0) as [ys [e|]] eqn:Hx0; simpl.
  - specialize (Hnone x0 (list_elem_of_here _ _)). rewrite Hx0 in Hnone.
    discriminate.
  - apply IH. intros x Hx. apply Hnone. by right.
Qed.

(** X6.  When every creature with loaded moves has an evolution chain,
    [InitialNode.expand] raises nothing and yields exactly the start
    states, at cost 0, of the creatures whose family has an egg group with
    a breeding entry, one per version group with loaded moves. *)
Theorem InitialNode_expand_starts (o : iteration_order) (s : MovesetSearch) :
  (∀ p, is_Some (pokemon_moves s !! p) → is_Some (evolution_chains s !! p)) →
  (InitialNode_expand o s).2 = None ∧
  ∀ t, t ∈ (InitialNode_expand o s).1 ↔
    ∃ p vgs vg chain,
      pokemon_moves s !! p = Some vgs ∧ is_Some (vgs !! vg) ∧
      evolution_chains s !! p = Some chain ∧ worth_breeding s chain ∧
      t = (0, StartAction p vg, start_node s p vg).
Proof.
  intros Hchains.
  assert (∀ x, x ∈ iter_dict o (pokemon_moves s) →
    ((λ '(p, version_groups),
       gen_try (getitem (evolution_chains s) p) (λ chain,
         if existsb
              (λ group, bool_decide (dd_get ∅ (breeds_required s) group ≠ ∅))
              (dd_get [] (egg_groups s) chain)
         then
           gen_for (iter_dict o version_groups).*1 (λ vg,
             gen_yield (0, StartAction p vg,
                        {| search := s; pokemon := p; level := 0;
                           version_group := vg; moves := ∅;
                           new_level := false |}))
         else gen_done)) x : gen transition).2 = None) as Hnone.
  { intros [p vgs] Hin. apply iter_dict_elem in Hin.
    destruct (Hchains p) as [chain Hchain]; [by eexists |].
    unfold gen_try, getitem. rewrite Hchain. simpl.
    destruct (existsb _ _); [| done].
    apply gen_for_yield_only. }
  split.
  - unfold InitialNode_expand. by apply gen_for_no_raise.
  - intros t. split.
    + intros Ht. apply InitialNode_expand_elem in Ht
        as (p & vgs & vg & chain & group & ? & ? & ? & ? & ? & ->).
      exists p, vgs, vg, chain. repeat split; try done. by exists group.
    + intros (p & vgs & vg & chain & Hp & [m Hvg] & Hchain & (group & Hg & Hne) & ->).
      unfold InitialNode_expand.
      eapply (gen_for_elem_of _ _ (p, vgs)); [exact Hnone | |].
      * by apply iter_dict_elem.
      * unfold gen_try, getitem. rewrite Hchain. simpl.
        replace (existsb _ _) with true.
        -- eapply (gen_for_elem_of _ _ vg).
           ++ intros; done.
           ++ apply list_elem_of_fmap. exists (vg, m). split; [done |].
              by apply iter_dict_elem.
           ++ simpl. apply list_elem_of_here.
        -- symmetry. apply existsb_exists. exists group.
           split; [by apply list_elem_of_In |]. by apply bool_decide_eq_true.
Qed.

Lemma sample_chains p :
  is_Some (pokemon_moves sample_search !! p) →
  is_Some (evolution_chains sample_search !! p).
Proof.
  unfold sample_search; cbn [pokemon_moves evolution_chains].
  intros [vgs H]. apply lookup_singleton_Some in H as [<- _].
  rewrite lookup_singleton_eq. by eexists.
Qed.

Lemma sample_worth_breeding : worth_breeding sample_search 10.
Proof.
  exists 5. split.
  - vm_compute. apply list_elem_of_here.
  - intros Hempty.
    assert (dd_get ∅ (breeds_required sample_search) 5
              !! ({[85; 86]} : gset Z) = Some 1) as Hentry
      by (vm_compute; reflexivity).
    rewrite Hempty, lookup_empty in Hentry. discriminate.
Qed.

Lemma sample_start_data :
  pokemon_moves sample_search !! 25 = Some {[1 := sample_moves]} ∧
  is_Some (({[1 := sample_moves]} : gmap Z moves_t) !! 1) ∧
  evolution_chains sample_search !! 25 = Some 10.
Proof.
  unfold sample_search; cbn [pokemon_moves evolution_chains].
  split; [apply lookup_singleton_eq |].
  split; [rewrite lookup_singleton_eq; by eexists |].
  apply lookup_singleton_eq.
Qed.

Lemma InitialNode_expand_starts_witness :
  (InitialNode_expand ascending sample_search).2 = None ∧
  (0, StartAction 25 1, start_node sample_search 25 1)
  ∈ (InitialNode_expand ascending sample_search).1.
Proof.
  destruct (InitialNode_expand_starts ascending sample_search sample_chains)
    as [Hnone Hiff].
  split; [exact Hnone |]. apply Hiff.
  destruct sample_start_data as (H1 & H2 & H3).
  exists 25, {[1 := sample_moves]}, 1, 10.
  split; [exact H1 |]. split; [exact H2 |]. split; [exact H3 |].
  split; [exact sample_worth_breeding | reflexivity].
Defined.

(** X7.  A creature with loaded moves and no evolution chain makes
    [InitialNode.expand] raise KeyError. *)
Theorem InitialNode_expand_unknown_creature (o : iteration_order)
    (s : MovesetSearch) (p : Z) :
  is_Some (pokemon_moves s !! p) →
  evolution_chains s !! p = None →
  ∃ p', (InitialNode_expand o s).2 = Some (Raise KeyError (pretty p')) ∧
        is_Some (pokemon_moves s !! p') ∧ evolution_chains s !! p' = None.
Proof.
  intros [vgs Hp] Hnone.
  assert (is_Some (InitialNode_expand o s).2) as [e He].
  { unfold InitialNode_expand.
    eapply (gen_for_raises _ _ (p, vgs)); [by apply iter_dict_elem |].
    unfold gen_try, getitem. rewrite Hnone. by eexists. }
  unfold InitialNode_expand in He.
  apply gen_for_raised in He as He'. destruct He' as ([p' vgs'] & Hin & Hx).
  apply iter_dict_elem in Hin. unfold gen_try, getitem in Hx.
  destruct (evolution_chains s !! p') as [chain|] eqn:Hc; simpl in Hx.
  - destruct (existsb _ _).
    + by rewrite gen_for_yield_only in Hx.
    + discriminate.
  - injection Hx as <-. exists p'. unfold InitialNode_expand.
    split; [done |]. split; [by eexists | done].
Qed.

Lemma orphan_search_data :
  is_Some (pokemon_moves orphan_search !! 99) ∧
  evolution_chains orphan_search !! 99 = None.
Proof.
  unfold orphan_search, set_pokemon_moves, sample_search;
    cbn [pokemon_moves evolution_chains].
  split; [rewrite lookup_singleton_eq; by eexists |].
  by apply lookup_singleton_ne.
Qed.

Lemma InitialNode_expand_unknown_creature_witness :
  ∃ p' : Z, (InitialNode_expand ascending orphan_search).2
            = Some (Raise KeyError (pretty p')).
Proof.
  destruct (InitialNode_expand_unknown_creature ascending orphan_search 99
              (proj1 orphan_search_data) (proj2 orphan_search_data))
    as (p' & He & _).
  by exists p'.
Defined.

(** ** Transfers between generations *)

Lemma trade_cost_Some self vf vt things c :
  trade_cost self vf vt things = Ok (Some c) →
  ∃ gf gt t,
    generation_id_by_version_group self !! vf = Some gf ∧
    generation_id_by_version_group self !! vt = Some gt ∧
    costs self !! "trade" = Some t ∧
    ((gf = gt ∧ c = t) ∨
     (gf ≠ gt ∧ (∀ g, g ∈ things → g ≤ gt) ∧
      ((in_1_2 gf = true ∧ in_1_2 gt = true ∧ c = t) ∨
       (in_1_2 gf = false ∧ in_1_2 gt = false ∧ gt = gf + 1 ∧
        ∃ x, costs self !! "transfer" = Some x ∧ c = t + x)))).
Proof.
  unfold trade_cost, getitem, cost_of.
  destruct (generation_id_by_version_group self !! vf) as [gf|]; [| done].
  destruct (generation_id_by_version_group self !! vt) as [gt|]; [| done].
  simpl. intros H. exists gf, gt.
  case_bool_decide as Heq.
  { destruct (costs self !! "trade") as [t|]; [| done].
    injection H as <-. exists t. repeat split. by left. }
  destruct (existsb _ _) eqn:Hex; [done |].
  assert (∀ g, g ∈ things → g ≤ gt) as Hthings.
  { intros g Hg. destruct (decide (g ≤ gt)) as [| Hgt]; [done |].
    assert (existsb (λ g, bool_decide (g > gt)) things = true) as Ht.
    { apply thing_too_new. exists g. split; [done | lia]. }
    congruence. }
  destruct (in_1_2 gf) eqn:Hf.
  { destruct (in_1_2 gt) eqn:Ht; [| done].
    destruct (costs self !! "trade") as [t|]; [| done].
    injection H as <-. exists t. repeat split. right.
    split; [done |]. split; [done |]. by left. }
  destruct (in_1_2 gt) eqn:Ht; [done |].
  case_bool_decide as Hgt; [done |].
  case_bool_decide as Hlt; [done |].
  destruct (costs self !! "trade") as [t|]; [| done]. simpl in H.
  destruct (costs self !! "transfer") as [x|]; [| done].
  injection H as <-. exists t. repeat split. right.
  split; [done |]. split; [done |]. right.
  repeat split; [lia |]. by exists x.
Qed.

(** X8.  Transfers are one-way.  A trade between version groups of
    different generations, not both of generation 1 or 2, goes to the next
    generation, costs a trade and a transfer, and cannot be made in the
    other direction, whatever is traded. *)
Theorem transfer_is_one_way (self : MovesetSearch) (vf vt : Z)
    (things things' : list Z) (gf gt c : Z) :
  generation_id_by_version_group self !! vf = Some gf →
  generation_id_by_version_group self !! vt = Some gt →
  gf ≠ gt →
  ¬ ((gf = 1 ∨ gf = 2) ∧ (gt = 1 ∨ gt = 2)) →
  trade_cost self vf vt things = Ok (Some c) →
  gt = gf + 1 ∧
  (∃ t x, costs self !! "trade" = Some t ∧ costs self !! "transfer" = Some x ∧
          c = t + x) ∧
  trade_cost self vt vf things' = Ok None.
Proof.
  intros Hf Ht Hne Hold Hc.
  apply trade_cost_Some in Hc
    as (gf' & gt' & t & Hf' & Ht' & Htrade & Hcase).
  rewrite Hf in Hf'. rewrite Ht in Ht'.
  injection Hf' as <-. injection Ht' as <-.
  destruct Hcase as [[? _] | (_ & _ & [(H1 & H2 & _) | (H1 & H2 & Hnext & x & Hx & ->)])];
    [done | |].
  - exfalso. apply Hold. by rewrite <- !in_1_2_spec.
  - split; [done |]. split; [by exists t, x |].
    unfold trade_cost, getitem. rewrite Hf, Ht. simpl.
    rewrite bool_decide_false by lia.
    destruct (existsb _ _); [done |].
    rewrite H1, H2. rewrite bool_decide_true by lia. done.
Qed.

Lemma transfer_is_one_way_witness :
  trade_cost sample_search 1 8 [3] = Ok (Some 400) ∧
  trade_cost sample_search 8 1 [] = Ok None.
Proof.
  assert (trade_cost sample_search 1 8 [3] = Ok (Some 400)) as H
    by (vm_compute; reflexivity).
  split; [exact H |].
  refine (proj2 (proj2 (transfer_is_one_way sample_search 1 8 [3] [] 3 4 400
                          _ _ _ _ H))).
  - reflexivity.
  - reflexivity.
  - lia.
  - lia.
Defined.

(** ** The tuples of [powerset] *)

Lemma combinations_spec {A} (s : list A) (r : nat) (t : list A) :
  t ∈ combinations s r ↔ sublist t s ∧ length t = r.
Proof.
  revert r t. induction s as [|x s IH]; intros r t.
  - destruct r as [|r]; simpl.
    + rewrite list_elem_of_singleton. split.
      * intros ->. split; [constructor | done].
      * intros [_ Hl]. by apply nil_length_inv.
    + split; [intros H; by apply elem_of_nil in H |].
      intros [Hsub Hl]. apply sublist_nil_r in Hsub. by subst.
  - destruct r as [|r]; simpl.
    + rewrite list_elem_of_singleton. split.
      * intros ->. split; [apply sublist_nil_l | done].
      * intros [_ Hl]. by apply nil_length_inv.
    + rewrite elem_of_app, list_elem_of_fmap. split.
      * intros [(t' & -> & Ht') | Ht].
        -- apply IH in Ht' as [Hsub <-]. split; [by constructor | done].
        -- apply IH in Ht as [Hsub Hl]. split; [by constructor | done].
      * intros [Hsub Hl]. apply sublist_cons_r in Hsub as [Hsub | (t' & -> & Hsub)].
        -- right. by apply IH.
        -- left. exists t'. split; [done |]. apply IH. simpl in Hl.
           split; [done | lia].
Qed.

Lemma powerset_lookup_total {A} (s : list A) (t : list A) :
  t ∈ powerset s ↔ ∃ r, (r ≤ length s)%nat ∧ t ∈ combinations s r.
Proof.
  unfold powerset. rewrite list_elem_of_In, in_concat. split.
  - intros (l & Hl & Ht). apply in_map_iff in Hl as (r & <- & Hr).
    apply list_elem_of_In, elem_of_seq in Hr. exists r.
    split; [lia | by apply list_elem_of_In].
  - intros (r & Hr & Ht). exists (combinations s r). split.
    + apply in_map, list_elem_of_In, elem_of_seq. lia.
    + by apply list_elem_of_In.
Qed.

Lemma powerset_elem_sublist {A} (s t : list A) :
  t ∈ powerset s → sublist t s.
Proof.
  rewrite powerset_lookup_total.
  intros (r & _ & Ht). by apply combinations_spec in Ht as [? _].
Qed.

(** X9.  [powerset] yields the tuples that keep some of the elements, in
    their order: a tuple is yielded exactly when it is a sublist of the
    input. *)
Theorem powerset_yields_sublists {A} (s t : list A) :
  t ∈ powerset s ↔ sublist t s.
Proof.
  split; [apply powerset_elem_sublist |].
  intros Hsub. apply powerset_lookup_total. exists (length t). split.
  - by apply sublist_length.
  - by apply combinations_spec.
Qed.

Lemma list_sum_seq_shift (F : nat → nat) (n : nat) :
  list_sum (map F (seq 0 (S n)))
  = (F 0%nat + list_sum (map (λ r, F (S r)) (seq 0 n)))%nat.
Proof.
  change (seq 0 (S n)) with (0%nat :: seq 1 n).
  rewrite <- seq_shift. cbn [map list_sum]. by rewrite map_map.
Qed.

Lemma list_sum_map_plus {A} (F G : A → nat) (l : list A) :
  list_sum (map (λ r, (F r + G r)%nat) l)
  = (list_sum (map F l) + list_sum (map G l))%nat.
Proof. induction l as [|x l IH]; simpl; [done | lia]. Qed.

Lemma combinations_count {A} (s : list A) (n : nat) :
  (length s ≤ n)%nat →
  list_sum (map (λ r, length (combinations s r)) (seq 0 (S n)))
  = (2 ^ length s)%nat.
Proof.
  revert n. induction s as [|x s IH]; intros n Hn.
  - rewrite list_sum_seq_shift. simpl.
    assert (list_sum (map (λ _ : nat, 0%nat) (seq 0 n)) = 0%nat) as ->; [| done].
    generalize (seq 0 n). intros l. induction l; simpl; [done | lia].
  - simpl in Hn. destruct n as [|n]; [lia |].
    rewrite list_sum_seq_shift.
    change (length (combinations (x :: s) 0)) with 1%nat.
    assert (list_sum (map (λ r, length (combinations (x :: s) (S r))) (seq 0 (S n)))
            = (list_sum (map (λ r, length (combinations s r)) (seq 0 (S n)))
               + list_sum (map (λ r, length (combinations s (S r))) (seq 0 (S n))))%nat)
      as ->.
    { rewrite <- list_sum_map_plus. f_equal. apply map_ext. intros r.
      simpl. by rewrite length_app, length_map. }
    rewrite (IH n) by lia.
    pose proof (IH (S n)) as IH'. rewrite list_sum_seq_shift in IH'.
    assert (length (combinations s 0) = 1%nat) as H0 by (by destruct s).
    rewrite H0 in IH'. specialize (IH' ltac:(lia)).
    change (length (x :: s)) with (S (length s)). rewrite Nat.pow_succ_r'.
    lia.
Qed.

(** X10.  [powerset] of [n] elements yields [2 ^ n] tuples. *)
Theorem powerset_length {A} (s : list A) :
  length (powerset s) = (2 ^ length s)%nat.
Proof.
  unfold powerset. rewrite length_concat, map_map.
  by apply combinations_count.
Qed.

(** X11.  The tuples come by increasing length, the empty tuple first (as in
    the docstring: [() (1,) (2,) (3,) (1,2) (1,3) (2,3) (1,2,3)]). *)
Theorem powerset_by_length {A} (s : list A) :
  head (powerset s) = Some [] ∧
  StronglySorted (λ t u, (length t ≤ length u)%nat) (powerset s).
Proof.
  split.
  - unfold powerset. simpl. by destruct s.
  - unfold powerset. generalize (S (length s)). intros n.
    induction n as [|n IH]; [constructor |].
    rewrite seq_S, map_app, concat_app. simpl. rewrite app_nil_r.
    apply StronglySorted_app_2; [| exact IH |].
    + intros t u Ht Hu. apply combinations_spec in Hu as [_ Hu].
      apply list_elem_of_In, in_concat in Ht as (l & Hl & Ht).
      apply in_map_iff in Hl as (r & <- & Hr).
      apply list_elem_of_In, elem_of_seq in Hr.
      apply list_elem_of_In, combinations_spec in Ht as [_ Ht]. lia.
    + assert (Forall (λ t, length t = n) (combinations s n)) as Hall.
      { apply Forall_forall. intros t Ht.
        by apply combinations_spec in Ht as [_ ?]. }
      induction Hall as [|t l Ht Hall IHl]; constructor; [done |].
      apply Forall_forall. intros u Hu. rewrite Forall_forall in Hall.
      rewrite Ht, (Hall u Hu). done.
Qed.

(** ** What [load_pokemon_moves] loads *)

Lemma same_request_refl s : same_request s s.
Proof. by repeat split. Qed.

Lemma same_request_trans s1 s2 s3 :
  same_request s1 s2 → same_request s2 s3 → same_request s1 s3.
Proof.
  unfold same_request. intros H1 H2.
  destruct H1 as (?&?&?&?&?&?&?&?&?&?&?&?).
  destruct H2 as (?&?&?&?&?&?&?&?&?&?&?&?).
  repeat split; congruence.
Qed.

Lemma records_of_append pm p vg move method rec p' vg' move' method' :
  records_of (append_record pm p vg move method rec) p' vg' move' method'
  = if bool_decide (p = p' ∧ vg = vg' ∧ move = move' ∧ method = method')
    then records_of pm p' vg' move' method' ++ [rec]
    else records_of pm p' vg' move' method'.
Proof.
  unfold records_of, append_record, dd_get.
  destruct (decide (p = p')) as [<- | Hp].
  2: { rewrite lookup_insert_ne by done.
       rewrite bool_decide_false; [done | by intros [? _]]. }
  rewrite lookup_insert_eq. simpl.
  destruct (decide (vg = vg')) as [<- | Hvg].
  2: { rewrite lookup_insert_ne by done.
       rewrite bool_decide_false; [done | by intros (_ & ? & _)]. }
  rewrite lookup_insert_eq. simpl.
  destruct (decide (move = move')) as [<- | Hm].
  2: { rewrite lookup_insert_ne by done.
       rewrite bool_decide_false; [done | by intros (_ & _ & ? & _)]. }
  rewrite lookup_insert_eq. simpl.
  destruct (decide (method = method')) as [<- | Hmd].
  2: { rewrite lookup_insert_ne by done.
       rewrite bool_decide_false; [done | by intros (_ & _ & _ & ?)]. }
  rewrite lookup_insert_eq. simpl.
  by rewrite bool_decide_true.
Qed.

(** What one turn of the loop does, branch by branch. *)
Lemma load_row_spec bc sc st r st' :
  load_row bc sc st r = Ok st' →
  let self := ls_self st in
  let self' := ls_self st' in
  same_request self self' ∧
  ((row_move r ∈ goal_moves self ∧
    ∃ cost,
      goal_move_cost self (row_version_group r) (row_method r) = Ok cost ∧
      movepools self'
      = <[row_chain r :=
            <[row_move r :=
                Z.min (default cost
                         (dd_get ∅ (movepools self) (row_chain r)
                            !! row_move r)) cost]>
              (dd_get ∅ (movepools self) (row_chain r))]> (movepools self) ∧
      pokemon_moves self'
      = append_record (pokemon_moves self) (row_pokemon r)
          (row_version_group r) (row_move r) (row_method r)
          (row_level r, cost) ∧
      smeargle_families self' = smeargle_families self ∧
      ((row_method r ≠ "egg" ∧
        learnpools self'
        = <[row_chain r :=
              dd_get ∅ (learnpools self) (row_chain r) ∪ {[row_move r]}]>
            (learnpools self) ∧
        non_egg_moves st' = non_egg_moves st ∪ {[row_move r]} ∧
        easy_moves st'
        = if bool_decide (cost < bc) then easy_moves st ∪ {[row_move r]}
          else easy_moves st) ∨
       (row_method r = "egg" ∧ learnpools self' = learnpools self ∧
        non_egg_moves st' = non_egg_moves st ∧
        easy_moves st' = easy_moves st))) ∨
   ((row_move r ∉ goal_moves self) ∧
    movepools self' = movepools self ∧ learnpools self' = learnpools self ∧
    non_egg_moves st' = non_egg_moves st ∧ easy_moves st' = easy_moves st ∧
    ∃ chain,
      evolution_chains self !! row_pokemon r = Some chain ∧
      ((row_move r = sketch self ∧
        smeargle_families self' = smeargle_families self ∪ {[chain]} ∧
        pokemon_moves self'
        = append_record (pokemon_moves self) (row_pokemon r)
            (row_version_group r) (row_move r) (row_method r)
            (row_level r, sc)) ∨
       (row_move r ≠ sketch self ∧
        smeargle_families self' = smeargle_families self ∧
        ((evolution_moves self !! chain ≠ Some (row_move r) ∧ st' = st) ∨
         (evolution_moves self !! chain = Some (row_move r) ∧
          pokemon_moves self'
          = append_record (pokemon_moves self) (row_pokemon r)
              (row_version_group r) (row_move r) (row_method r)
              (row_level r, 1))))))).
Proof.
  unfold load_row. intros H. simpl.
  case_bool_decide as Hgoal.
  - destruct (goal_move_cost _ _ _) as [e | cost] eqn:Hcost; [done |].
    simpl in H. case_bool_decide as Hegg.
    + injection H as <-. simpl. split; [by repeat split |].
      left. split; [done |]. exists cost. split; [done |].
      split; [done |]. split; [done |]. split; [done |].
      left. by repeat split.
    + injection H as <-. simpl. split; [by repeat split |].
      left. split; [done |]. exists cost. split; [done |].
      split; [done |]. split; [done |]. split; [done |].
      right. repeat split. by destruct (decide (row_method r = "egg")).
  - case_bool_decide as Hsketch.
    + unfold getitem in H.
      destruct (evolution_chains (ls_self st) !! row_pokemon r)
        as [chain|] eqn:Hchain; [| done].
      simpl in H. injection H as <-. simpl. split; [by repeat split |].
      right. split; [done |]. repeat split. exists chain.
      split; [done |]. left. by repeat split.
    + unfold getitem in H.
      destruct (evolution_chains (ls_self st) !! row_pokemon r)
        as [chain|] eqn:Hchain; [| done].
      simpl in H. case_bool_decide as Hevo.
      * injection H as <-. split; [apply same_request_refl |].
        right. split; [done |]. repeat split. exists chain.
        split; [done |]. right. split; [done |]. split; [done |].
        left. split; [| done]. intros Heq. by rewrite Heq in Hevo.
      * injection H as <-. simpl. split; [by repeat split |].
        right. split; [done |]. repeat split. exists chain.
        split; [done |]. right. split; [done |]. split; [done |].
        right. split; [| done].
        symmetry; first [exact Hevo | by apply dec_stable].
Qed.

Lemma for_each_prefix_inv {A S} (I : list A → S → Prop) (l : list A)
    (body : S → A → result S) (st st' : S) :
  (∀ pre x st st', x ∈ l → I pre st → body st x = Ok st' → I (pre ++ [x]) st') →
  I [] st → for_each l body st = Ok st' → I l st'.
Proof.
  intros Hstep.
  assert (∀ rest pre st, (∀ x, x ∈ rest → x ∈ l) → I pre st →
            for_each rest body st = Ok st' → I (pre ++ rest) st') as Hgen.
  { induction rest as [|x rest IH]; intros pre st0 Hsub Hpre Hrun; simpl in Hrun.
    - injection Hrun as <-. by rewrite app_nil_r.
    - destruct (body st0 x) as [e | st1] eqn:Hx; [done |].
      replace (pre ++ x :: rest) with ((pre ++ [x]) ++ rest)
        by (by rewrite <- app_assoc).
      apply (IH _ st1); [| | done].
      + intros y Hy. apply Hsub. by right.
      + eapply Hstep; [| exact Hpre | exact Hx]. apply Hsub. left. }
  intros H0 Hrun. by apply (Hgen l [] st).
Qed.

Section LoaderLoop.
Variable self0 : MovesetSearch.
Variables bc sc : Z.

Lemma load_inv_init :
  load_inv self0 bc sc [] {| ls_self := self0; easy_moves := ∅; non_egg_moves := ∅ |}.
Proof.
  split; simpl.
  - apply same_request_refl.
  - intros. by rewrite app_nil_r.
  - intros m. split; [set_solver |].
    intros (r & Hr & _). by apply elem_of_nil in Hr.
  - intros m. split; [set_solver |].
    intros (r & Hr & _). by apply elem_of_nil in Hr.
  - intros f. split; [by left |].
    intros [? | (r & Hr & _)]; [done | by apply elem_of_nil in Hr].
  - intros chain m. split; [by left |].
    intros [? | (r & Hr & _)]; [done | by apply elem_of_nil in Hr].
  - intros chain m c0 H. exists c0. split; [done | lia].
  - intros r Hr. by apply elem_of_nil in Hr.
  - intros chain m c H. by left.
  - intros p H. by left.
Qed.

Lemma goal_move_cost_request s s' vg method :
  same_request s s' → goal_move_cost s' vg method = goal_move_cost s vg method.
Proof.
  intros (Hc & _ & _ & _ & _ & _ & Hg & _).
  unfold goal_move_cost. by rewrite Hc, Hg.
Qed.

Lemma row_cost_request s s' r :
  same_request s s' → row_cost s' sc r = row_cost s sc r.
Proof.
  intros Hreq. pose proof (goal_move_cost_request _ _ (row_version_group r)
                             (row_method r) Hreq) as Hcost.
  destruct Hreq as (_ & Hs & _ & _ & Hgm & _ & _ & _ & Hec & Hem & _).
  unfold row_cost. by rewrite Hgm, Hs, Hec, Hem, Hcost.
Qed.

Lemma dd_get_insert {V} (d : V) (m : gmap Z V) k v k' :
  dd_get d (<[k := v]> m) k' = if bool_decide (k = k') then v else dd_get d m k'.
Proof.
  unfold dd_get. case_bool_decide as Hk.
  - subst. by rewrite lookup_insert_eq.
  - by rewrite lookup_insert_ne.
Qed.

Lemma exists_snoc {A} (P : A → Prop) (pre : list A) (x : A) :
  (∃ r, r ∈ pre ++ [x] ∧ P r) ↔ (∃ r, r ∈ pre ∧ P r) ∨ P x.
Proof.
  split.
  - intros (r & Hr & HP). apply elem_of_app in Hr as [Hr | Hr].
    + left. by exists r.
    + apply list_elem_of_singleton in Hr as ->. by right.
  - intros [(r & Hr & HP) | HP].
    + exists r. split; [apply elem_of_app; by left | done].
    + exists x. split; [apply elem_of_app; right; left | done].
Qed.

Lemma omap_snoc {A B} (f : A → option B) (pre : list A) (x : A) :
  omap f (pre ++ [x]) = omap f pre ++ match f x with Some y => [y] | None => [] end.
Proof. rewrite omap_app. simpl. by destruct (f x). Qed.

Lemma append_record_creature pm p vg move method rec p' :
  is_Some (append_record pm p vg move method rec !! p') →
  p' = p ∨ is_Some (pm !! p').
Proof.
  unfold append_record. destruct (decide (p = p')) as [-> | Hne].
  - by left.
  - rewrite lookup_insert_ne by done. by right.
Qed.

Lemma load_row_inv pre st r st' :
  load_inv self0 bc sc pre st → load_row bc sc st r = Ok st' → load_inv self0 bc sc (pre ++ [r]) st'.
Proof.
  intros Hinv Hrow. apply load_row_spec in Hrow as [Hreq' Hcase].
  simpl in Hreq', Hcase.
  pose proof (li_request _ _ _ _ _ Hinv) as Hreq.
  pose proof (goal_move_cost_request _ _ (row_version_group r) (row_method r)
                Hreq) as Hgc.
  pose proof (row_cost_request _ _ r Hreq) as Hrc.
  pose proof Hreq as (_ & Hsk & _ & _ & Hgm & _ & _ & _ & Hec & Hem & _).
  rewrite Hgm, Hgc in Hcase. rewrite Hsk, Hec, Hem in Hcase.
  assert (same_request self0 (ls_self st')) as Hreq0
    by (by eapply same_request_trans).
  destruct Hcase as
    [(Hgoal & cost & Hcost & Hpool & Hpm & Hsm & Hegg)
    |(Hgoal & Hpool & Hlp & Hne & Hez & chain & Hchain & Hrest)].
  - (* a goal move *)
    assert (row_cost self0 sc r = Some cost) as Hrcost.
    { unfold row_cost. rewrite bool_decide_true by done. by rewrite Hcost. }
    split.
    + exact Hreq0.
    + intros p vg move method. rewrite Hpm, records_of_append, omap_snoc.
      rewrite (li_records _ _ _ _ _ Hinv).
      assert (row_record self0 sc p vg move method r
              = if bool_decide (row_pokemon r = p ∧ row_version_group r = vg ∧
                                row_move r = move ∧ row_method r = method)
                then Some (row_level r, cost) else None) as ->.
      { unfold row_record. rewrite Hrcost. done. }
      destruct (decide (row_pokemon r = p ∧ row_version_group r = vg ∧
                        row_move r = move ∧ row_method r = method)).
      * rewrite !bool_decide_true by done. by rewrite <- app_assoc.
      * rewrite !bool_decide_false by done. by rewrite app_nil_r.
    + intros m. rewrite exists_snoc, <- (li_non_egg _ _ _ _ _ Hinv).
      destruct Hegg as [(Hm & _ & -> & _) | (Hm & _ & -> & _)].
      * rewrite elem_of_union, elem_of_singleton. split.
        -- intros [? | ->]; [by left | by right].
        -- intros [? | (-> & _)]; [by left | by right].
      * split; [by left |]. intros [? | (_ & _ & ?)]; done.
    + intros m. rewrite exists_snoc, <- (li_easy _ _ _ _ _ Hinv).
      destruct Hegg as [(Hm & _ & _ & ->) | (Hm & _ & _ & ->)].
      * destruct (decide (cost < bc)) as [Hlt | Hlt];
          [rewrite bool_decide_true by done
          | rewrite bool_decide_false by done].
        -- rewrite elem_of_union, elem_of_singleton. split.
           ++ intros [? | ->]; [by left | right].
              repeat split; try done. by exists cost.
           ++ intros [? | (-> & _)]; [by left | by right].
        -- split; [by left |].
           intros [? | (_ & _ & _ & c' & Hc' & Hlt')]; [done |].
           rewrite Hcost in Hc'. injection Hc' as <-. done.
      * split; [by left |]. intros [? | (_ & _ & ? & _)]; done.
    + intros f. rewrite Hsm, exists_snoc, (li_smeargle _ _ _ _ _ Hinv).
      split; [tauto |]. intros [? | [? | (? & _)]]; tauto.
    + intros ch m. rewrite exists_snoc.
      destruct Hegg as [(Hm & -> & _) | (Hm & -> & _)].
      * rewrite dd_get_insert.
        destruct (decide (row_chain r = ch)) as [Hch | Hch];
          [rewrite bool_decide_true by done
          | rewrite bool_decide_false by done].
        -- subst ch. rewrite elem_of_union, elem_of_singleton.
           rewrite (li_learnpools _ _ _ _ _ Hinv). split.
           ++ intros [[? | ?] | ->]; [by left | by right; left | right; right].
              by repeat split.
           ++ intros [? | [? | (_ & -> & _)]];
                [left; by left | left; by right | by right].
        -- rewrite (li_learnpools _ _ _ _ _ Hinv). split.
           ++ intros [? | ?]; [by left | by right; left].
           ++ intros [? | [? | (? & _)]]; [by left | by right | done].
      * rewrite (li_learnpools _ _ _ _ _ Hinv). split.
        -- intros [? | ?]; [by left | by right; left].
        -- intros [? | [? | (_ & _ & _ & ?)]]; [by left | by right | done].
    + intros ch m c0 H0.
      destruct (li_pool_lower _ _ _ _ _ Hinv ch m c0 H0) as (c & Hc & Hle).
      rewrite Hpool, dd_get_insert.
      destruct (decide (row_chain r = ch)) as [Hch | Hch];
        [rewrite bool_decide_true by done
        | rewrite bool_decide_false by done].
      * subst ch. destruct (decide (row_move r = m)) as [<- | Hm].
        -- rewrite lookup_insert_eq. eexists. split; [done |].
           rewrite Hc. simpl. lia.
        -- rewrite lookup_insert_ne by done. by exists c.
      * by exists c.
    + intros r' Hr' Hg'. apply elem_of_app in Hr' as [Hr' | Hr'].
      * destruct (li_pool_rows _ _ _ _ _ Hinv r' Hr' Hg') as (c & cost' & Hc' & Hc & Hle).
        rewrite Hpool, dd_get_insert.
        destruct (decide (row_chain r = row_chain r')) as [Hch | Hch];
          [rewrite bool_decide_true by done
          | rewrite bool_decide_false by done].
        -- destruct (decide (row_move r = row_move r')) as [Hm | Hm].
           ++ rewrite Hm, lookup_insert_eq. eexists _, cost'.
              split; [done |]. split; [done |].
              rewrite Hch, Hc. simpl. lia.
           ++ rewrite lookup_insert_ne by done. rewrite Hch. by exists c, cost'.
        -- by exists c, cost'.
      * apply list_elem_of_singleton in Hr' as ->.
        rewrite Hpool, dd_get_insert, bool_decide_true by done.
        rewrite lookup_insert_eq. eexists _, cost.
        split; [done |]. split; [done |]. lia.
    + intros ch m c. rewrite Hpool, dd_get_insert, exists_snoc.
      destruct (decide (row_chain r = ch)) as [Hch | Hch];
        [rewrite bool_decide_true by done
        | rewrite bool_decide_false by done].
      * subst ch. destruct (decide (row_move r = m)) as [<- | Hm].
        -- rewrite lookup_insert_eq. intros [= <-].
           destruct (dd_get ∅ (movepools (ls_self st)) (row_chain r)
                       !! row_move r) as [old|] eqn:Hold; simpl.
           ++ destruct (Z.min_spec old cost) as [[_ ->] | [_ ->]].
              ** destruct (li_pool_attained _ _ _ _ _ Hinv _ _ _ Hold) as [? | ?];
                   [by left | by right; left].
              ** right. right. by repeat split.
           ++ rewrite Z.min_id. right. right. by repeat split.
        -- rewrite lookup_insert_ne by done. intros Hc.
           destruct (li_pool_attained _ _ _ _ _ Hinv _ _ _ Hc) as [? | ?];
             [by left | by right; left].
      * intros Hc.
        destruct (li_pool_attained _ _ _ _ _ Hinv _ _ _ Hc) as [? | ?];
          [by left | by right; left].
    + intros p. rewrite Hpm, exists_snoc. intros Hp.
      apply append_record_creature in Hp as [-> | Hp]; [right; by right |].
      destruct (li_creatures _ _ _ _ _ Hinv p Hp) as [? | ?];
        [by left | right; by left].
  - (* Sketch or an evolution move *)
    assert (∀ p vg move method c,
              row_cost self0 sc r = c →
              pokemon_moves (ls_self st')
              = match c with
                | Some c => append_record (pokemon_moves (ls_self st))
                              (row_pokemon r) (row_version_group r)
                              (row_move r) (row_method r) (row_level r, c)
                | None => pokemon_moves (ls_self st)
                end →
              records_of (pokemon_moves (ls_self st')) p vg move method
              = records_of (pokemon_moves self0) p vg move method
                ++ omap (row_record self0 sc p vg move method) (pre ++ [r]))
      as Hrecords.
    { intros p vg move method c Hc Hpm. rewrite Hpm, omap_snoc.
      assert (row_record self0 sc p vg move method r
              = if bool_decide (row_pokemon r = p ∧ row_version_group r = vg ∧
                                row_move r = move ∧ row_method r = method)
                then (λ c, (row_level r, c)) <$> c else None) as ->.
      { unfold row_record. by rewrite Hc. }
      destruct c as [c|].
      - rewrite records_of_append, (li_records _ _ _ _ _ Hinv).
        destruct (decide (row_pokemon r = p ∧ row_version_group r = vg ∧
                          row_move r = move ∧ row_method r = method)).
        + rewrite !bool_decide_true by done. simpl. by rewrite <- app_assoc.
        + rewrite !bool_decide_false by done. by rewrite app_nil_r.
      - rewrite (li_records _ _ _ _ _ Hinv).
        destruct (bool_decide _); simpl; by rewrite app_nil_r. }
    assert (row_cost self0 sc r
            = if bool_decide (row_move r = sketch self0) then Some sc
              else if bool_decide
                        (evolution_moves self0 !! chain = Some (row_move r))
                   then Some 1 else None) as Hrcost.
    { unfold row_cost. rewrite bool_decide_false by done.
      case_bool_decide; [done |]. rewrite Hchain. done. }
    split.
    + exact Hreq0.
    + intros p vg move method.
      apply (Hrecords _ _ _ _ _ eq_refl). rewrite Hrcost.
      destruct Hrest as [(Hsketch & _ & Hpm) | (Hns & _ & [(Hne' & ->) | (He & Hpm)])].
      * by rewrite bool_decide_true.
      * rewrite bool_decide_false by done. by rewrite bool_decide_false.
      * rewrite bool_decide_false by done. by rewrite bool_decide_true.
    + intros m. rewrite exists_snoc, <- (li_non_egg _ _ _ _ _ Hinv), Hne.
      split; [by left |]. intros [? | (<- & ? & _)]; done.
    + intros m. rewrite exists_snoc, <- (li_easy _ _ _ _ _ Hinv), Hez.
      split; [by left |]. intros [? | (<- & ? & _)]; done.
    + intros f. rewrite exists_snoc.
      destruct Hrest as [(Hsketch & -> & _) | (Hns & -> & _)].
      * rewrite elem_of_union, elem_of_singleton, (li_smeargle _ _ _ _ _ Hinv).
        split.
        -- intros [[? | ?] | ->]; [by left | by right; left | right; right].
           by repeat split.
        -- intros [? | [? | (_ & _ & Hf)]].
           ++ left. by left.
           ++ left. by right.
           ++ right. rewrite Hchain in Hf. by injection Hf.
      * rewrite (li_smeargle _ _ _ _ _ Hinv).
        split; [tauto |]. intros [? | [? | (_ & ? & _)]]; tauto.
    + intros ch m. rewrite exists_snoc, Hlp, (li_learnpools _ _ _ _ _ Hinv).
      split; [tauto |]. intros [? | [? | (_ & <- & ? & _)]]; tauto.
    + intros ch m c0 H0. rewrite Hpool. by apply (li_pool_lower _ _ _ _ _ Hinv).
    + intros r' Hr' Hg'. rewrite Hpool.
      apply elem_of_app in Hr' as [Hr' | Hr'].
      * by apply (li_pool_rows _ _ _ _ _ Hinv).
      * apply list_elem_of_singleton in Hr' as ->. done.
    + intros ch m c. rewrite Hpool, exists_snoc. intros Hc.
      destruct (li_pool_attained _ _ _ _ _ Hinv _ _ _ Hc) as [? | ?];
        [by left | by right; left].
    + intros p. rewrite exists_snoc. intros Hp.
      assert (p = row_pokemon r ∨ is_Some (pokemon_moves (ls_self st) !! p))
        as [-> | Hp'].
      { destruct Hrest as [(_ & _ & Hpm) | (_ & _ & [(_ & ->) | (_ & Hpm)])].
        - rewrite Hpm in Hp. by apply append_record_creature in Hp.
        - by right.
        - rewrite Hpm in Hp. by apply append_record_creature in Hp. }
      * right. by right.
      * destruct (li_creatures _ _ _ _ _ Hinv p Hp') as [? | ?];
          [by left | right; by left].
Qed.
End LoaderLoop.

Lemma load_pokemon_moves_inv self table ec sel self' easy non_egg :
  load_pokemon_moves self table ec sel = Ok (self', (easy, non_egg)) →
  ∃ sc bc,
    costs self !! "sketch" = Some sc ∧ costs self !! "breed" = Some bc ∧
    load_inv (set_smeargle_families ∅ self) bc sc
      (query_pokemon_moves self table ec sel)
      {| ls_self := self'; easy_moves := easy; non_egg_moves := non_egg |}.
Proof.
  unfold load_pokemon_moves, cost_of. simpl.
  destruct (costs self !! "sketch") as [sc|]; [| done].
  destruct (costs self !! "breed") as [bc|]; [| done]. simpl.
  destruct (for_each _ _ _) as [e | st] eqn:Hloop; [done |].
  simpl. intros [= <- <- <-]. exists sc, bc. split; [done |]. split; [done |].
  destruct st as [s ez ne]. simpl.
  eapply (for_each_prefix_inv
            (load_inv (set_smeargle_families ∅ self) bc sc));
    [| apply load_inv_init | exact Hloop].
  intros pre x st st' _. apply load_row_inv.
Qed.

#[local] Instance level_le_trans : Transitive level_le.
Proof. unfold level_le. intros a b c. lia. Qed.

#[local] Instance level_le_total : Total level_le.
Proof. unfold level_le. intros a b. lia. Qed.

(** What the query keeps of the table, and its order. *)
Lemma query_pokemon_moves_rows self table ec sel r :
  r ∈ query_pokemon_moves self table ec sel →
  r ∈ table ∧
  is_Some (generation_id_by_version_group self !! row_version_group r) ∧
  (row_chain r ∉ excluded_families self) ∧
  (truthy ec = true → sel = "family" → Some (row_chain r) = ec) ∧
  (truthy ec = true → sel = "others" → Some (row_chain r) ≠ ec).
Proof.
  unfold query_pokemon_moves. rewrite merge_sort_Permutation.
  intros Hr.
  assert (r ∈ (if bool_decide (excluded_families self ≠ ∅) then
      List.filter (λ r, bool_decide (row_chain r ∉ excluded_families self))
        (List.filter (λ r,
             bool_decide (row_level r > 100)
             || bool_decide (row_move r ∈ goal_moves self)
             || bool_decide (row_move r = sketch self)
             || bool_decide
                  (row_move r ∈ (map_to_list (evolution_moves self)).*2))
           (List.filter (λ r, bool_decide
             (row_version_group r ∈ dom (generation_id_by_version_group self)))
             table))
    else
        (List.filter (λ r,
             bool_decide (row_level r > 100)
             || bool_decide (row_move r ∈ goal_moves self)
             || bool_decide (row_move r = sketch self)
             || bool_decide
                  (row_move r ∈ (map_to_list (evolution_moves self)).*2))
           (List.filter (λ r, bool_decide
             (row_version_group r ∈ dom (generation_id_by_version_group self)))
             table))) ∧
     (truthy ec = true → sel = "family" → Some (row_chain r) = ec) ∧
     (truthy ec = true → sel = "others" → Some (row_chain r) ≠ ec))
    as (Hr' & Hfam & Hoth).
  { destruct (truthy ec) eqn:Htr.
    - case_bool_decide as Hfamily.
      + apply list_elem_of_In, filter_In in Hr as [Hr Hc].
        apply bool_decide_eq_true in Hc. apply list_elem_of_In in Hr.
        split; [done |]. split; [done |]. intros _ ->. done.
      + case_bool_decide as Hothers.
        * apply list_elem_of_In, filter_In in Hr as [Hr Hc].
          apply bool_decide_eq_true in Hc. apply list_elem_of_In in Hr.
          split; [done |]. split; [done |]. done.
        * split; [done |]. split; done.
    - split; [done |]. split; done. }
  assert (r ∈ List.filter (λ r,
             bool_decide (row_level r > 100)
             || bool_decide (row_move r ∈ goal_moves self)
             || bool_decide (row_move r = sketch self)
             || bool_decide
                  (row_move r ∈ (map_to_list (evolution_moves self)).*2))
           (List.filter (λ r, bool_decide
             (row_version_group r ∈ dom (generation_id_by_version_group self)))
             table) ∧ row_chain r ∉ excluded_families self) as (Hr'' & Hex).
  { case_bool_decide as Hne.
    - apply list_elem_of_In, filter_In in Hr' as [Hr' Hc].
      apply bool_decide_eq_true in Hc. by apply list_elem_of_In in Hr'.
    - split; [done |]. rewrite Hne. set_solver. }
  apply list_elem_of_In, filter_In in Hr'' as [Hr'' _].
  apply filter_In in Hr'' as [Hr'' Hvg].
  apply bool_decide_eq_true, elem_of_dom in Hvg.
  apply list_elem_of_In in Hr''. done.
Qed.

Lemma query_pokemon_moves_sorted self table ec sel :
  StronglySorted level_le (query_pokemon_moves self table ec sel).
Proof. unfold query_pokemon_moves. apply StronglySorted_merge_sort; apply _. Qed.

Lemma family_load :
  ∃ self1,
    load_pokemon_moves family_request family_table (Some 10) "family"
    = Ok (self1, ({[85; 86]}, {[85; 86]})).
Proof.
  assert (snd <$> returned
            (load_pokemon_moves family_request family_table (Some 10) "family")
          = Some ({[85; 86]}, {[85; 86]})) as H
    by (vm_compute; reflexivity).
  destruct (load_pokemon_moves family_request family_table (Some 10) "family")
    as [e | [self1 sets]]; simpl in H; [discriminate |].
  injection H as ->. by exists self1.
Qed.

(** X12.  The two sets [load_pokemon_moves] returns.  [non_egg_moves] holds
    the goal moves some row of the query teaches by another method than
    'egg', [easy_moves] those of them that some such row gives for less
    than the cost of breeding; so [easy_moves] is within [non_egg_moves],
    which is within the goal moves. *)
Theorem load_returned_sets (self : MovesetSearch)
    (table : list pokemon_move_row) (ec : option Z) (sel : string)
    (self' : MovesetSearch) (easy non_egg : gset Z) :
  load_pokemon_moves self table ec sel = Ok (self', (easy, non_egg)) →
  let query := query_pokemon_moves self table ec sel in
  easy ⊆ non_egg ∧ non_egg ⊆ goal_moves self ∧
  (∀ m, m ∈ non_egg ↔
        ∃ r, r ∈ query ∧ row_move r = m ∧ m ∈ goal_moves self ∧
             row_method r ≠ "egg") ∧
  (∀ m, m ∈ easy ↔
        ∃ r, r ∈ query ∧ row_move r = m ∧ m ∈ goal_moves self ∧
             row_method r ≠ "egg" ∧
             ∃ cost breed,
               goal_move_cost self (row_version_group r) (row_method r)
               = Ok cost ∧
               costs self !! "breed" = Some breed ∧ cost < breed).
Proof.
  intros Hload query.
  apply load_pokemon_moves_inv in Hload as (sc & bc & Hsc & Hbc & Hinv).
  pose proof (li_non_egg _ _ _ _ _ Hinv) as Hne.
  pose proof (li_easy _ _ _ _ _ Hinv) as Hez. simpl in Hne, Hez.
  fold query in Hne, Hez.
  assert (∀ m, m ∈ easy ↔
        ∃ r, r ∈ query ∧ row_move r = m ∧ m ∈ goal_moves self ∧
             row_method r ≠ "egg" ∧
             ∃ cost breed,
               goal_move_cost self (row_version_group r) (row_method r)
               = Ok cost ∧
               costs self !! "breed" = Some breed ∧ cost < breed) as Hez'.
  { intros m. rewrite Hez. split.
    - intros (r & ? & ? & ? & ? & cost & ? & ?). exists r.
      repeat split; try done. by exists cost, bc.
    - intros (r & ? & ? & ? & ? & cost & breed & ? & Hb & ?). exists r.
      repeat split; try done. exists cost. rewrite Hbc in Hb.
      injection Hb as <-. done. }
  split; [| split; [| split; [exact Hne | exact Hez']]].
  - intros m Hm. apply Hez in Hm as (r & ? & ? & ? & ? & _).
    apply Hne. by exists r.
  - intros m Hm. by apply Hne in Hm as (r & _ & _ & ? & _).
Qed.

Lemma load_returned_sets_witness :
  ({[85; 86]} : gset Z) ⊆ {[85; 86]} ∧
  ({[85; 86]} : gset Z) ⊆ goal_moves family_request.
Proof.
  destruct family_load as [self1 Hload].
  destruct (load_returned_sets _ _ _ _ _ _ _ Hload) as (H1 & H2 & _).
  split; [exact H1 | exact H2].
Defined.

(** X13.  [movepools] holds the best cost.  After loading, every goal move
    of a row of the query has an entry for the row's family that is at
    most the row's cost; an entry present before stays, at most as high;
    and every entry is the one from before or the cost of some row. *)
Theorem load_movepools_best_cost (self : MovesetSearch)
    (table : list pokemon_move_row) (ec : option Z) (sel : string)
    (self' : MovesetSearch) (sets : gset Z * gset Z) :
  load_pokemon_moves self table ec sel = Ok (self', sets) →
  let query := query_pokemon_moves self table ec sel in
  (∀ r, r ∈ query → row_move r ∈ goal_moves self →
     ∃ c cost,
       goal_move_cost self (row_version_group r) (row_method r) = Ok cost ∧
       pool_cost self' (row_chain r) (row_move r) = Some c ∧ c ≤ cost) ∧
  (∀ chain m c0, pool_cost self chain m = Some c0 →
     ∃ c, pool_cost self' chain m = Some c ∧ c ≤ c0) ∧
  (∀ chain m c, pool_cost self' chain m = Some c →
     pool_cost self chain m = Some c ∨
     ∃ r, r ∈ query ∧ row_chain r = chain ∧ row_move r = m ∧
          m ∈ goal_moves self ∧
          goal_move_cost self (row_version_group r) (row_method r) = Ok c).
Proof.
  destruct sets as [easy non_egg]. intros Hload query.
  apply load_pokemon_moves_inv in Hload as (sc & bc & Hsc & Hbc & Hinv).
  split; [| split].
  - exact (li_pool_rows _ _ _ _ _ Hinv).
  - exact (li_pool_lower _ _ _ _ _ Hinv).
  - exact (li_pool_attained _ _ _ _ _ Hinv).
Qed.

Lemma load_movepools_best_cost_witness :
  ∃ self1 c,
    load_pokemon_moves family_request family_table (Some 10) "family"
    = Ok (self1, ({[85; 86]}, {[85; 86]})) ∧
    pool_cost self1 10 86 = Some c ∧ c ≤ 40.
Proof.
  destruct family_load as [self1 Hload].
  destruct (load_movepools_best_cost _ _ _ _ _ _ Hload) as (Hrows & _).
  destruct (Hrows {| row_pokemon := 25; row_move := 86; row_version_group := 1;
                     row_method := "machine"; row_level := 0;
                     row_chain := 10 |})
    as (c & cost & Hcost & Hc & Hle).
  - vm_compute. apply list_elem_of_here.
  - apply (bool_decide_unpack _). vm_compute. exact I.
  - exists self1, c. split; [exact Hload |]. split; [exact Hc |].
    assert (cost = 40) as <-; [| exact Hle].
    vm_compute in Hcost. by injection Hcost.
Defined.

(** X14.  [smeargle_families] is started afresh by every call: after the
    call it holds the evolution chains of the creatures with a row for
    Sketch in the query, and nothing else; it stays empty when Sketch is
    one of the goal moves. *)
Theorem load_smeargle_families (self : MovesetSearch)
    (table : list pokemon_move_row) (ec : option Z) (sel : string)
    (self' : MovesetSearch) (sets : gset Z * gset Z) :
  load_pokemon_moves self table ec sel = Ok (self', sets) →
  (∀ f, f ∈ smeargle_families self' ↔
        ∃ r, r ∈ query_pokemon_moves self table ec sel ∧
             (row_move r ∉ goal_moves self) ∧ row_move r = sketch self ∧
             evolution_chains self !! row_pokemon r = Some f) ∧
  (sketch self ∈ goal_moves self → smeargle_families self' = ∅).
Proof.
  destruct sets as [easy non_egg]. intros Hload.
  apply load_pokemon_moves_inv in Hload as (sc & bc & Hsc & Hbc & Hinv).
  pose proof (li_smeargle _ _ _ _ _ Hinv) as Hsm. simpl in Hsm.
  assert (∀ f, f ∈ smeargle_families self' ↔
        ∃ r, r ∈ query_pokemon_moves self table ec sel ∧
             (row_move r ∉ goal_moves self) ∧ row_move r = sketch self ∧
             evolution_chains self !! row_pokemon r = Some f) as Hiff.
  { intros f. rewrite Hsm. split; [| by right].
    intros [Hf | ?]; [| done]. by apply not_elem_of_empty in Hf. }
  split; [exact Hiff |].
  intros Hgoal. apply set_eq. intros f. rewrite Hiff. split.
  - intros (r & _ & Hn & Hs & _). rewrite Hs in Hn. done.
  - intros Hf. by apply not_elem_of_empty in Hf.
Qed.

Lemma load_smeargle_families_witness :
  ∃ self1,
    load_pokemon_moves family_request family_table (Some 10) "family"
    = Ok (self1, ({[85; 86]}, {[85; 86]})) ∧
    ∀ f, f ∈ smeargle_families self1 →
         ∃ r, r ∈ family_table ∧ row_move r = 166.
Proof.
  destruct family_load as [self1 Hload].
  destruct (load_smeargle_families _ _ _ _ _ _ Hload) as (Hiff & _).
  exists self1. split; [exact Hload |].
  intros f Hf. apply Hiff in Hf as (r & Hr & _ & Hs & _).
  exists r. split; [| exact Hs].
  by apply query_pokemon_moves_rows in Hr as (? & _).
Defined.

Lemma row_record_level self sc p vg move method r rec :
  row_record self sc p vg move method r = Some rec → rec.1 = row_level r.
Proof.
  unfold row_record. destruct (bool_decide _); [| done].
  destruct (row_cost self sc r); [| done]. simpl. by intros [= <-].
Qed.

Lemma omap_StronglySorted {A B} (R : relation A) (R' : relation B)
    (f : A → option B) (l : list A) :
  (∀ x y x' y', R x y → f x = Some x' → f y = Some y' → R' x' y') →
  StronglySorted R l → StronglySorted R' (omap f l).
Proof.
  intros Hf. induction 1 as [|x l Hl IH Hx]; simpl; [constructor |].
  destruct (f x) as [x'|] eqn:Hfx; [| done].
  constructor; [done |]. apply Forall_forall. intros y' Hy'.
  apply list_elem_of_omap in Hy' as (y & Hy & Hfy).
  rewrite Forall_forall in Hx. eapply Hf; [by apply Hx | done | done].
Qed.

(** X15.  The records are appended in the order of the query, which is by
    level.  Under every key [pokemon_moves] has the records from before,
    followed by one record for each row of the query with that key that
    is not skipped, in the order of the rows; the levels of the added
    records never decrease, and every added record comes from a row that
    passed the filters of the query. *)
Theorem load_records_by_level (self : MovesetSearch)
    (table : list pokemon_move_row) (ec : option Z) (sel : string)
    (self' : MovesetSearch) (sets : gset Z * gset Z)
    (p vg move : Z) (method : string) :
  load_pokemon_moves self table ec sel = Ok (self', sets) →
  ∃ sc added,
    costs self !! "sketch" = Some sc ∧
    added = omap (row_record self sc p vg move method)
              (query_pokemon_moves self table ec sel) ∧
    records_of (pokemon_moves self') p vg move method
    = records_of (pokemon_moves self) p vg move method ++ added ∧
    StronglySorted (λ a b : Z * Z, a.1 ≤ b.1) added ∧
    ∀ rec, rec ∈ added →
      ∃ r, r ∈ table ∧ row_pokemon r = p ∧ row_version_group r = vg ∧
           row_move r = move ∧ row_method r = method ∧
           row_level r = rec.1 ∧
           is_Some (generation_id_by_version_group self !! vg) ∧
           (row_chain r ∉ excluded_families self) ∧
           (truthy ec = true → sel = "family" → Some (row_chain r) = ec) ∧
           (truthy ec = true → sel = "others" → Some (row_chain r) ≠ ec).
Proof.
  destruct sets as [easy non_egg]. intros Hload.
  apply load_pokemon_moves_inv in Hload as (sc & bc & Hsc & Hbc & Hinv).
  exists sc, (omap (row_record self sc p vg move method)
                (query_pokemon_moves self table ec sel)).
  split; [done |]. split; [done |]. split; [| split].
  - exact (li_records _ _ _ _ _ Hinv p vg move method).
  - eapply omap_StronglySorted; [| apply query_pokemon_moves_sorted].
    intros x y x' y' Hxy Hx Hy.
    apply row_record_level in Hx, Hy. rewrite Hx, Hy. exact Hxy.
  - intros rec Hrec. apply list_elem_of_omap in Hrec as (r & Hr & Hrec).
    apply query_pokemon_moves_rows in Hr as (Hr & Hvg & Hex & Hfam & Hoth).
    pose proof (row_record_level _ _ _ _ _ _ _ _ Hrec) as Hlv.
    unfold row_record in Hrec. case_bool_decide as Hkey; [| done].
    destruct Hkey as (<- & <- & <- & <-). exists r. by repeat split.
Qed.

Lemma load_records_by_level_witness :
  ∃ self1 added,
    load_pokemon_moves family_request family_table (Some 10) "family"
    = Ok (self1, ({[85; 86]}, {[85; 86]})) ∧
    records_of (pokemon_moves self1) 25 1 85 "level-up"
    = records_of (pokemon_moves family_request) 25 1 85 "level-up" ++ added ∧
    StronglySorted (λ a b : Z * Z, a.1 ≤ b.1) added.
Proof.
  destruct family_load as [self1 Hload].
  destruct (load_records_by_level _ _ _ _ _ _ 25 1 85 "level-up" Hload)
    as (sc & added & _ & _ & Hrec & Hsorted & _).
  exists self1, added. split; [exact Hload |]. split; [exact Hrec | exact Hsorted].
Defined.

Lemma for_each_returns {A S} (I : S → Prop) (l : list A)
    (body : S → A → result S) (st : S) :
  (∀ st x, x ∈ l → I st → ∃ st', body st x = Ok st' ∧ I st') →
  I st → ∃ st', for_each l body st = Ok st' ∧ I st'.
Proof.
  revert st. induction l as [|x l IH]; intros st Hbody Hst; simpl.
  - by exists st.
  - destruct (Hbody st x) as (st1 & -> & Hst1); [left | done |].
    apply IH; [| done]. intros st0 x0 Hx0. apply Hbody. by right.
Qed.

Lemma goal_move_cost_returns self vg method :
  (∀ k, k ∈ ["level-up"; "machine-once"; "tutor-once"; "breed"] →
        is_Some (costs self !! k)) →
  is_Some (generation_id_by_version_group self !! vg) →
  is_Some (costs self !! method) ∨ method = "egg" →
  ∃ cost, goal_move_cost self vg method = Ok cost.
Proof.
  intros Hkeys [g Hg] Hmethod.
  assert (∀ k, k ∈ ["level-up"; "machine-once"; "tutor-once"; "breed"] →
               ∃ c, cost_of (costs self) k = Ok c) as Hcost.
  { intros k Hk. destruct (Hkeys k Hk) as [c Hc]. exists c.
    unfold cost_of. by rewrite Hc. }
  unfold goal_move_cost, getitem. rewrite Hg. simpl.
  case_bool_decide;
    [apply Hcost; apply list_elem_of_here |].
  destruct (_ && _);
    [apply Hcost; apply list_elem_of_further, list_elem_of_here |].
  destruct (_ && _);
    [apply Hcost; do 2 apply list_elem_of_further; apply list_elem_of_here |].
  case_bool_decide as Hegg;
    [apply Hcost; do 3 apply list_elem_of_further; apply list_elem_of_here |].
  destruct Hmethod as [[c Hc] | ?]; [| done].
  exists c. unfold cost_of. by rewrite Hc.
Qed.

(** X16.  When [load_pokemon_moves] returns.  With the five costs the loop
    names and the cost of every method met for a goal move in the table,
    and an evolution chain for every creature met for another move, the
    call raises nothing; the generation of a version group is never
    missing, since the query keeps only the version groups that have one.
    The call leaves the request and the tables it reads as they were. *)
Theorem load_pokemon_moves_returns (self : MovesetSearch)
    (table : list pokemon_move_row) (ec : option Z) (sel : string) :
  (∀ k, k ∈ ["sketch"; "breed"; "level-up"; "machine-once"; "tutor-once"] →
        is_Some (costs self !! k)) →
  (∀ r, r ∈ table → row_move r ∈ goal_moves self →
        is_Some (costs self !! row_method r) ∨ row_method r = "egg") →
  (∀ r, r ∈ table → row_move r ∉ goal_moves self →
        is_Some (evolution_chains self !! row_pokemon r)) →
  ∃ self' sets,
    load_pokemon_moves self table ec sel = Ok (self', sets) ∧
    same_request self self'.
Proof.
  intros Hkeys Hmethods Hchains.
  destruct (Hkeys "sketch") as [sc Hsc]; [apply list_elem_of_here |].
  destruct (Hkeys "breed") as [bc Hbc];
    [apply list_elem_of_further, list_elem_of_here |].
  unfold load_pokemon_moves, cost_of. simpl. rewrite Hsc, Hbc. simpl.
  destruct (for_each_returns
              (λ st, same_request self (ls_self st))
              (query_pokemon_moves self table ec sel)
              (load_row bc sc)
              {| ls_self := set_smeargle_families ∅ self;
                 easy_moves := ∅; non_egg_moves := ∅ |})
    as (st & -> & Hst).
  - intros st r Hr Hreq.
    apply query_pokemon_moves_rows in Hr as (Hr & Hvg & _).
    assert (∃ st', load_row bc sc st r = Ok st') as [st' Hrow].
    { pose proof Hreq as (Hc & _ & _ & _ & Hgm & _ & Hg & _ & Hec & _).
      unfold load_row.
      case_bool_decide as Hgoal.
      - rewrite Hgm in Hgoal.
        destruct (goal_move_cost_returns self (row_version_group r)
                    (row_method r)) as [cost Hcost].
        + intros k Hk. apply Hkeys.
          repeat (apply elem_of_cons in Hk as [-> | Hk]);
            try (by apply elem_of_nil in Hk);
            repeat first [apply list_elem_of_here | apply list_elem_of_further].
        + done.
        + by apply Hmethods.
        + rewrite (goal_move_cost_request _ _ _ _ Hreq), Hcost. simpl.
          destruct (bool_decide _); by eexists.
      - rewrite Hgm in Hgoal.
        destruct (Hchains r Hr Hgoal) as [chain Hchain].
        unfold getitem. rewrite Hec, Hchain. simpl.
        destruct (bool_decide _); [by eexists |].
        destruct (bool_decide _); by eexists. }
    exists st'. split; [done |].
    apply load_row_spec in Hrow as [Hreq' _]. simpl in Hreq'.
    by eapply same_request_trans.
  - simpl. by repeat split.
  - simpl. by exists (ls_self st), (easy_moves st, non_egg_moves st).
Qed.

Lemma family_table_methods r :
  r ∈ family_table → row_move r ∈ goal_moves family_request →
  is_Some (costs family_request !! row_method r) ∨ row_method r = "egg".
Proof.
  intros Hr _. left. unfold family_table in Hr.
  repeat (apply elem_of_cons in Hr as [-> | Hr]); [| | | |];
    first [ by apply elem_of_nil in Hr
          | apply (bool_decide_unpack _); vm_compute; exact I ].
Qed.

Lemma family_table_chains r :
  r ∈ family_table → row_move r ∉ goal_moves family_request →
  is_Some (evolution_chains family_request !! row_pokemon r).
Proof.
  intros Hr _. unfold family_table in Hr.
  repeat (apply elem_of_cons in Hr as [-> | Hr]); [| | | |];
    first [ by apply elem_of_nil in Hr
          | apply (bool_decide_unpack _); vm_compute; exact I ].
Qed.

Lemma default_cost_keys k :
  k ∈ ["sketch"; "breed"; "level-up"; "machine-once"; "tutor-once"]%string →
  is_Some (costs family_request !! k).
Proof.
  intros Hk.
  repeat (apply elem_of_cons in Hk as [-> | Hk]); [| | | | |];
    first [ by apply elem_of_nil in Hk
          | apply (bool_decide_unpack _); vm_compute; exact I ].
Qed.

Lemma load_pokemon_moves_returns_witness :
  ∃ self' sets,
    load_pokemon_moves family_request family_table (Some 10) "others"
    = Ok (self', sets) ∧
    same_request family_request self'.
Proof.
  exact (load_pokemon_moves_returns family_request family_table (Some 10)
           "others" default_cost_keys family_table_methods
           family_table_chains).
Defined.

Lemma row_cost_nonneg self sc r c :
  (∀ k v, costs self !! k = Some v → 0 ≤ v) → 0 ≤ sc →
  row_cost self sc r = Some c → 0 ≤ c.
Proof.
  intros Hcosts Hsc. unfold row_cost.
  assert (∀ k, returned (cost_of (costs self) k) = Some c → 0 ≤ c) as Hk.
  { intros k. unfold cost_of. destruct (costs self !! k) as [v|] eqn:Hv; [| done].
    simpl. intros [= <-]. by eapply Hcosts. }
  case_bool_decide.
  - unfold goal_move_cost, getitem.
    case_bool_decide; [apply Hk |].
    destruct (generation_id_by_version_group self !! _); [| done]. simpl.
    destruct (_ && _); [apply Hk |].
    destruct (_ && _); [apply Hk |].
    case_bool_decide; apply Hk.
  - case_bool_decide; [intros [= <-]; done |].
    destruct (evolution_chains self !! _); [| done]. simpl.
    case_bool_decide; [| done]. intros [= <-]. lia.
Qed.

Lemma learnable_records s p vg move methods method lc :
  learnable s p vg !! move = Some methods →
  methods !! method = Some lc →
  records_of (pokemon_moves s) p vg move method = lc.
Proof.
  unfold learnable, records_of. intros Hm Hl.
  unfold dd_get at 2. rewrite Hm. simpl. unfold dd_get at 1.
  by rewrite Hl.
Qed.

Lemma default_costs_nonneg k v : default_costs !! k = Some v → 0 ≤ v.
Proof.
  apply (map_Forall_lookup_1 (λ _ v, 0 ≤ v)).
  apply (bool_decide_unpack _). vm_compute. exact I.
Qed.

Lemma family_request_no_records p vg move method rec :
  rec ∈ records_of (pokemon_moves family_request) p vg move method →
  0 ≤ rec.2.
Proof.
  unfold records_of, dd_get. simpl. rewrite lookup_empty. simpl.
  rewrite lookup_empty. simpl. rewrite lookup_empty. simpl.
  rewrite lookup_empty. simpl. intros H. by apply elem_of_nil in H.
Qed.

(** X17.  Loading keeps the costs of the search non-negative.  When no cost
    of the table of costs is negative and no record present before is,
    then after [load_pokemon_moves] no transition out of a state of the
    loaded search has a negative cost. *)
Theorem loaded_costs_nonneg (o : iteration_order) (self : MovesetSearch)
    (table : list pokemon_move_row) (ec : option Z) (sel : string)
    (self' : MovesetSearch) (sets : gset Z * gset Z) :
  (∀ k v, costs self !! k = Some v → 0 ≤ v) →
  (∀ p vg move method rec,
     rec ∈ records_of (pokemon_moves self) p vg move method → 0 ≤ rec.2) →
  load_pokemon_moves self table ec sel = Ok (self', sets) →
  ∀ n c a n', search n = self' → (c, a, n') ∈ (expand o n).1 → 0 ≤ c.
Proof.
  destruct sets as [easy non_egg]. intros Hcosts Hold Hload n c a n' Hn Ht.
  apply load_pokemon_moves_inv in Hload as (sc & bc & Hsc & Hbc & Hinv).
  pose proof (li_request _ _ _ _ _ Hinv) as (Hc & _). simpl in Hc.
  eapply (expand_costs_nonneg o n); [| | exact Ht].
  - rewrite Hn, Hc. exact Hcosts.
  - intros move methods method lc r Hmove Hmeth Hr.
    rewrite <- (learnable_records _ _ _ _ _ _ _ Hmove Hmeth) in Hr.
    rewrite Hn, (li_records _ _ _ _ _ Hinv) in Hr.
    apply elem_of_app in Hr as [Hr | Hr]; [by eapply Hold |].
    apply list_elem_of_omap in Hr as (row & _ & Hrow).
    unfold row_record in Hrow. destruct (bool_decide _); [| done].
    destruct (row_cost _ sc row) as [cst|] eqn:Hcst; [| done].
    injection Hrow as <-. simpl.
    eapply (row_cost_nonneg (set_smeargle_families ∅ self) sc row);
      [exact Hcosts | by eapply Hcosts | exact Hcst].
Qed.

Lemma loaded_costs_nonneg_witness :
  ∃ self1,
    load_pokemon_moves family_request family_table (Some 10) "family"
    = Ok (self1, ({[85; 86]}, {[85; 86]})) ∧
    ∀ c a n',
      (c, a, n') ∈ (expand ascending (start_node self1 25 1)).1 → 0 ≤ c.
Proof.
  destruct family_load as [self1 Hload].
  exists self1. split; [exact Hload |].
  intros c a n'.
  exact (loaded_costs_nonneg ascending family_request family_table (Some 10)
           "family" self1 _ default_costs_nonneg family_request_no_records
           Hload (start_node self1 25 1) c a n' eq_refl).
Defined.

Lemma construct_breed_graph_returns o self :
  construct_breed_graph o self = Some (breed_graph o self).
Proof.
  destruct (construct_breed_graph_entries o self) as (self' & Hrun & _).
  unfold breed_graph. by rewrite Hrun.
Qed.

(** X18.  An easy request loads the target's family only.  When the
    family of the target (of a chain other than 0) learns every goal move
    for less than the cost of breeding, lines 103-112 do not load the
    other families: every creature with loaded moves is of the target's
    chain, and no goal move is an egg move. *)
Theorem easy_request_loads_family_only (o : iteration_order)
    (self : MovesetSearch) (table : list pokemon_move_row) (chain : Z)
    (self1 : MovesetSearch) (easy non_egg : gset Z) :
  pokemon_moves self = ∅ →
  goal_evolution_chain self = Some chain → chain ≠ 0 →
  load_pokemon_moves self table (Some chain) "family"
  = Ok (self1, (easy, non_egg)) →
  goal_moves self ⊆ easy →
  ∃ self',
    load_and_breed o self table = Ok (Some self') ∧
    pokemon_moves self' = pokemon_moves self1 ∧
    egg_moves self' = ∅ ∧
    ∀ p, is_Some (pokemon_moves self' !! p) →
         ∃ r, r ∈ table ∧ row_pokemon r = p ∧ row_chain r = chain.
Proof.
  intros Hempty Hgoal Hchain Hload Heasy.
  pose proof Hload as Hinv.
  apply load_pokemon_moves_inv in Hinv as (sc & bc & _ & _ & Hinv).
  pose proof (li_request _ _ _ _ _ Hinv) as Hreq. simpl in Hreq.
  destruct Hreq as (_ & _ & _ & _ & Hgm & _). simpl in Hgm.
  assert (easy ⊆ non_egg) as Hsub.
  { intros m Hm. apply (li_easy _ _ _ _ _ Hinv) in Hm as (r & ? & ? & ? & ? & _).
    apply (li_non_egg _ _ _ _ _ Hinv). by exists r. }
  unfold load_and_breed. rewrite Hgoal, Hload. simpl.
  rewrite Hgm.
  assert (goal_moves self ∖ easy = ∅) as Hhard.
  { apply set_eq. intros x. rewrite elem_of_difference. split.
    - intros [Hx Hn]. exfalso. by apply Hn, Heasy.
    - intros Hx. by apply not_elem_of_empty in Hx. }
  assert (goal_moves self ∖ non_egg = ∅) as Hegg.
  { apply set_eq. intros x. rewrite elem_of_difference. split.
    - intros [Hx Hn]. exfalso. by apply Hn, Hsub, Heasy.
    - intros Hx. by apply not_elem_of_empty in Hx. }
  rewrite Hhard, Hegg.
  rewrite bool_decide_false by (intros Hn; by apply Hn). simpl.
  rewrite construct_breed_graph_returns.
  eexists. split; [reflexivity |].
  unfold breed_graph.
  destruct (construct_breed_graph_entries o (set_egg_moves ∅ self1))
    as (self' & Hrun & _).
  rewrite Hrun. simpl. unfold construct_breed_graph in Hrun.
  destruct (for_each_opt _ _ _) as [br|]; [| done].
  simpl in Hrun. injection Hrun as <-. simpl.
  split; [done |]. split; [done |].
  intros p Hp.
  destruct (li_creatures _ _ _ _ _ Hinv p Hp) as [Hold | (r & Hr & <-)].
  - simpl in Hold. rewrite Hempty, lookup_empty in Hold. by destruct Hold.
  - apply query_pokemon_moves_rows in Hr as (Hr & _ & _ & Hfam & _).
    exists r. split; [done |]. split; [done |].
    assert (Some (row_chain r) = Some chain) as [= ->]; [| done].
    apply Hfam; [| done]. simpl. by apply bool_decide_eq_true.
Qed.

Lemma easy_request_loads_family_only_witness :
  ∃ self',
    load_and_breed ascending family_request family_table = Ok (Some self') ∧
    egg_moves self' = ∅.
Proof.
  destruct family_load as [self1 Hload].
  destruct (easy_request_loads_family_only ascending family_request
              family_table 10 self1 _ _ eq_refl eq_refl ltac:(lia) Hload)
    as (self' & Hrun & _ & Hegg & _).
  - done.
  - exists self'. split; [exact Hrun | exact Hegg].
Defined.

(** ** Part I of [construct_breed_graph] *)






(** ** What [handle] does to the table *)

Section HandleInvariant.
Variable o : iteration_order.
Variable bp : breed_pools.

(** A property of the calls, kept by the nested calls, and a property of
    the table, kept by the one assignment of [handle] (line 454). *)
Variable C : Z → gset Z → list Z → Prop.
Variable I : gmap Z (gmap (gset Z) Z) → Prop.

Hypothesis C_nested : ∀ group mvs path new_group learned,
  C group mvs path → mvs ≠ ∅ →
  new_group ∈ all_groups bp → new_group ∉ path ++ [group] →
  mvs ⊆ dd_get ∅ (eg1_movepools bp) new_group →
  C new_group (mvs ∖ list_to_set learned) (path ++ [group]).

Hypothesis I_assign : ∀ br group mvs path,
  C group mvs path → mvs ≠ ∅ → I br →
  I (breeds_set br group mvs
       (Z.min (breeds_get br group mvs) (Z.of_nat (length path)))).

Lemma handle_preserves depth group mvs path br b br' :
  handle o bp depth group mvs path br = Some (b, br') →
  C group mvs path → I br → I br'.
Proof.
  revert group mvs path br b br'.
  induction depth as [|depth IH]; intros group mvs path br b br'; [done |].
  simpl. intros Hrun Hcall Hbr.
  case_bool_decide as Hempty; [by injection Hrun as _ <- |].
  case_bool_decide; [by injection Hrun as _ <- |].
  revert Hrun.
  apply (for_each_opt_inv (λ st, I st.2)); [| exact Hbr].
  intros [s0 br0] new_group [s1 br1] Hng Hst. simpl in Hst.
  apply iter_set_elem, elem_of_difference in Hng as [Hng Hfresh].
  rewrite elem_of_list_to_set in Hfresh.
  case_bool_decide as Hpass; [| by intros [= _ <-]].
  apply (for_each_opt_inv (λ st, I st.2)); [| exact Hst].
  clear Hst. intros [s2 br2] learned [s3 br3] _ Hst. simpl in Hst. simpl.
  destruct (handle o bp depth new_group (mvs ∖ list_to_set learned)
              (path ++ [group]) br2) as [[ls br4]|] eqn:Hrec; [| done].
  simpl.
  assert (I br4) as H4.
  { eapply IH; [exact Hrec | | exact Hst]. by apply C_nested. }
  destruct ls; intros [= _ <-]; [| exact H4].
  replace (Z.of_nat (length (path ++ [group])) - 1)
    with (Z.of_nat (length path))
    by (rewrite length_app; simpl; lia).
  by apply I_assign.
Qed.
End HandleInvariant.

Lemma breeds_lookup_set_cases br group mvs v g k :
  breeds_lookup (breeds_set br group mvs v) g k
  = if bool_decide ((g, k) = (group, mvs)) then Some v
    else breeds_lookup br g k.
Proof.
  destruct (decide ((g, k) = (group, mvs))) as [[= -> ->] | Hne].
  - rewrite bool_decide_true by done. apply breeds_lookup_set.
  - rewrite bool_decide_false by done. by apply breeds_lookup_set_other.
Qed.

Lemma entries_lowered_refl br : entries_lowered br br.
Proof. intros g k v H. exists v. split; [done | lia]. Qed.

Lemma entries_lowered_trans br1 br2 br3 :
  entries_lowered br1 br2 → entries_lowered br2 br3 → entries_lowered br1 br3.
Proof.
  intros H12 H23 g k v H.
  destruct (H12 g k v H) as (v2 & H2 & Hle2).
  destruct (H23 g k v2 H2) as (v3 & H3 & Hle3).
  exists v3. split; [done | lia].
Qed.

Lemma entries_lowered_assign br group mvs d :
  entries_lowered br
    (breeds_set br group mvs (Z.min (breeds_get br group mvs) d)).
Proof.
  intros g k v H. rewrite breeds_lookup_set_cases.
  case_bool_decide as Heq.
  - injection Heq as -> ->. eexists. split; [done |].
    rewrite (breeds_get_lookup _ _ _ _ H). lia.
  - exists v. split; [done | lia].
Qed.

Lemma overwrite_handle_returns br :
  ∃ b br',
    handle ascending overwrite_pools (breed_depth overwrite_pools)
      5 {[85; 86]} [] br = Some (b, br').
Proof.
  destruct (handle_total ascending overwrite_pools
              (breed_depth overwrite_pools) 5 {[85; 86]} [] br)
    as [[b br'] Hrun].
  - unfold breed_depth.
    eapply Nat.le_lt_trans; [| apply Nat.lt_succ_diag_r].
    apply subseteq_size, subseteq_difference_l. done.
  - by exists b, br'.
Qed.

(** X20.  [handle] never removes an entry of the table and never raises
    one: whatever a call does, every requirement recorded before is still
    recorded after, with a number of breeds that is not greater. *)
Theorem handle_lowers_entries (o : iteration_order) (bp : breed_pools)
    (depth : nat) (group : Z) (mvs : gset Z) (path : list Z)
    (br : gmap Z (gmap (gset Z) Z)) (b : bool)
    (br' : gmap Z (gmap (gset Z) Z)) :
  handle o bp depth group mvs path br = Some (b, br') →
  entries_lowered br br'.
Proof.
  intros Hrun.
  apply (handle_preserves o bp (λ _ _ _, True) (entries_lowered br)
           ltac:(done)
           ltac:(intros br0 g k p _ _ H0; eapply entries_lowered_trans;
                 [exact H0 | apply entries_lowered_assign])
           depth group mvs path br b br' Hrun I).
  apply entries_lowered_refl.
Qed.

Lemma handle_lowers_entries_witness :
  ∃ b br',
    handle ascending overwrite_pools (breed_depth overwrite_pools)
      5 {[85; 86]} [] three_breeds = Some (b, br') ∧
    entries_lowered three_breeds br'.
Proof.
  destruct (overwrite_handle_returns three_breeds) as (b & br' & Hrun).
  exists b, br'. split; [exact Hrun |].
  exact (handle_lowers_entries _ _ _ _ _ _ _ _ _ Hrun).
Defined.








Lemma NoDup_length_size (l : list Z) (X : gset Z) :
  NoDup l → (∀ x, x ∈ l → x ∈ X) → (length l ≤ size X)%nat.
Proof.
  intros Hnd Hsub. rewrite <- (size_list_to_set (C:=gset Z) l) by done.
  apply subseteq_size. intros x Hx. apply elem_of_list_to_set in Hx. auto.
Qed.

Section EntriesBounded.
Variable o : iteration_order.
Variable bp : breed_pools.
Variable roots : list Z.
Variables goal egg : gset Z.
Hypothesis egg_goal : egg ⊆ goal.

Lemma breed_call_nested group mvs path new_group learned :
  breed_call bp roots goal group mvs path → mvs ≠ ∅ →
  new_group ∈ all_groups bp → new_group ∉ path ++ [group] →
  mvs ⊆ dd_get ∅ (eg1_movepools bp) new_group →
  breed_call bp roots goal new_group (mvs ∖ list_to_set learned)
    (path ++ [group]).
Proof.
  intros (Hsub & Hnd & root & rest & Hpath & Hroot & Hrest) _ Hng Hfresh _.
  split.
  { intros x Hx. apply Hsub. by apply elem_of_difference in Hx as [? _]. }
  split.
  - apply NoDup_app. split; [done |]. split; [| apply NoDup_singleton].
    intros x Hx Hx'. apply list_elem_of_singleton in Hx' as ->. done.
  - exists root, (rest ++ [new_group]). rewrite Hpath. split; [done |].
    split; [done |]. intros x Hx. apply elem_of_app in Hx as [Hx | Hx].
    + by apply Hrest.
    + by apply list_elem_of_singleton in Hx as ->.
Qed.

Lemma entries_bounded_assign br group mvs path :
  breed_call bp roots goal group mvs path → mvs ≠ ∅ →
  entries_bounded bp roots goal br →
  entries_bounded bp roots goal
    (breeds_set br group mvs
       (Z.min (breeds_get br group mvs) (Z.of_nat (length path)))).
Proof.
  intros (Hsub & Hnd & root & rest & Hpath & Hroot & Hrest) Hne Hbr g k v.
  rewrite breeds_lookup_set_cases. case_bool_decide as Heq; [| apply Hbr].
  injection Heq as -> ->. intros [= <-].
  assert (length path = length rest) as Hlen.
  { apply (f_equal length) in Hpath. rewrite length_app in Hpath.
    simpl in Hpath. lia. }
  assert (length rest ≤ size (all_groups bp))%nat as Hsize.
  { apply NoDup_length_size; [| done]. rewrite Hpath in Hnd.
    by apply NoDup_cons in Hnd as [_ ?]. }
  assert (0 ≤ breeds_get br group mvs) as Hget.
  { unfold breeds_get.
    destruct (dd_get ∅ br group !! mvs) as [v|] eqn:Hv; simpl; [| lia].
    assert (breeds_lookup br group mvs = Some v) as Hl.
    { unfold breeds_lookup. unfold dd_get in Hv.
      destruct (br !! group); simpl in *; [done |].
      by rewrite lookup_empty in Hv. }
    apply Hbr in Hl. lia. }
  split; [done |]. split; [done |]. split; [lia |].
  destruct rest as [|x rest' _] using rev_ind.
  - left. destruct path; [| by destruct path].
    simpl in Hpath. by injection Hpath as ->.
  - right. rewrite app_comm_cons in Hpath.
    apply app_inj_tail in Hpath as [_ ->].
    apply Hrest, elem_of_app. right. left.
Qed.

Lemma handle_entries_bounded depth group mvs path br b br' :
  handle o bp depth group mvs path br = Some (b, br') →
  breed_call bp roots goal group mvs path →
  entries_bounded bp roots goal br → entries_bounded bp roots goal br'.
Proof.
  apply (handle_preserves o bp (breed_call bp roots goal)
           (entries_bounded bp roots goal)).
  - apply breed_call_nested.
  - apply entries_bounded_assign.
Qed.

Lemma seed_entries_bounded group tuples br :
  group ∈ roots →
  (∀ t, t ∈ tuples → list_to_set t ⊆ goal) →
  entries_bounded bp roots goal br →
  entries_bounded bp roots goal (foldl (seed egg group) br tuples).
Proof.
  intros Hroot. revert br.
  induction tuples as [|t tuples IH]; intros br Htuples Hbr; [done |].
  simpl. apply IH; [intros t' Ht'; apply Htuples; by right |].
  unfold seed. case_bool_decide as Hne; [| done].
  intros g k v. rewrite breeds_lookup_set_cases.
  case_bool_decide as Heq; [| apply Hbr].
  injection Heq as -> ->. intros [= <-].
  assert (list_to_set t ⊆ goal) as Ht by (apply Htuples; left).
  split; [| split; [by apply union_least | split; [lia | by left]]].
  destruct t as [|x t]; [done |]. set_solver.
Qed.

Lemma seed_group_entries_bounded depth br group br' :
  group ∈ roots →
  seed_group o bp goal egg depth br group = Some br' →
  entries_bounded bp roots goal br → entries_bounded bp roots goal br'.
Proof.
  intros Hroot. unfold seed_group.
  destruct (handle o bp depth group goal [] br) as [[b br1]|] eqn:Hrun;
    [| done].
  simpl. intros [= <-] Hbr. apply seed_entries_bounded; [done | |].
  - intros t Ht x Hx. apply elem_of_list_to_set in Hx.
    apply powerset_elem_sublist in Ht.
    pose proof (elem_of_sublist _ _ _ Hx Ht) as Hx'.
    apply iter_set_elem in Hx'. by apply elem_of_difference in Hx' as [? _].
  - eapply handle_entries_bounded; [exact Hrun | | exact Hbr].
    split; [done |]. split; [apply NoDup_singleton |].
    exists group, []. split; [done |]. split; [done |].
    intros x Hx. by apply elem_of_nil in Hx.
Qed.
End EntriesBounded.

(** X22.  The entries of [breeds_required].  When the egg moves are goal
    moves, [construct_breed_graph] leaves only entries for non-empty sets
    of goal moves, under a goal group or a group of [all_groups], with a
    number of breeds between 0 and the number of groups of [all_groups]
    (or 1, for the entries of lines 459-461). *)
Theorem breeds_required_entries (o : iteration_order)
    (self : MovesetSearch) :
  egg_moves self ⊆ goal_moves self →
  ∃ self',
    construct_breed_graph o self = Some self' ∧
    ∀ g k v, breeds_lookup (breeds_required self') g k = Some v →
      k ≠ ∅ ∧ k ⊆ goal_moves self ∧
      0 ≤ v ≤ Z.max 1 (Z.of_nat (size (all_groups (breed_graph_pools o self)))) ∧
      (g ∈ goal_egg_groups self ∨ g ∈ all_groups (breed_graph_pools o self)).
Proof.
  intros Hegg.
  destruct (construct_breed_graph_entries o self) as (self' & Hrun & _).
  exists self'. split; [exact Hrun |].
  unfold construct_breed_graph in Hrun.
  destruct (for_each_opt _ _ _) as [br|] eqn:Hloop; [| done].
  simpl in Hrun. injection Hrun as <-. simpl.
  revert Hloop.
  apply (for_each_opt_inv
           (entries_bounded (breed_graph_pools o self) (goal_egg_groups self)
              (goal_moves self))).
  - intros st g st' Hg Hst Hstep.
    eapply seed_group_entries_bounded; [exact Hegg | exact Hg | exact Hstep | exact Hst].
  - intros g k v. unfold breeds_lookup. by rewrite lookup_empty.
Qed.

Lemma breeds_required_entries_witness :
  ∃ self',
    construct_breed_graph ascending overwrite_search = Some self' ∧
    ∀ g k v, breeds_lookup (breeds_required self') g k = Some v →
             k ≠ ∅ ∧ k ⊆ goal_moves overwrite_search.
Proof.
  destruct (breeds_required_entries ascending overwrite_search)
    as (self' & Hrun & Hall).
  - simpl. apply empty_subseteq.
  - exists self'. split; [exact Hrun |]. intros g k v Hv.
    destruct (Hall g k v Hv) as (H1 & H2 & _). split; [exact H1 | exact H2].
Defined.

Lemma gen_for_nothing {A B} (l : list A) (body : A → gen B) :
  (∀ x, x ∈ l → (body x).1 = []) → (gen_for l body).1 = [].
Proof.
  induction l as [|x l IH]; intros Hbody; [done |].
  simpl. unfold gen_seq.
  pose proof (Hbody x (list_elem_of_here _ _)) as Hx.
  destruct (body x) as [ys [e|]]; simpl in *; [done |].
  rewrite Hx. simpl. apply IH. intros y Hy. apply Hbody. by right.
Qed.

Lemma no_breeds_no_starts o s :
  (∀ g, dd_get ∅ (breeds_required s) g = ∅) →
  (InitialNode_expand o s).1 = [].
Proof.
  intros Hempty. unfold InitialNode_expand. apply gen_for_nothing.
  intros [p vgs] _. unfold gen_try.
  destruct (getitem _ _) as [e | chain]; [done |]. simpl.
  replace (existsb _ _) with false; [done |].
  symmetry. apply not_true_is_false. intros Hex.
  apply existsb_exists in Hex as (g & _ & Hg).
  apply bool_decide_eq_true in Hg. by apply Hg.
Qed.

(** X23.  A target without egg groups is never searched.  When the goal
    family has no egg groups (no target pokemon was given, or its family
    is not in [egg_groups]), [construct_breed_graph] leaves
    [breeds_required] empty, and [InitialNode.expand] then yields no
    start state at all. *)
Theorem no_goal_groups_no_starts (o : iteration_order)
    (self : MovesetSearch) :
  goal_egg_groups self = [] →
  ∃ self',
    construct_breed_graph o self = Some self' ∧
    breeds_required self' = ∅ ∧
    (InitialNode_expand o self').1 = [].
Proof.
  intros Hnone. unfold construct_breed_graph. rewrite Hnone. simpl.
  eexists. split; [reflexivity |]. split; [done |].
  apply no_breeds_no_starts. intros g. simpl. unfold dd_get.
  by rewrite lookup_empty.
Qed.

Lemma no_goal_groups_no_starts_witness :
  ∃ self',
    construct_breed_graph ascending no_target_search = Some self' ∧
    breeds_required self' = ∅ ∧
    (InitialNode_expand ascending self').1 = [].
Proof.
  exact (no_goal_groups_no_starts ascending no_target_search eq_refl).
Defined.

(** ** Version groups without a generation *)

Lemma dupes_loop_raises gens rest pre st :
  dupes_inv gens pre st →
  NoDup (pre ++ rest).*1 →
  (∃ v m, (v, m) ∈ rest ∧ gens !! v = None) →
  ∃ v', for_each rest (dupes_step gens) st = Err (Raise KeyError (pretty v')) ∧
        gens !! v' = None ∧ v' ∈ rest.*1.
Proof.
  revert pre st. induction rest as [|[v m] rest IH]; intros pre st Hinv Hnd Hbad.
  - destruct Hbad as (v & m & H & _). by apply elem_of_nil in H.
  - destruct (gens !! v) as [g|] eqn:Hg.
    + destruct (dupes_step_inv gens pre st v m g) as (st' & Hstep & Hinv');
        [done | | done |].
      { rewrite fmap_app in Hnd. apply NoDup_app in Hnd as (_ & Hdisj & _).
        intros Hv. apply (Hdisj v Hv). simpl. left. }
      cbn [for_each]. rewrite Hstep.
      destruct (IH (pre ++ [(v, m)]) st') as (v' & Hrun & Hnone & Hin).
      * done.
      * by rewrite <- app_assoc.
      * destruct Hbad as (v0 & m0 & Hin0 & Hnone0).
        apply elem_of_cons in Hin0 as [[= -> ->] | Hin0]; [congruence |].
        by exists v0, m0.
      * exists v'. split; [done |]. split; [done |]. simpl. by right.
    + exists v. cbn [for_each]. unfold dupes_step, getitem. rewrite Hg.
      split; [done |]. split; [done |]. left.
Qed.

Lemma find_dupes_raises o gens (vgm : gmap Z moves_t) :
  (∃ v m, vgm !! v = Some m ∧ gens !! v = None) →
  ∃ v', find_dupes o gens vgm = Err (Raise KeyError (pretty v')) ∧
        gens !! v' = None ∧ is_Some (vgm !! v').
Proof.
  intros (v & m & Hv & Hnone). unfold find_dupes.
  destruct (dupes_loop_raises gens (iter_dict o vgm) [] dupes_init)
    as (v' & -> & Hnone' & Hin).
  - apply dupes_inv_init.
  - apply iter_dict_NoDup.
  - exists v, m. split; [by apply iter_dict_elem | done].
  - exists v'. split; [done |]. split; [done |].
    apply list_elem_of_fmap in Hin as ([v0 m0] & -> & Hin).
    apply iter_dict_elem in Hin. by eexists.
Qed.

(** X25.  A version group with loaded moves and no generation makes
    [find_duplicate_versions] raise KeyError for such a version group. *)
Theorem find_duplicate_versions_unknown_generation (o : iteration_order)
    (self : MovesetSearch) (p : Z) (vgm : gmap Z moves_t) (v : Z) :
  pokemon_moves self !! p = Some vgm →
  is_Some (vgm !! v) →
  generation_id_by_version_group self !! v = None →
  ∃ v', find_duplicate_versions o self = Err (Raise KeyError (pretty v')) ∧
        generation_id_by_version_group self !! v' = None.
Proof.
  intros Hp [m Hv] Hnone. unfold find_duplicate_versions.
  set (gens := generation_id_by_version_group self) in *.
  assert (∃ p0 vgm0 v0 m0, (p0, vgm0) ∈ iter_dict o (pokemon_moves self) ∧
            vgm0 !! v0 = Some m0 ∧ gens !! v0 = None) as Hbad.
  { exists p, vgm, v, m. split; [by apply iter_dict_elem | done]. }
  assert (∀ l (dv : gmap Z (gmap Z (gset Z))),
    (∃ p0 vgm0 v0 m0, (p0, vgm0) ∈ l ∧
       vgm0 !! v0 = Some m0 ∧ gens !! v0 = None) →
    ∃ v', for_each l
            (λ dv '(p, vg_moves),
               d ← find_dupes o gens vg_moves; Ok (<[p := d]> dv)) dv
          = Err (Raise KeyError (pretty v')) ∧ gens !! v' = None) as Hloop.
  { induction l as [|[p1 vgm1] l IH]; intros dv Hex.
    - destruct Hex as (? & ? & ? & ? & H & _). by apply elem_of_nil in H.
    - simpl.
      destruct (decide (map_Forall (λ v _, is_Some (gens !! v)) vgm1))
        as [Hall | Hnot].
      + destruct (find_dupes_classes o gens vgm1) as (d & -> & _).
        { intros v1 m1 H1. by apply (Hall v1 m1). }
        simpl. apply IH.
        destruct Hex as (p0 & vgm0 & v0 & m0 & Hin & Hv0 & Hn0).
        apply elem_of_cons in Hin as [[= -> ->] | Hin].
        * exfalso. specialize (Hall v0 m0 Hv0). simpl in Hall.
          rewrite Hn0 in Hall. by destruct Hall.
        * by exists p0, vgm0, v0, m0.
      + apply map_not_Forall in Hnot; [| apply _].
        destruct Hnot as (v1 & m1 & Hv1 & Hn1).
        destruct (find_dupes_raises o gens vgm1) as (v' & -> & Hn' & _).
        { exists v1, m1. split; [done |].
          destruct (gens !! v1); [| done]. exfalso. apply Hn1. by eexists. }
        exists v'. by split. }
  destruct (Hloop _ ∅ Hbad) as (v' & -> & Hn'). by exists v'.
Qed.

Lemma unknown_generation_data :
  pokemon_moves unknown_generation_search !! 25 = Some {[7 := sample_moves]} ∧
  is_Some (({[7 := sample_moves]} : gmap Z moves_t) !! 7) ∧
  generation_id_by_version_group unknown_generation_search !! 7 = None.
Proof.
  split; [apply lookup_singleton_eq |].
  split; [rewrite lookup_singleton_eq; by eexists |].
  vm_compute. reflexivity.
Qed.

Lemma find_duplicate_versions_unknown_generation_witness :
  ∃ v' : Z,
    find_duplicate_versions ascending unknown_generation_search
    = Err (Raise KeyError (pretty v')).
Proof.
  destruct unknown_generation_data as (Hp & Hv & Hg).
  destruct (find_duplicate_versions_unknown_generation ascending
              unknown_generation_search 25 _ 7 Hp Hv Hg) as (v' & Hrun & _).
  by exists v'.
Defined.

(** ** What [load_pokemon] loads *)

Lemma item_babies_added_refl pokemon t : item_babies_added pokemon t t.
Proof. split; try done. intros g. split; set_solver. Qed.

Lemma item_babies_added_trans pokemon t1 t2 t3 :
  item_babies_added pokemon t1 t2 → item_babies_added pokemon t2 t3 →
  item_babies_added pokemon t1 t3.
Proof.
  intros [A1 A2 A3 A4 A5 A6 A7 A8] [B1 B2 B3 B4 B5 B6 B7 B8].
  split.
  - congruence.
  - congruence.
  - congruence.
  - congruence.
  - intros c. by rewrite B5.
  - intros c. by rewrite B6.
  - intros c. by rewrite B7.
  - intros g. destruct (A8 g) as [A8l A8u], (B8 g) as [B8l B8u]. split.
    + by etrans.
    + intros x Hx. apply B8u, elem_of_union in Hx as [Hx | Hx].
      * by apply A8u.
      * apply elem_of_union. by right.
Qed.

Lemma dd_get_touch {V} (dflt : V) (d : gmap Z V) k k' :
  dd_get dflt (dd_touch dflt d k) k' = dd_get dflt d k'.
Proof.
  unfold dd_touch, dd_get. destruct (d !! k) eqn:Hk; [done |].
  destruct (decide (k = k')) as [<- | Hne].
  - by rewrite lookup_insert_eq, Hk.
  - by rewrite lookup_insert_ne.
Qed.

Lemma add_babies_spec pokemon groups b g :
  dd_get ∅ (foldl (add_baby pokemon) b groups) g
  = if bool_decide (g ∈ groups) then dd_get ∅ b g ∪ {[pokemon]}
    else dd_get ∅ b g.
Proof.
  revert b. induction groups as [|g0 groups IH]; intros b.
  - rewrite bool_decide_false; [done |]. by intros H%elem_of_nil.
  - cbn [foldl]. rewrite IH. unfold add_baby. rewrite dd_get_insert.
    destruct (decide (g0 = g)) as [-> | Hne].
    + rewrite (bool_decide_true (g = g)) by done.
      rewrite (bool_decide_true (g ∈ g :: groups)) by left.
      destruct (bool_decide (g ∈ groups)); [| done].
      by rewrite <- (assoc_L (∪)), (idemp_L (∪)).
    + rewrite (bool_decide_false (g0 = g)) by done.
      destruct (decide (g ∈ groups)) as [Hin | Hout].
      * rewrite (bool_decide_true (g ∈ groups)) by done.
        rewrite (bool_decide_true (g ∈ g0 :: groups)) by (by right). done.
      * rewrite (bool_decide_false (g ∈ groups)) by done.
        rewrite (bool_decide_false (g ∈ g0 :: groups)); [done |].
        intros [? | ?]%elem_of_cons; congruence.
Qed.

Lemma foldl_inv {A S} (I : S → Prop) (f : S → A → S) (l : list A) (st : S) :
  (∀ st x, x ∈ l → I st → I (f st x)) → I st → I (foldl f st l).
Proof.
  revert st. induction l as [|x l IH]; intros st Hf Hst; [done |].
  simpl. apply IH.
  - intros s y Hy. apply Hf. by right.
  - apply Hf; [left | done].
Qed.

Lemma add_item_baby_added pokemon chain t :
  item_babies_added pokemon t (add_item_baby pokemon chain t).
Proof.
  split; try done; simpl.
  - intros c. apply dd_get_touch.
  - intros g. rewrite add_babies_spec. destruct (bool_decide _); set_solver.
Qed.

Lemma item_baby_turn_added pokemon chain t item_baby :
  item_babies_added pokemon t (item_baby_turn pokemon chain t item_baby).
Proof.
  unfold item_baby_turn. case_bool_decide; [| apply item_babies_added_refl].
  apply (foldl_inv (item_babies_added pokemon t)).
  - intros t' _ _ Ht'. eapply item_babies_added_trans; [exact Ht' |].
    apply add_item_baby_added.
  - split; try done; simpl.
    + intros k. apply dd_get_touch.
    + intros g. set_solver.
Qed.

Lemma item_baby_chain_turn_added o pokemon t chain :
  item_babies_added pokemon t (item_baby_chain_turn o pokemon t chain).
Proof.
  unfold item_baby_chain_turn.
  apply (foldl_inv (item_babies_added pokemon t)).
  - intros t' x _ Ht'. eapply item_babies_added_trans; [exact Ht' |].
    apply item_baby_turn_added.
  - split; try done; simpl.
    + intros c. apply dd_get_touch.
    + intros g. set_solver.
Qed.

Lemma load_evolution_row_loaded t r t' :
  load_evolution_row t r = Ok t' → evolutions_loaded t t'.
Proof.
  unfold load_evolution_row.
  destruct (getitem (evolution_parents t) (ev_child r)) as [e | parent];
    [done |]. simpl.
  destruct (ev_move r) as [move|]; simpl.
  - case_bool_decide.
    + destruct (getitem (pt_evolution_chains t) (ev_child r)) as [e | chain];
        [done |]. simpl. by intros [= <-].
    + simpl. by intros [= <-].
  - by intros [= <-].
Qed.

Lemma load_evolutions_loaded rows t t' :
  for_each rows load_evolution_row t = Ok t' → evolutions_loaded t t'.
Proof.
  revert t. induction rows as [|r rows IH]; intros t; simpl.
  - by intros [= <-].
  - destruct (load_evolution_row t r) as [e | t1] eqn:Hrow; [done |].
    intros Hrest. apply load_evolution_row_loaded in Hrow as [].
    apply IH in Hrest as []. split; congruence.
Qed.

(** What [load_pokemon] returns, relative to the tables [t1] after the
    first loop. *)
Lemma load_pokemon_stages o no_eggs ditto rows evolution_rows t :
  load_pokemon o no_eggs ditto rows evolution_rows = Ok t →
  let st := foldl (load_pokemon_row no_eggs ditto)
              {| fl_tables := pokemon_tables_init; item_baby_chains := ∅;
                 fl_pokemon := None |} rows in
  ∃ t2,
    for_each evolution_rows load_evolution_row (fl_tables st) = Ok t2 ∧
    evolutions_loaded (fl_tables st) t2 ∧
    match fl_pokemon st with
    | Some pokemon => item_babies_added pokemon t2 t
    | None => t = t2
    end.
Proof.
  intros Hrun st. unfold load_pokemon in Hrun. fold st in Hrun.
  destruct (for_each evolution_rows load_evolution_row (fl_tables st))
    as [e | t2] eqn:Hloop; [done |].
  exists t2. split; [done |]. split; [by eapply load_evolutions_loaded |].
  simpl in Hrun. destruct (fl_pokemon st) as [pokemon|].
  - injection Hrun as <-.
    apply (foldl_inv (item_babies_added pokemon t2)).
    + intros t' x _ Ht'. eapply item_babies_added_trans; [exact Ht' |].
      apply item_baby_chain_turn_added.
    + apply item_babies_added_refl.
  - by injection Hrun as <-.
Qed.

Lemma first_loop_inv_init no_eggs ditto :
  first_loop_inv no_eggs ditto []
    {| fl_tables := pokemon_tables_init; item_baby_chains := ∅;
       fl_pokemon := None |}.
Proof.
  split; simpl.
  - intros r Hr. by apply elem_of_nil in Hr.
  - intros p c. by rewrite lookup_empty.
  - intros c p. unfold dd_get. rewrite lookup_empty. simpl.
    split; [set_solver |]. intros (r & Hr & _). by apply elem_of_nil in Hr.
  - intros p. rewrite lookup_empty. split; [by intros [? ?] |].
    intros (r & Hr & _). by apply elem_of_nil in Hr.
  - intros p. split; [set_solver |].
    intros (r & Hr & _). by apply elem_of_nil in Hr.
  - intros c gs. by rewrite lookup_empty.
  - intros r Hr. by apply elem_of_nil in Hr.
  - intros g p. unfold dd_get. rewrite lookup_empty. simpl.
    split; [set_solver |]. intros (r & Hr & _). by apply elem_of_nil in Hr.
  - intros c. split; [set_solver |].
    intros (r & Hr & _). by apply elem_of_nil in Hr.
  - done.
Qed.

Lemma load_pokemon_row_inv no_eggs ditto pre st r :
  first_loop_inv no_eggs ditto pre st →
  first_loop_inv no_eggs ditto (pre ++ [r])
    (load_pokemon_row no_eggs ditto st r).
Proof.
  intros [Hdom Hch Hbc Hpar Hunb Hgs Hgm Hbab Hitem Hpk].
  split; simpl.
  - intros r' Hr'. apply elem_of_app in Hr' as [Hr' | Hr'].
    + destruct (decide (pk_pokemon r = pk_pokemon r')) as [Heq | Hne].
      * rewrite Heq, lookup_insert_eq. by eexists.
      * rewrite lookup_insert_ne by done. by apply Hdom.
    + apply list_elem_of_singleton in Hr' as ->.
      rewrite lookup_insert_eq. by eexists.
  - intros p c. rewrite exists_snoc.
    destruct (decide (pk_pokemon r = p)) as [<- | Hne].
    + rewrite lookup_insert_eq. intros [= <-]. by right.
    + rewrite lookup_insert_ne by done. intros H. left. by apply Hch.
  - intros c p. rewrite exists_snoc, dd_get_insert.
    destruct (decide (pk_chain r = c)) as [<- | Hne].
    + rewrite bool_decide_true by done.
      rewrite elem_of_union, elem_of_singleton, Hbc. split.
      * intros [? | ->]; [by left | by right].
      * intros [? | [-> _]]; [by left | by right].
    + rewrite bool_decide_false by done. rewrite Hbc.
      split; [by left |]. intros [? | [_ ?]]; done.
  - intros p. rewrite exists_snoc, <- Hpar.
    destruct (pk_parent r) as [parent|] eqn:Hparent; simpl.
    + destruct (bool_decide (parent ≠ 0)) eqn:Htr.
      * destruct (decide (pk_pokemon r = p)) as [<- | Hne].
        -- rewrite lookup_insert_eq. split; [by right | by eexists].
        -- rewrite lookup_insert_ne by done.
           split; [by left |]. intros [? | [? _]]; done.
      * split; [by left |]. intros [? | [_ ?]]; done.
    + split; [by left |]. intros [? | [_ ?]]; done.
  - intros p. rewrite exists_snoc, <- Hunb. unfold in_bad_group.
    destruct (decide (pk_g1 r = no_eggs ∨ pk_g1 r = ditto)) as [Hbad | Hok].
    + rewrite bool_decide_true by done.
      rewrite elem_of_union, elem_of_singleton. split.
      * intros [? | ->]; [by left | by right].
      * intros [? | [-> _]]; [by left | by right].
    + rewrite bool_decide_false by done.
      split; [by left |]. intros [? | [_ ?]]; done.
  - intros c gs. rewrite exists_snoc. unfold in_bad_group.
    destruct (decide (pk_g1 r = no_eggs ∨ pk_g1 r = ditto)) as [Hbad | Hok].
    + rewrite bool_decide_true by done. intros H. left. by apply Hgs.
    + rewrite bool_decide_false by done.
      destruct (bool_decide _).
      * destruct (decide (pk_chain r = c)) as [<- | Hne].
        -- rewrite lookup_insert_eq. intros [= <-]. by right.
        -- rewrite lookup_insert_ne by done. intros H. left. by apply Hgs.
      * intros H. left. by apply Hgs.
  - intros r' Hr' Hok'. unfold in_bad_group in *.
    destruct (decide (pk_g1 r = no_eggs ∨ pk_g1 r = ditto)) as [Hbad | Hok].
    + rewrite bool_decide_true by done.
      apply elem_of_app in Hr' as [Hr' | Hr']; [by apply Hgm |].
      by apply list_elem_of_singleton in Hr' as ->.
    + rewrite bool_decide_false by done.
      destruct (decide (length (default [] (pt_egg_groups (fl_tables st)
                                             !! pk_chain r))
                        ≤ length (row_groups r))%nat) as [Hle | Hgt].
      * rewrite bool_decide_true by done.
        apply elem_of_app in Hr' as [Hr' | Hr'].
        -- destruct (Hgm r' Hr' Hok') as (gs & Hgs' & Hlen).
           destruct (decide (pk_chain r = pk_chain r')) as [Heq | Hne].
           ++ rewrite <- Heq, lookup_insert_eq. eexists. split; [done |].
              rewrite <- Heq in Hgs'. rewrite Hgs' in Hle. simpl in Hle. lia.
           ++ rewrite lookup_insert_ne by done. by exists gs.
        -- apply list_elem_of_singleton in Hr' as ->.
           rewrite lookup_insert_eq. by eexists.
      * rewrite bool_decide_false by done.
        apply elem_of_app in Hr' as [Hr' | Hr']; [by apply Hgm |].
        apply list_elem_of_singleton in Hr' as ->.
        destruct (pt_egg_groups (fl_tables st) !! pk_chain r) as [gs|];
          simpl in Hgt.
        -- exists gs. split; [done | lia].
        -- lia.
  - intros g p. rewrite exists_snoc, <- Hbab.
    destruct (truthy (pk_parent r)) eqn:Htr.
    + split; [by left |]. intros [? | (_ & ? & _)]; done.
    + rewrite add_babies_spec.
      destruct (decide (g ∈ row_groups r)) as [Hin | Hout].
      * rewrite bool_decide_true by done.
        rewrite elem_of_union, elem_of_singleton. split.
        -- intros [? | ->]; [by left | by right].
        -- intros [? | (-> & _)]; [by left | by right].
      * rewrite bool_decide_false by done.
        split; [by left |]. intros [? | (_ & _ & ?)]; done.
  - intros c. rewrite exists_snoc, <- Hitem.
    destruct (truthy (pk_parent r)); simpl.
    + destruct (truthy (pk_baby_item r)).
      * rewrite elem_of_union, elem_of_singleton. split.
        -- intros [? | ->]; [by left | by right].
        -- intros [? | (-> & _)]; [by left | by right].
      * split; [by left |]. intros [? | (_ & _ & ?)]; done.
    + split; [by left |]. intros [? | (_ & ? & _)]; done.
  - by rewrite last_snoc.
Qed.

Lemma first_loop_spec no_eggs ditto rows :
  first_loop_inv no_eggs ditto rows
    (foldl (load_pokemon_row no_eggs ditto)
       {| fl_tables := pokemon_tables_init; item_baby_chains := ∅;
          fl_pokemon := None |} rows).
Proof.
  induction rows as [|r rows IH] using rev_ind.
  - apply first_loop_inv_init.
  - rewrite foldl_snoc. by apply load_pokemon_row_inv.
Qed.

(** With no row the loop variable [pokemon] stays unbound, and then
    [item_baby_chains] is empty: the last loop of [load_pokemon] has no
    turn. *)
Lemma unbound_pokemon_no_item_baby no_eggs ditto rows :
  let st := foldl (load_pokemon_row no_eggs ditto)
              {| fl_tables := pokemon_tables_init; item_baby_chains := ∅;
                 fl_pokemon := None |} rows in
  fl_pokemon st = None → item_baby_chains st = ∅.
Proof.
  intros st Hnone. pose proof (first_loop_spec no_eggs ditto rows) as Hinv.
  fold st in Hinv. rewrite (fi_pokemon _ _ _ _ Hinv) in Hnone.
  destruct (list.last rows) as [r|] eqn:Hlast; [done |].
  apply last_None in Hlast. apply set_eq. intros c.
  rewrite (fi_item _ _ _ _ Hinv), Hlast. split.
  - intros (r & Hr & _). by apply elem_of_nil in Hr.
  - intros Hc. by apply not_elem_of_empty in Hc.
Qed.

Lemma sample_tables :
  ∃ t, load_pokemon ascending 15 13 sample_pokemon_rows sample_evolution_rows
       = Ok t.
Proof.
  assert ((λ _, ()) <$> returned
            (load_pokemon ascending 15 13 sample_pokemon_rows
               sample_evolution_rows) = Some ()) as H
    by (vm_compute; reflexivity).
  destruct (load_pokemon ascending 15 13 sample_pokemon_rows
              sample_evolution_rows) as [e | t]; [discriminate |].
  by exists t.
Qed.

(** X26.  The egg groups of a family.  A family all of whose rows are in
    the no-eggs or the ditto group has no egg groups; otherwise its egg
    groups are those of one of its other rows, and no such row has
    more. *)
Theorem load_pokemon_egg_groups (o : iteration_order) (no_eggs ditto : Z)
    (rows : list pokemon_row) (evolution_rows : list evolution_row)
    (t : pokemon_tables) (chain : Z) :
  load_pokemon o no_eggs ditto rows evolution_rows = Ok t →
  let groups := dd_get [] (pt_egg_groups t) chain in
  ((∀ r, r ∈ rows → pk_chain r = chain → in_bad_group no_eggs ditto r) →
   groups = []) ∧
  (∀ r, r ∈ rows → pk_chain r = chain → ¬ in_bad_group no_eggs ditto r →
     (length (row_groups r) ≤ length groups)%nat ∧
     ∃ r', r' ∈ rows ∧ pk_chain r' = chain ∧
           ¬ in_bad_group no_eggs ditto r' ∧ groups = row_groups r').
Proof.
  intros Hrun groups.
  apply load_pokemon_stages in Hrun as (t2 & _ & Hev & Hlast).
  pose proof (first_loop_spec no_eggs ditto rows) as Hinv.
  set (st := foldl (load_pokemon_row no_eggs ditto)
               {| fl_tables := pokemon_tables_init; item_baby_chains := ∅;
                  fl_pokemon := None |} rows) in *.
  assert (groups = dd_get [] (pt_egg_groups (fl_tables st)) chain) as ->.
  { unfold groups. destruct (fl_pokemon st).
    - rewrite (ib_groups _ _ _ Hlast). by rewrite (el_groups _ _ Hev).
    - subst t. by rewrite (el_groups _ _ Hev). }
  split.
  - intros Hbad. unfold dd_get.
    destruct (pt_egg_groups (fl_tables st) !! chain) as [gs|] eqn:Hgs; [| done].
    apply (fi_groups_some _ _ _ _ Hinv) in Hgs as (r & Hr & Hc & Hok & _).
    exfalso. by apply Hok, Hbad.
  - intros r Hr <- Hok.
    destruct (fi_groups_max _ _ _ _ Hinv r Hr Hok) as (gs & Hgs & Hlen).
    unfold dd_get. rewrite Hgs. simpl. split; [done |].
    apply (fi_groups_some _ _ _ _ Hinv) in Hgs as (r' & ? & ? & ? & ?).
    by exists r'.
Qed.

Lemma load_pokemon_egg_groups_witness :
  ∃ t,
    load_pokemon ascending 15 13 sample_pokemon_rows sample_evolution_rows
    = Ok t ∧
    (2 ≤ length (dd_get [] (pt_egg_groups t) 10%Z))%nat.
Proof.
  destruct sample_tables as [t Hrun]. exists t. split; [exact Hrun |].
  destruct (load_pokemon_egg_groups _ _ _ _ _ _ 10 Hrun) as [_ Hmax].
  destruct (Hmax {| pk_pokemon := 25; pk_chain := 10; pk_parent := Some 172;
                    pk_g1 := 5; pk_g2 := Some 6; pk_baby_item := None |})
    as [Hlen _].
  - vm_compute. apply list_elem_of_further, list_elem_of_here.
  - reflexivity.
  - unfold in_bad_group. simpl. lia.
  - exact Hlen.
Defined.

(** X27.  Creatures and their evolution chains.  Every creature of the
    first query has an evolution chain, and is among the creatures of its
    chain; the creatures of a chain are those a row gives with that
    chain. *)
Theorem load_pokemon_chains (o : iteration_order) (no_eggs ditto : Z)
    (rows : list pokemon_row) (evolution_rows : list evolution_row)
    (t : pokemon_tables) :
  load_pokemon o no_eggs ditto rows evolution_rows = Ok t →
  (∀ r, r ∈ rows → is_Some (pt_evolution_chains t !! pk_pokemon r)) ∧
  (∀ p c, pt_evolution_chains t !! p = Some c →
          p ∈ dd_get ∅ (pokemon_by_evolution_chain t) c) ∧
  (∀ c p, p ∈ dd_get ∅ (pokemon_by_evolution_chain t) c ↔
          ∃ r, r ∈ rows ∧ pk_pokemon r = p ∧ pk_chain r = c).
Proof.
  intros Hrun.
  apply load_pokemon_stages in Hrun as (t2 & _ & Hev & Hlast).
  pose proof (first_loop_spec no_eggs ditto rows) as Hinv.
  set (st := foldl (load_pokemon_row no_eggs ditto)
               {| fl_tables := pokemon_tables_init; item_baby_chains := ∅;
                  fl_pokemon := None |} rows) in *.
  assert (pt_evolution_chains t = pt_evolution_chains (fl_tables st)) as Hch.
  { destruct (fl_pokemon st).
    - rewrite (ib_chains _ _ _ Hlast). by rewrite (el_chains _ _ Hev).
    - subst t. by rewrite (el_chains _ _ Hev). }
  assert (∀ c, dd_get ∅ (pokemon_by_evolution_chain t) c
               = dd_get ∅ (pokemon_by_evolution_chain (fl_tables st)) c)
    as Hbc.
  { intros c. destruct (fl_pokemon st).
    - rewrite (ib_by_chain _ _ _ Hlast). by rewrite (el_by_chain _ _ Hev).
    - subst t. by rewrite (el_by_chain _ _ Hev). }
  split; [| split].
  - intros r Hr. rewrite Hch. by apply (fi_chains_dom _ _ _ _ Hinv).
  - intros p c. rewrite Hch, Hbc. intros H.
    apply (fi_by_chain _ _ _ _ Hinv). by apply (fi_chains _ _ _ _ Hinv).
  - intros c p. rewrite Hbc. apply (fi_by_chain _ _ _ _ Hinv).
Qed.

Lemma load_pokemon_chains_witness :
  ∃ t,
    load_pokemon ascending 15 13 sample_pokemon_rows sample_evolution_rows
    = Ok t ∧
    ∀ p, p ∈ dd_get ∅ (pokemon_by_evolution_chain t) 10 →
         ∃ r, r ∈ sample_pokemon_rows ∧ pk_pokemon r = p.
Proof.
  destruct sample_tables as [t Hrun]. exists t. split; [exact Hrun |].
  destruct (load_pokemon_chains _ _ _ _ _ _ Hrun) as (_ & _ & Hiff).
  intros p Hp. apply Hiff in Hp as (r & Hr & Hp & _). by exists r.
Defined.

(** X28.  The babies of an egg group.  Every creature that evolves from
    nothing is a baby of each of its egg groups; and a baby of a group is
    such a creature of the group, or else the creature of the last row of
    the first query, which is what the loop for item babies adds
    (line 365 reads [pokemon], the variable of the loop of line 317). *)
Theorem load_pokemon_babies (o : iteration_order) (no_eggs ditto : Z)
    (rows : list pokemon_row) (evolution_rows : list evolution_row)
    (t : pokemon_tables) :
  load_pokemon o no_eggs ditto rows evolution_rows = Ok t →
  (∀ r g, r ∈ rows → truthy (pk_parent r) = false → g ∈ row_groups r →
          pk_pokemon r ∈ dd_get ∅ (babies t) g) ∧
  (∀ g p, p ∈ dd_get ∅ (babies t) g →
     (∃ r, r ∈ rows ∧ pk_pokemon r = p ∧ truthy (pk_parent r) = false ∧
           g ∈ row_groups r) ∨
     pk_pokemon <$> list.last rows = Some p).
Proof.
  intros Hrun.
  apply load_pokemon_stages in Hrun as (t2 & _ & Hev & Hlast).
  pose proof (first_loop_spec no_eggs ditto rows) as Hinv.
  set (st := foldl (load_pokemon_row no_eggs ditto)
               {| fl_tables := pokemon_tables_init; item_baby_chains := ∅;
                  fl_pokemon := None |} rows) in *.
  pose proof (fi_pokemon _ _ _ _ Hinv) as Hpk.
  pose proof (fi_babies _ _ _ _ Hinv) as Hbab.
  rewrite <- (el_babies _ _ Hev) in Hbab.
  destruct (fl_pokemon st) as [pokemon|].
  - split.
    + intros r g Hr Hnp Hg.
      apply (ib_babies _ _ _ Hlast g), Hbab. by exists r.
    + intros g p Hp. apply (ib_babies _ _ _ Hlast g) in Hp.
      apply elem_of_union in Hp as [Hp | Hp].
      * left. by apply Hbab.
      * right. apply elem_of_singleton in Hp as ->. by rewrite <- Hpk.
  - subst t. split.
    + intros r g Hr Hnp Hg. apply Hbab. by exists r.
    + intros g p Hp. left. by apply Hbab.
Qed.

Lemma load_pokemon_babies_witness :
  ∃ t,
    load_pokemon ascending 15 13 sample_pokemon_rows sample_evolution_rows
    = Ok t ∧
    172 ∈ dd_get ∅ (babies t) 15.
Proof.
  destruct sample_tables as [t Hrun]. exists t. split; [exact Hrun |].
  destruct (load_pokemon_babies _ _ _ _ _ _ Hrun) as [Hbabies _].
  apply (Hbabies {| pk_pokemon := 172; pk_chain := 10; pk_parent := None;
                    pk_g1 := 15; pk_g2 := None; pk_baby_item := None |}).
  - vm_compute. apply list_elem_of_here.
  - reflexivity.
  - vm_compute. apply list_elem_of_here.
Defined.

Lemma for_each_raises {A S} (I : S → Prop) (bad : A → Prop)
    (E : exn → Prop) `{∀ x, Decision (bad x)} (l : list A)
    (body : S → A → result S) (st : S) :
  (∀ st x, x ∈ l → I st → ¬ bad x → ∃ st', body st x = Ok st' ∧ I st') →
  (∀ st x, x ∈ l → I st → bad x → ∃ e, body st x = Err e ∧ E e) →
  I st → (∃ x, x ∈ l ∧ bad x) →
  ∃ e, for_each l body st = Err e ∧ E e.
Proof.
  revert st. induction l as [|x l IH]; intros st Hgood Hbad Hst Hex.
  - destruct Hex as (x & Hx & _). by apply elem_of_nil in Hx.
  - simpl. destruct (decide (bad x)) as [Hx | Hx].
    + destruct (Hbad st x) as (e & -> & He); [left | done | done |].
      by exists e.
    + destruct (Hgood st x) as (st' & -> & Hst'); [left | done | done |].
      apply IH; [| | done |].
      * intros s y Hy. apply Hgood. by right.
      * intros s y Hy. apply Hbad. by right.
      * destruct Hex as (y & Hy & Hby).
        apply elem_of_cons in Hy as [-> | Hy]; [done |]. by exists y.
Qed.

Lemma load_evolution_row_parent t r :
  (∀ p, is_Some (evolution_parents t !! p) →
        is_Some (pt_evolution_chains t !! p)) →
  is_Some (evolution_parents t !! ev_child r) →
  ∃ t', load_evolution_row t r = Ok t'.
Proof.
  intros Hchains [parent Hparent].
  destruct (Hchains (ev_child r)) as [chain Hchain]; [by eexists |].
  unfold load_evolution_row, getitem. rewrite Hparent. simpl.
  destruct (ev_move r) as [move|]; simpl; [| by eexists].
  case_bool_decide; simpl; [| by eexists].
  rewrite Hchain. simpl. by eexists.
Qed.

(** X29.  When [load_pokemon] returns.  It returns when every evolved
    creature of the second query has a row with a parent in the first
    query; otherwise it raises KeyError for an evolved creature that has
    none. *)
Theorem load_pokemon_returns (o : iteration_order) (no_eggs ditto : Z)
    (rows : list pokemon_row) (evolution_rows : list evolution_row) :
  ((∀ e, e ∈ evolution_rows → has_parent rows (ev_child e)) →
   ∃ t, load_pokemon o no_eggs ditto rows evolution_rows = Ok t) ∧
  ((∃ e, e ∈ evolution_rows ∧ ¬ has_parent rows (ev_child e)) →
   ∃ child,
     load_pokemon o no_eggs ditto rows evolution_rows
     = Err (Raise KeyError (pretty child)) ∧
     child ∈ ev_child <$> evolution_rows ∧ ¬ has_parent rows child).
Proof.
  pose proof (first_loop_spec no_eggs ditto rows) as Hinv.
  unfold load_pokemon.
  set (st := foldl (load_pokemon_row no_eggs ditto)
               {| fl_tables := pokemon_tables_init; item_baby_chains := ∅;
                  fl_pokemon := None |} rows) in *.
  set (I := λ t : pokemon_tables,
         evolution_parents t = evolution_parents (fl_tables st) ∧
         pt_evolution_chains t = pt_evolution_chains (fl_tables st)).
  assert (∀ t, I t → ∀ p, is_Some (evolution_parents t !! p) ↔ has_parent rows p)
    as Hpar.
  { intros t [-> _] p. apply (fi_parents _ _ _ _ Hinv). }
  assert (∀ t, I t → ∀ p, is_Some (evolution_parents t !! p) →
                          is_Some (pt_evolution_chains t !! p)) as Hch.
  { intros t Ht p Hp. apply (Hpar t Ht) in Hp as (r & Hr & <- & _).
    destruct Ht as [_ ->]. by apply (fi_chains_dom _ _ _ _ Hinv). }
  assert (∀ t e, I t → has_parent rows (ev_child e) →
                 ∃ t', load_evolution_row t e = Ok t' ∧ I t') as Hgood.
  { intros t e Ht He.
    destruct (load_evolution_row_parent t e) as [t' Hrow].
    - by apply Hch.
    - by apply (Hpar t Ht).
    - exists t'. split; [done |].
      apply load_evolution_row_loaded in Hrow as [].
      destruct Ht. split; congruence. }
  split.
  - intros Hall.
    destruct (for_each_returns I evolution_rows load_evolution_row
                (fl_tables st)) as (t & -> & _).
    + intros t e He Ht. apply Hgood; [done | by apply Hall].
    + done.
    + simpl. destruct (fl_pokemon st); by eexists.
  - intros Hex.
    destruct (for_each_raises I (λ e, ¬ has_parent rows (ev_child e))
                (λ e, ∃ child, e = Raise KeyError (pretty child) ∧
                      child ∈ ev_child <$> evolution_rows ∧
                      ¬ has_parent rows child)
                evolution_rows load_evolution_row (fl_tables st))
      as (e & -> & child & -> & Hchild).
    + intros t e He Ht Hp. apply Hgood; [done |].
      by apply dec_stable.
    + intros t e He Ht Hp. unfold load_evolution_row, getitem.
      destruct (evolution_parents t !! ev_child e) as [parent|] eqn:Hparent.
      * exfalso. apply Hp, (Hpar t Ht). by eexists.
      * simpl. eexists. split; [done |]. exists (ev_child e).
        split; [done |]. split; [| done].
        apply list_elem_of_fmap. by exists e.
    + done.
    + done.
    + by exists child.
Qed.

(** ** Excluded targets *)

(** X30.  An excluded target.  For a request with one to four moves whose
    target is of an excluded family, the constructor first loads the
    pokemon: if that raises, the exception escapes; otherwise the
    constructor returns an object without generator, and iterating it
    raises TargetExcluded, an IllegalMoveCombination and so a
    ValueError. *)
Theorem init_target_excluded {Generator : Type}
    (load_version_groups : gmap string Z → Z → list Z → result (gmap Z Z))
    (find_all_paths : MovesetSearch → Generator)
    (o : iteration_order) (db : database) (chain version : Z)
    (costs : option (gmap string Z))
    (exclude_versions exclude_pokemon moves : list Z) :
  moves ≠ [] → (length moves ≤ 4)%nat → chain ∈ exclude_pokemon →
  let made :=
    __init__ (setup_search load_version_groups find_all_paths o db
                (Some chain) version costs exclude_versions exclude_pokemon)
      moves in
  let excluded := Raise TargetExcluded "The target pokemon was excluded." in
  match load_pokemon o (db_no_eggs_group db) (db_ditto_group db)
          (db_pokemon db) (db_evolutions db) with
  | inl e => made = Err e
  | inr _ =>
      ∃ self, made = Ok self ∧ generator self = None ∧
              __iter__ self = Err excluded ∧
              isinstance excluded IllegalMoveCombination = true ∧
              isinstance excluded ValueError = true
  end.
Proof.
  intros Hne Hlen Hin made excluded.
  assert (made = setup_search load_version_groups find_all_paths o db
                   (Some chain) version costs exclude_versions
                   exclude_pokemon moves) as ->.
  { unfold made, __init__. destruct moves as [|m moves]; [done |].
    destruct (4 <? length (m :: moves))%nat eqn:Hlt; [| done].
    apply Nat.ltb_lt in Hlt. lia. }
  unfold setup_search.
  destruct (load_pokemon _ _ _ _ _) as [e | t]; [done |]. simpl.
  rewrite bool_decide_true by (by apply elem_of_list_to_set).
  eexists. split; [done |]. by repeat split.
Qed.

Lemma init_target_excluded_witness :
  ∃ self,
    __init__ (setup_search (λ _ _ _, Ok ∅) (λ _, ()) ascending sample_db
                (Some 10) 1 None [] [10]) [85; 86]
    = Ok self ∧
    generator self = None ∧
    __iter__ self
    = Err (Raise TargetExcluded "The target pokemon was excluded.").
Proof.
  pose proof (init_target_excluded (λ _ _ _, Ok ∅) (λ _, ()) ascending
                sample_db 10 1 None [] [10] [85; 86]
                ltac:(done) ltac:(simpl; lia) ltac:(left)) as H.
  cbv zeta in H. destruct sample_tables as [t Ht].
  change (load_pokemon ascending 15 13 sample_pokemon_rows
            sample_evolution_rows) with
    (load_pokemon ascending (db_no_eggs_group sample_db)
       (db_ditto_group sample_db) (db_pokemon sample_db)
       (db_evolutions sample_db)) in Ht.
  rewrite Ht in H. destruct H as (self & H1 & H2 & H3 & _).
  exists self. split; [exact H1 |]. split; [exact H2 | exact H3].
Defined.
